(** * ansiterm: escape-sequence core, SAUCE codec and analyzer

    A shallow embedding of [ansiterm/parser.py], [ansiterm/sauce.py], the
    dimension estimate of [ansiterm/analyze.py], [ansiterm/builder.py] and
    [render_bytes] of [ansiterm/render.py], with the properties the
    specification states about them and further ones read off the code.

    Conventions of the embedding.
    - A Python [str] is a sequence of code points: [text := list N].  All the
      characters the code distinguishes are ASCII; decoded CP437 art also
      carries code points above 255, which is why [ascii] is not used.
    - [bytes] is [list byte].
    - Indices are [nat]; every index the code computes is non-negative.
    - [s[a:b]] is [slice s a b], [s[a:]] is [skipn a s], [s[:b]] is [firstn b s].
    - The generator [tokenize_ansi] is a [while] loop over an index; one
      iteration is [loop_body], and [run] iterates it a bounded number of
      times, reporting whether the loop has been left.
    - [int] and [str] are the interpreter's, with its default limit of 4300
      digits on conversions between integers and decimal strings: [int]
      raises beyond it, and [str] is modelled where it does not raise. *)

From Stdlib Require Import String Ascii.
From Stdlib Require Import List NArith ZArith Arith Bool Lia.
From Stdlib.Strings Require Byte.
From Stdlib.Numbers Require DecimalN DecimalFacts.
From Stdlib.Init Require Import Byte.
From Equations Require Import Equations.
Import ListNotations.

Local Open Scope N_scope.
Local Open Scope nat_scope.

(** ** Text and Python string primitives *)

Definition char := N.
Definition text := list char.

Definition chr (a : ascii) : char := N_of_ascii a.
Definition str (s : string) : text := map chr (list_ascii_of_string s).

Definition ESC : char := 27%N.
Definition BEL : char := 7%N.

(** [c in "..."] for a one-character [c]. *)
Definition in_str (c : char) (s : string) : bool := existsb (N.eqb c) (str s).

(** [s[a:b]] for [0 <= a], [0 <= b]. *)
Definition slice {A} (s : list A) (a b : nat) : list A := firstn (b - a) (skipn a s).

(** [s[i]] under a bounds check made by the caller. *)
Definition get (s : text) (i : nat) : char := nth i s 0%N.

(** First position of [c] in [s], if any. *)
Fixpoint index_of (c : char) (s : text) : option nat :=
  match s with
  | [] => None
  | x :: s' => if N.eqb x c then Some 0 else option_map S (index_of c s')
  end.

(** [s.find(c, i)]; [None] stands for Python's [-1]. *)
Definition find (c : char) (s : text) (i : nat) : option nat :=
  option_map (Nat.add i) (index_of c (skipn i s)).

(** ** parser.py: tokenize_ansi *)

Inductive token_type :=
| Ttext | Tsgr | Tcup | Tcursor_move | Ted | Tel | Tdec | Tcursor_save
| Tdrop | Tother.

Definition token := (token_type * text)%type.

Definition token_type_eqb (a b : token_type) : bool :=
  match a, b with
  | Ttext, Ttext | Tsgr, Tsgr | Tcup, Tcup | Tcursor_move, Tcursor_move
  | Ted, Ted | Tel, Tel | Tdec, Tdec | Tcursor_save, Tcursor_save
  | Tdrop, Tdrop | Tother, Tother => true
  | _, _ => false
  end.

(** Where control goes at the end of one iteration of the outer [while]:
    back to the loop test with index [i], or out of the loop ([break]). *)
Inductive control :=
| Next (i : nat)
| Stop.

(** [while j < len(text) and text[j] in "0123456789;?": j += 1], counted
    from the suffix starting at the initial [j]. *)
Fixpoint span_params (s : text) : nat :=
  match s with
  | c :: s' => if in_str c "0123456789;?" then S (span_params s') else 0
  | [] => 0
  end.

(** The [if]/[elif] chain on the final byte, lines 104-121. *)
Definition classify (safe_mode : bool) (final : char) (seq : text) : token_type :=
  if N.eqb final (chr "m") then Tsgr
  else if in_str final "Hf" then Tcup
  else if in_str final "ABCD" then Tcursor_move
  else if N.eqb final (chr "J") then Ted
  else if N.eqb final (chr "K") then Tel
  else if in_str final "hl" && existsb (N.eqb (chr "?")) seq then Tdec
  else if in_str final "su" then Tcursor_save
  else if safe_mode then Tdrop
  else Tother.

(** The inner [while] of the OSC branch, lines 131-140, on the suffix
    [text[j:]]: the offset just past the terminator, if one is found. *)
Fixpoint osc_end (s : text) : option nat :=
  match s with
  | [] => None
  | c :: s' =>
      if N.eqb c BEL then Some 1
      else
        match s' with
        | c' :: _ =>
            if N.eqb c ESC && N.eqb c' (chr "\") then Some 2
            else option_map S (osc_end s')
        | [] => option_map S (osc_end s')
        end
  end.

(** Lines 147-155, the "regular text" tail of the loop body. *)
Definition regular_text (t : text) (i : nat) : list token * control :=
  match find ESC t i with
  | None => ([(Ttext, skipn i t)], Stop)
  | Some next_esc =>
      ((if i <? next_esc then [(Ttext, slice t i next_esc)] else []),
       Next next_esc)
  end.

(** One iteration of the outer [while], entered with [i < len(text)]:
    the tokens it yields and where control goes next. *)
Definition loop_body (t : text) (safe_mode : bool) (i : nat)
  : list token * control :=
  if N.eqb (get t i) ESC && (i + 1 <? length t) then
    if N.eqb (get t (i + 1)) (chr "[") then
      let j := i + 2 + span_params (skipn (i + 2) t) in
      if j <? length t then
        let final := get t j in
        let seq := slice t i (j + 1) in
        ([(classify safe_mode final seq, seq)], Next (j + 1))
      else regular_text t i
    else if N.eqb (get t (i + 1)) (chr "]") && safe_mode then
      match osc_end (skipn (i + 2) t) with
      | Some k => ([(Tdrop, slice t i (i + 2 + k))], Next (i + 2 + k))
      | None => ([(Tdrop, skipn i t)], Stop)
      end
    else regular_text t i
  else regular_text t i.

(** At most [fuel] evaluations of the loop test, from index [i]: the tokens
    yielded meanwhile, and [Stop] when the generator is exhausted or
    [Next i'] when it is still at the loop test with index [i']. *)
Fixpoint run (fuel : nat) (t : text) (safe_mode : bool) (i : nat)
  : list token * control :=
  match fuel with
  | 0 => ([], Next i)
  | S fuel' =>
      if i <? length t then
        match loop_body t safe_mode i with
        | (out, Stop) => (out, Stop)
        | (out, Next i') =>
            let (out', c) := run fuel' t safe_mode i' in (out ++ out', c)
        end
      else ([], Stop)
  end.

(** [list(tokenize_ansi(text, safe_mode))], when the generator is exhausted
    within [fuel] iterations. *)
Definition tokenize_ansi (fuel : nat) (t : text) (safe_mode : bool)
  : option (list token) :=
  match run fuel t safe_mode 0 with
  | (out, Stop) => Some out
  | (_, Next _) => None
  end.

(** ["".join(content for _, content in tokens)] *)
Definition contents (toks : list token) : text := concat (map snd toks).

(** ** parser.py: filter_safe *)

Definition kept (tk : token) : bool := negb (token_type_eqb (fst tk) Tdrop).

Definition filter_safe (fuel : nat) (t : text) : option text :=
  option_map (fun toks => contents (filter kept toks)) (tokenize_ansi fuel t true).

(** [filter_safe(filter_safe(t))] *)
Definition filter_safe_twice (fuel : nat) (t : text) : option text :=
  match filter_safe fuel t with
  | Some u => filter_safe fuel u
  | None => None
  end.

(** Three sample inputs: an escape followed by an ordinary character, a CSI
    sequence cut off before its final byte, and an OSC sequence. *)
Definition stray_escape : text := ESC :: str "X".
Definition truncated_csi : text := ESC :: str "[31".
Definition osc_title : text := ESC :: str "]0;Title" ++ [BEL].

(** A CSI sequence: introducer, parameter characters, final byte. *)
Definition csi_seq (ps : text) (final : char) : text :=
  ESC :: chr "[" :: ps ++ [final].

Definition param_char (c : char) : Prop := in_str c "0123456789;?" = true.

(** Text made of ordinary characters and of complete CSI sequences of the
    classes the safe tokenizer keeps: what a terminal may safely be sent. *)
Inductive safe_text : text -> Prop :=
| safe_nil : safe_text []
| safe_plain c rest :
    c <> ESC -> safe_text rest -> safe_text (c :: rest)
| safe_csi ps final rest :
    Forall param_char ps ->
    in_str final "0123456789;?" = false ->
    classify true final (csi_seq ps final) <> Tdrop ->
    safe_text rest ->
    safe_text (csi_seq ps final ++ rest).

(** A token the filter either drops or may pass on as it is. *)
Definition token_safe (tk : token) : Prop :=
  kept tk = true -> safe_text (snd tk).

(** ** parser.py: ice_fix *)

(** The greedy run of digits and semicolons of the pattern, counted on the
    suffix it starts at. *)
Fixpoint span_sgr (s : text) : nat :=
  match s with
  | c :: s' => if in_str c "0123456789;" then S (span_sgr s') else 0
  | [] => 0
  end.

(** Membership in the class of the pattern's group. *)
Definition sgr_char (c : char) : Prop := in_str c "0123456789;" = true.

(** A match of the pattern ESC, bracket, a group of digits and semicolons,
    then m, at the head of [s]: the length of the group.
    The class excludes [m], so the greedy run is the only candidate and no
    backtracking can produce another match at this position. *)
Definition sgr_match (s : text) : option nat :=
  match s with
  | e :: b :: r =>
      if N.eqb e ESC && N.eqb b (chr "[") then
        let n := span_sgr r in
        match skipn n r with
        | m :: _ => if N.eqb m (chr "m") then Some n else None
        | [] => None
        end
      else None
  | _ => None
  end.

(** [raw.split(";")] *)
Fixpoint split (sep : char) (s : text) : list text :=
  match s with
  | [] => [[]]
  | c :: s' =>
      if N.eqb c sep then [] :: split sep s'
      else
        match split sep s' with
        | p :: ps => (c :: p) :: ps
        | [] => [[c]]
        end
  end.

Definition digit_val (c : char) : option N :=
  if (48 <=? c)%N && (c <=? 57)%N then Some (c - 48)%N else None.

Fixpoint int_acc (acc : N) (s : text) : option N :=
  match s with
  | [] => Some acc
  | c :: s' =>
      match digit_val c with
      | Some d => int_acc (10 * acc + d)%N s'
      | None => None
      end
  end.

(** The interpreter's limit on the number of digits of a decimal string that
    [int] converts, [sys.get_int_max_str_digits()], at its default. *)
Definition int_max_str_digits : N := 4300.

(** A piece [int] converts: it has no more digits than the limit (leading
    zeros count). *)
Definition within_digit_limit (p : text) : bool :=
  (N.of_nat (length p) <=? int_max_str_digits)%N.

(** [int(p)] on the strings [ice_fix] passes to it; [None] is [ValueError],
    raised for the empty string, for a character that is no digit and for a
    string of more digits than the limit.  The pieces of a matched group
    contain ASCII digits only, so the other spellings [int] accepts (sign,
    blanks, underscores) never reach it. *)
Definition py_int (p : text) : option N :=
  match p with
  | [] => None
  | _ => if within_digit_limit p then int_acc 0 p else None
  end.

(** [[int(p) for p in pieces if p]] under [try]/[except ValueError]. *)
Fixpoint parse_params (pieces : list text) : option (list N) :=
  match pieces with
  | [] => Some []
  | [] :: ps => parse_params ps
  | p :: ps =>
      match py_int p with
      | Some n => option_map (cons n) (parse_params ps)
      | None => None
      end
  end.

(** The parameter list of a sequence as the specification reads it: the
    numbers written between the semicolons, however long they are. *)
Fixpoint spec_params (pieces : list text) : option (list N) :=
  match pieces with
  | [] => Some []
  | [] :: ps => spec_params ps
  | p :: ps =>
      match int_acc 0 p with
      | Some n => option_map (cons n) (spec_params ps)
      | None => None
      end
  end.

Fixpoint uint_text (d : Decimal.uint) : text :=
  match d with
  | Decimal.Nil => []
  | Decimal.D0 d' => 48%N :: uint_text d'
  | Decimal.D1 d' => 49%N :: uint_text d'
  | Decimal.D2 d' => 50%N :: uint_text d'
  | Decimal.D3 d' => 51%N :: uint_text d'
  | Decimal.D4 d' => 52%N :: uint_text d'
  | Decimal.D5 d' => 53%N :: uint_text d'
  | Decimal.D6 d' => 54%N :: uint_text d'
  | Decimal.D7 d' => 55%N :: uint_text d'
  | Decimal.D8 d' => 56%N :: uint_text d'
  | Decimal.D9 d' => 57%N :: uint_text d'
  end.

(** [str(n)] for a non-negative integer of at most [int_max_str_digits]
    digits; beyond that [str] raises.  Inside [repl] it is applied to
    numbers [int] returned and to 100..107 only, which stay within the
    limit ([repl_str_within_limit]). *)
Definition py_str (n : N) : text := uint_text (N.to_uint n).

(** [sep.join(parts)] *)
Fixpoint join (sep : text) (parts : list text) : text :=
  match parts with
  | [] => []
  | [p] => p
  | p :: ps => p ++ sep ++ join sep ps
  end.

(** The [for p in params] loop of [repl], lines 52-57. *)
Fixpoint ice_out (params : list N) : list N :=
  match params with
  | [] => []
  | p :: ps =>
      if (40 <=? p)%N && (p <=? 47)%N then (p + 60)%N :: ice_out ps
      else if negb (N.eqb p 5) then p :: ice_out ps
      else ice_out ps
  end.

(** The rewriting of one parameter, in the words of the specification:
    a background colour 40..47 becomes the bright one, blink disappears,
    anything else stays. *)
Definition spec_param (p : N) : list N :=
  if (40 <=? p)%N && (p <=? 47)%N then [(p + 60)%N]
  else if N.eqb p 5 then []
  else [p].

(** [match.group(0)] for a match whose group 1 is [raw]. *)
Definition sgr_seq (raw : text) : text := ESC :: chr "[" :: raw ++ [chr "m"].

(** The replacement callback [repl], lines 37-59, as a function of group 1. *)
Definition repl (raw : text) : text :=
  match raw with
  | [] => sgr_seq raw
  | _ =>
      match parse_params (split (chr ";") raw) with
      | None => sgr_seq raw
      | Some params =>
          if negb (existsb (N.eqb 5) params) then sgr_seq raw
          else ESC :: chr "[" :: join [chr ";"] (map py_str (ice_out params))
                 ++ [chr "m"]
      end
  end.

(** [_sgr.sub(repl, text)]: leftmost non-overlapping matches, left to right;
    a position without a match copies one character. *)
Equations? ice_fix (s : text) : text by wf (length s) lt :=
  ice_fix [] := [];
  ice_fix (c :: s') with sgr_match (c :: s') => {
    | Some n := repl (firstn n (skipn 1 s')) ++ ice_fix (skipn (n + 2) s');
    | None := c :: ice_fix s' }.
Proof.
  all: simpl; try lia.
  rewrite length_skipn. lia.
Qed.

(** ** sauce.py *)

Definition bytes := list byte.

(** A bytes literal. *)
Definition b (s : string) : bytes := list_byte_of_string s.

Fixpoint bytes_eqb (x y : bytes) : bool :=
  match x, y with
  | [], [] => true
  | a :: x', c :: y' => Byte.eqb a c && bytes_eqb x' y'
  | _, _ => false
  end.

(** [data[-128:-123]], evaluated by the code only when [len(data) >= 128]. *)
Definition magic_window (data : bytes) : bytes :=
  slice data (length data - 128) (length data - 123).

Definition has_sauce (data : bytes) : bool :=
  if length data <? 128 then false
  else bytes_eqb (magic_window data) (b "SAUCE").

Fixpoint is_prefix (p s : bytes) : bool :=
  match p, s with
  | [], _ => true
  | a :: p', c :: s' => Byte.eqb a c && is_prefix p' s'
  | _ :: _, [] => false
  end.

(** [data.rfind(sub)]: the highest index at which [sub] occurs; [None]
    stands for Python's [-1]. *)
Fixpoint rfind (sub data : bytes) : option nat :=
  match data with
  | [] => if is_prefix sub [] then Some 0 else None
  | _ :: data' =>
      match rfind sub data' with
      | Some k => Some (S k)
      | None => if is_prefix sub data then Some 0 else None
      end
  end.

Definition strip_sauce_tail (data : bytes) : bytes :=
  if (128 <=? length data) && bytes_eqb (magic_window data) (b "SAUCE") then
    firstn (length data - 128) data
  else
    match rfind (b "SAUCE") data with
    | Some last =>
        if length data - last <=? 512 then firstn last data else data
    | None => data
    end.

(** Exceptions [append_minimal_sauce] can raise. *)
Inductive exn := OverflowError | ValueError.

Definition result (A : Type) : Type := (A + exn)%type.

Definition bind {A B} (r : result A) (k : A -> result B) : result B :=
  match r with
  | inl a => k a
  | inr e => inr e
  end.

Notation "x <- r ;; k" := (bind r (fun x => k))
  (at level 61, r at next level, right associativity).

Definition byte_of_N (n : N) : byte :=
  match Byte.of_N n with
  | Some x => x
  | None => x00
  end.

Fixpoint le_bytes (width : nat) (n : N) : bytes :=
  match width with
  | 0 => []
  | S w => byte_of_N (n mod 256)%N :: le_bytes w (n / 256)%N
  end.

(** [n.to_bytes(width, byteorder="little")], unsigned. *)
Definition to_bytes (n : Z) (width : nat) : result bytes :=
  if (n <? 0)%Z then inr OverflowError
  else if (n <? 2 ^ (8 * Z.of_nat width))%Z then inl (le_bytes width (Z.to_N n))
  else inr OverflowError.

(** [buf[lo:hi] = v] on a bytearray, [lo <= hi <= len(buf)]. *)
Definition set_slice (buf : bytes) (lo hi : nat) (v : bytes) : bytes :=
  firstn lo buf ++ v ++ skipn hi buf.

(** [buf[k] = n] on a bytearray, [k < len(buf)]. *)
Definition set_item (buf : bytes) (k : nat) (n : Z) : result bytes :=
  if (0 <=? n)%Z && (n <? 256)%Z then
    inl (firstn k buf ++ byte_of_N (Z.to_N n) :: skipn (S k) buf)
  else inr ValueError.

(** [s.ljust(width, fill)] *)
Definition ljust (width : nat) (fill : byte) (s : bytes) : bytes :=
  s ++ repeat fill (width - length s).

(** [s.encode("ascii", errors="replace")], one character. *)
Definition ascii_encode (c : char) : byte :=
  if (c <? 128)%N then byte_of_N c else byte_of_N 63.

(** The keyword arguments of [append_minimal_sauce]. *)
Record sauce_fields := {
  title : text;
  author : text;
  group : text;
  yyyymmdd : option text;
  datatype : Z;
  filetype : Z;
  tinfo1 : option Z;
  tinfo2 : option Z
}.

Section Append.

(** [encode("cp437", errors="replace")] on one character: the charmap
    codec emits exactly one byte per code point, [?] where the code point
    has no mapping.  The table itself belongs to the interpreter. *)
Variable cp437_encode : char -> byte.

(** [datetime.now().strftime("%Y%m%d")] *)
Variable today : text.

Definition append_minimal_sauce (data : bytes) (f : sauce_fields)
  : result bytes :=
  let date := match yyyymmdd f with None => today | Some d => d end in
  let sauce := repeat x00 128 in
  let sauce := set_slice sauce 0 5 (b "SAUCE") in
  let sauce := set_slice sauce 5 7 (b "00") in
  let sauce :=
    set_slice sauce 7 42
      (ljust 35 x20 (map cp437_encode (firstn 35 (title f)))) in
  let sauce :=
    set_slice sauce 42 62
      (ljust 20 x20 (map cp437_encode (firstn 20 (author f)))) in
  let sauce :=
    set_slice sauce 62 82
      (ljust 20 x20 (map cp437_encode (firstn 20 (group f)))) in
  let sauce :=
    set_slice sauce 82 90 (ljust 8 x20 (map ascii_encode (firstn 8 date))) in
  size <- to_bytes (Z.of_nat (length data)) 4 ;;
  let sauce := set_slice sauce 90 94 size in
  sauce <- set_item sauce 94 (datatype f) ;;
  sauce <- set_item sauce 95 (filetype f) ;;
  sauce <- match tinfo1 f with
           | Some n => v <- to_bytes n 2 ;; inl (set_slice sauce 96 98 v)
           | None => inl sauce
           end ;;
  sauce <- match tinfo2 f with
           | Some n => v <- to_bytes n 2 ;; inl (set_slice sauce 98 100 v)
           | None => inl sauce
           end ;;
  inl (data ++ sauce).

End Append.

(** A well-formed record: 128 bytes that start with the magic. *)
Definition is_block (s : bytes) : Prop :=
  length s = 128 /\ firstn 5 s = b "SAUCE".

(** Fields for the examples: the defaults of the signature, with a title. *)
Definition sample_fields (t1 : option Z) : sauce_fields :=
  {| title := str "Test"; author := str "AI"; group := [];
     yyyymmdd := None; datatype := 1; filetype := 1;
     tinfo1 := t1; tinfo2 := None |}.

(** ** analyze.py: the dimension estimate of analyze_bytes *)

(** The loop variables of lines 72-100. *)
Record scan_state := {
  lines : list nat;
  current_col : nat;
  max_col : nat;
  pos : nat
}.

(** One iteration of [while i < len(text)], entered with [i < len(text)]. *)
Definition scan_step (t : text) (s : scan_state) : scan_state :=
  let i := pos s in
  if N.eqb (get t i) 10 then
    {| lines := lines s ++ [max_col s];
       current_col := 0;
       max_col := Nat.max (max_col s) (current_col s);
       pos := i + 1 |}
  else if N.eqb (get t i) 13 then
    {| lines := lines s; current_col := 0; max_col := max_col s; pos := i + 1 |}
  else if N.eqb (get t i) ESC then
    let j := i + 1 in
    let j :=
      if (j <? length t) && N.eqb (get t j) (chr "[") then
        let j := j + 1 in
        let j := j + span_params (skipn j t) in
        if j <? length t then j + 1 else j
      else j in
    {| lines := lines s; current_col := current_col s; max_col := max_col s;
       pos := j |}
  else
    {| lines := lines s; current_col := current_col s + 1;
       max_col := max_col s; pos := i + 1 |}.

(** The loop, for at most [fuel] iterations. *)
Fixpoint scan (fuel : nat) (t : text) (s : scan_state) : scan_state :=
  match fuel with
  | 0 => s
  | S fuel' => if pos s <? length t then scan fuel' t (scan_step t s) else s
  end.

(** The dimension fields of [Analysis]. *)
Record dimensions := {
  est_cols : nat;
  est_rows : nat;
  suggested_width : nat;
  suggested_height : nat
}.

(** Lines 72-117 on the decoded text.  Every iteration advances the index,
    so [len(text)] iterations exhaust the loop ([scan_exhausts] below).  The
    two regular-expression flags of [Analysis] are not part of the
    estimate. *)
Definition analyze_text (t : text) : dimensions :=
  let s :=
    scan (length t) t
      {| lines := []; current_col := 0; max_col := 0; pos := 0 |} in
  let lines := lines s ++ [max_col s] in
  let est_rows := length lines in
  let est_cols := match lines with [] => 0 | _ => fold_right Nat.max 0 lines end in
  let suggested_width := if 100 <? est_cols then 132 else 80 in
  let suggested_height :=
    if (25 <? est_rows) && (est_rows <=? 50) then 50
    else if 50 <? est_rows then Nat.max 25 est_rows
    else 25 in
  {| est_cols := est_cols; est_rows := est_rows;
     suggested_width := suggested_width;
     suggested_height := suggested_height |}.

Section Analyze.

(** [bytes.decode("cp437", errors="replace")] on one byte; CP437 maps
    every byte, and bytes below 128 to the ASCII code point. *)
Variable cp437_decode : byte -> char.

(** [analyze_bytes]: the SAUCE flag and the dimensions. *)
Definition analyze_bytes (data : bytes) : bool * dimensions :=
  let sauce_present := has_sauce data in
  let clean := strip_sauce_tail data in
  (sauce_present, analyze_text (map cp437_decode clean)).

End Analyze.

(** ** The scan of analyze_bytes on text without escape *)

(** The scan of text without escape, as a recursion over the characters
    still to come: what it makes of lines, column and maximum. *)
Fixpoint plain_scan (rest : text) (ls : list nat) (cur mx : nat)
  : list nat * nat * nat :=
  match rest with
  | [] => (ls, cur, mx)
  | c :: rest' =>
      if N.eqb c 10 then plain_scan rest' (ls ++ [mx]) 0 (Nat.max mx cur)
      else if N.eqb c 13 then plain_scan rest' ls 0 mx
      else plain_scan rest' ls (cur + 1) mx
  end.

(** Whether every newline of [t] stands at column 0: at the very start,
    right after a carriage return, or right after another newline.
    [col0] tells whether the text starts at column 0. *)
Fixpoint newlines_at_col0 (col0 : bool) (t : text) : bool :=
  match t with
  | [] => true
  | c :: t' =>
      if N.eqb c 10 then col0 && newlines_at_col0 true t'
      else newlines_at_col0 (N.eqb c 13) t'
  end.

(** ** Shapes of tokens and of input the tokenizer gets through *)

(** The tag of a CSI sequence with parameter characters [ps] and final
    byte [final], as the docstring of [tokenize_ansi] lists the classes. *)
Inductive csi_tag (sm : bool) (ps : text) (final : char) : token_type -> Prop :=
| tag_sgr : final = chr "m" -> csi_tag sm ps final Tsgr
| tag_cup : final = chr "H" \/ final = chr "f" -> csi_tag sm ps final Tcup
| tag_cursor_move :
    final = chr "A" \/ final = chr "B" \/ final = chr "C" \/ final = chr "D" ->
    csi_tag sm ps final Tcursor_move
| tag_ed : final = chr "J" -> csi_tag sm ps final Ted
| tag_el : final = chr "K" -> csi_tag sm ps final Tel
| tag_dec :
    final = chr "h" \/ final = chr "l" -> In (chr "?") ps ->
    csi_tag sm ps final Tdec
| tag_cursor_save :
    final = chr "s" \/ final = chr "u" -> csi_tag sm ps final Tcursor_save
| tag_unknown :
    in_str final "mHfABCDJKsu" = false ->
    (in_str final "hl" = true -> ~ In (chr "?") ps) ->
    csi_tag sm ps final (if sm then Tdrop else Tother).

(** The inside of an OSC sequence: no bell and no escape-backslash pair. *)
Fixpoint osc_body (s : text) : bool :=
  match s with
  | [] => true
  | c :: s' =>
      negb (N.eqb c BEL)
      && negb (N.eqb c ESC
               && match s' with
                  | c' :: _ => N.eqb c' (chr "\")
                  | [] => false
                  end)
      && osc_body s'
  end.

(** What a token can look like: a non-empty run without escape tagged
    [text]; a CSI sequence tagged by its final byte; in safe mode, an OSC
    sequence tagged [drop]: escape, closing bracket, a body without bell and
    without escape-backslash pair, and then the bell, the escape-backslash
    pair, or nothing. *)
Definition token_shape (sm : bool) (tk : token) : Prop :=
  (fst tk = Ttext /\ snd tk <> [] /\ Forall (fun c => c <> ESC) (snd tk))
  \/ (exists ps final,
         snd tk = csi_seq ps final /\ Forall param_char ps
         /\ in_str final "0123456789;?" = false
         /\ csi_tag sm ps final (fst tk))
  \/ (sm = true /\ fst tk = Tdrop
      /\ exists body term,
           snd tk = ESC :: chr "]" :: body ++ term
           /\ osc_body body = true
           /\ (term = [BEL] \/ term = [ESC; chr "\"] \/ term = [])).

(** Text in which every escape opens a complete CSI sequence or, in safe
    mode, an OSC sequence (terminated, or running to the end). *)
Inductive complete (sm : bool) : text -> Prop :=
| complete_nil : complete sm []
| complete_plain c rest :
    c <> ESC -> complete sm rest -> complete sm (c :: rest)
| complete_csi ps final rest :
    Forall param_char ps ->
    in_str final "0123456789;?" = false ->
    complete sm rest ->
    complete sm (csi_seq ps final ++ rest)
| complete_osc body term rest :
    sm = true -> osc_body body = true ->
    term = [BEL] \/ term = [ESC; chr "\"] ->
    complete sm rest ->
    complete sm (ESC :: chr "]" :: body ++ term ++ rest)
| complete_osc_open body :
    sm = true -> osc_body body = true ->
    complete sm (ESC :: chr "]" :: body).

(** ** builder.py: AnsiBuilder *)


(** [**sauce_kwargs]: which keyword arguments of [append_minimal_sauce] the
    caller passed ([None] is a key that is absent; the two hints and the
    date may be passed as Python's [None], the inner option). *)
Record sauce_kwargs := {
  kw_title : option text;
  kw_author : option text;
  kw_group : option text;
  kw_yyyymmdd : option (option text);
  kw_datatype : option Z;
  kw_filetype : option Z;
  kw_tinfo1 : option (option Z);
  kw_tinfo2 : option (option Z)
}.

Definition no_kwargs : sauce_kwargs :=
  {| kw_title := None; kw_author := None; kw_group := None;
     kw_yyyymmdd := None; kw_datatype := None; kw_filetype := None;
     kw_tinfo1 := None; kw_tinfo2 := None |}.

Definition or_default {A} (d : A) (o : option A) : A :=
  match o with
  | Some x => x
  | None => d
  end.

(** ** The SAUCE record, field by field *)

(** The 128 bytes of a record, laid out as the comments of
    [append_minimal_sauce] name them: ID, Version, Title, Author, Group,
    Date, FileSize, DataType, FileType, TInfo1, TInfo2, and 28 bytes left
    zero. *)
Definition sauce_record (cp437_encode : char -> byte) (date : text)
  (size : N) (f : sauce_fields) : bytes :=
  b "SAUCE" ++ b "00"
    ++ ljust 35 x20 (map cp437_encode (firstn 35 (title f)))
    ++ ljust 20 x20 (map cp437_encode (firstn 20 (author f)))
    ++ ljust 20 x20 (map cp437_encode (firstn 20 (group f)))
    ++ ljust 8 x20 (map ascii_encode (firstn 8 date))
    ++ le_bytes 4 size
    ++ [byte_of_N (Z.to_N (datatype f))]
    ++ [byte_of_N (Z.to_N (filetype f))]
    ++ le_bytes 2 (Z.to_N (or_default 0%Z (tinfo1 f)))
    ++ le_bytes 2 (Z.to_N (or_default 0%Z (tinfo2 f)))
    ++ repeat x00 28.

(** The number a little-endian byte string denotes. *)
Fixpoint le_value (bs : bytes) : N :=
  match bs with
  | [] => 0%N
  | x :: bs' => (Byte.to_N x + 256 * le_value bs')%N
  end.

(** A numeric field fits [width] bytes. *)
Definition fits (width : nat) (n : Z) : Prop :=
  (0 <= n < 2 ^ (8 * Z.of_nat width))%Z.

Definition field_fits (width : nat) (field : option Z) : Prop :=
  match field with
  | Some n => fits width n
  | None => True
  end.

(** [append_minimal_sauce(data, **kw)]: absent keys take the defaults of
    the signature. *)
Definition fields_of_kwargs (kw : sauce_kwargs) : sauce_fields :=
  {| title := or_default [] (kw_title kw);
     author := or_default [] (kw_author kw);
     group := or_default [] (kw_group kw);
     yyyymmdd := or_default None (kw_yyyymmdd kw);
     datatype := or_default 1%Z (kw_datatype kw);
     filetype := or_default 1%Z (kw_filetype kw);
     tinfo1 := or_default None (kw_tinfo1 kw);
     tinfo2 := or_default None (kw_tinfo2 kw) |}.

Module AnsiBuilder.

(** The attributes of the object.  Every method returns [self] after
    appending to [buf]; here it returns the updated builder. *)
Record t := {
  width : Z;
  height : Z;
  buf : list (list char)
}.

(** [__init__] *)
Definition init (w h : Z) : t := {| width := w; height := h; buf := [] |}.

(** [self.buf.append(s)] *)
Definition append (s : list char) (b : t) : t :=
  {| width := width b; height := height b; buf := buf b ++ [s] |}.



Definition clear (b : t) : t := append (ESC :: str "[2J") b.







Definition text (s : list char) (b : t) : t := append s b.



Definition to_text (b : t) : list char := concat (buf b).

(** [to_bytes]; [encode] is [str.encode(codec, errors="replace")] for the
    codec chosen, [cp437_encode] and [today] are what
    [append_minimal_sauce] needs. *)
Definition to_bytes (encode : list char -> bytes)
  (cp437_encode : char -> byte) (today : list char)
  (add_sauce : bool) (kw : sauce_kwargs) (b : t) : result bytes :=
  let data := encode (to_text b) in
  if add_sauce then
    let kw1 :=
      match kw_tinfo1 kw with
      | None =>
          {| kw_title := kw_title kw; kw_author := kw_author kw;
             kw_group := kw_group kw; kw_yyyymmdd := kw_yyyymmdd kw;
             kw_datatype := kw_datatype kw; kw_filetype := kw_filetype kw;
             kw_tinfo1 := Some (Some (width b)); kw_tinfo2 := kw_tinfo2 kw |}
      | Some _ => kw
      end in
    let kw2 :=
      match kw_tinfo2 kw1 with
      | None =>
          {| kw_title := kw_title kw1; kw_author := kw_author kw1;
             kw_group := kw_group kw1; kw_yyyymmdd := kw_yyyymmdd kw1;
             kw_datatype := kw_datatype kw1; kw_filetype := kw_filetype kw1;
             kw_tinfo1 := kw_tinfo1 kw1; kw_tinfo2 := Some (Some (height b)) |}
      | Some _ => kw1
      end in
    append_minimal_sauce cp437_encode today data (fields_of_kwargs kw2)
  else inl data.




End AnsiBuilder.



(** ** render.py *)

(** The keyword arguments of [render_bytes] that steer what is written. *)
Record render_options := {
  ice_mode : string;
  use_alt_screen : bool;
  disable_wrap : bool;
  hide_cursor : bool;
  clear_first : bool;
  safe_mode : bool
}.

(** What [_enter_alt_screen(out)] and [_exit_alt_screen(out)] write. *)
Definition _enter_alt_screen : text :=
  ESC :: str "[?1049h" ++ ESC :: str "[?7l" ++ ESC :: str "[?25l"
    ++ ESC :: str "[2J" ++ ESC :: str "[H".

Definition _exit_alt_screen : text :=
  ESC :: str "[0m" ++ ESC :: str "[?25h" ++ ESC :: str "[?7h"
    ++ ESC :: str "[?1049l".

(** [render_bytes]: the strings passed to [sys.stdout.write], in order.
    [decode] is [bytes.decode(codec, errors="replace")] for the codec chosen.
    The result is [None] when [filter_safe] does not return within [fuel];
    nothing has been written by then.  Writes are taken not to raise, so the
    [finally] block runs after the art; the console fix-up on Windows writes
    nothing and is left out. *)
Definition render_bytes (decode : bytes -> text) (fuel : nat)
  (data : bytes) (o : render_options) : option (list text) :=
  let raw := strip_sauce_tail data in
  let t := decode raw in
  let t :=
    if String.eqb (ice_mode o) "auto" || String.eqb (ice_mode o) "on"
    then ice_fix t else t in
  match (if safe_mode o then filter_safe fuel t else Some t) with
  | None => None
  | Some t =>
      Some
        ((if use_alt_screen o then [_enter_alt_screen]
          else
            (if disable_wrap o then [ESC :: str "[?7l"] else [])
              ++ (if hide_cursor o then [ESC :: str "[?25l"] else [])
              ++ (if clear_first o then [ESC :: str "[2J" ++ ESC :: str "[H"]
                  else []))
           ++ [t]
           ++ (if use_alt_screen o then [_exit_alt_screen]
               else
                 [ESC :: str "[0m"]
                   ++ (if hide_cursor o then [ESC :: str "[?25h"] else [])
                   ++ (if disable_wrap o then [ESC :: str "[?7h"] else [])))
  end.

(** * Properties *)

(** ** Slices and indexing *)

Lemma skipn_get (t : text) (i : nat) :
  i < length t -> skipn i t = get t i :: skipn (S i) t.
Proof.
  revert i. induction t as [|c t IH]; intros i Hi; simpl in Hi.
  - lia.
  - destruct i as [|i]; [reflexivity|].
    simpl. apply IH. lia.
Qed.

Lemma slice_same {A} (s : list A) (a : nat) : slice s a a = [].
Proof. unfold slice. rewrite Nat.sub_diag. reflexivity. Qed.

Lemma slice_to_end {A} (s : list A) (a : nat) : slice s a (length s) = skipn a s.
Proof.
  unfold slice. apply firstn_all2. rewrite length_skipn. lia.
Qed.

Lemma firstn_plus {A} (a c : nat) (s : list A) :
  firstn (a + c) s = firstn a s ++ firstn c (skipn a s).
Proof.
  revert s. induction a as [|a IH]; intros s; simpl.
  - reflexivity.
  - destruct s as [|x s]; simpl.
    + rewrite firstn_nil. reflexivity.
    + rewrite IH. reflexivity.
Qed.

Lemma slice_app {A} (s : list A) (a m c : nat) :
  a <= m -> m <= c -> slice s a m ++ slice s m c = slice s a c.
Proof.
  intros Ham Hmc. unfold slice.
  replace (c - a) with ((m - a) + (c - m)) by lia.
  rewrite firstn_plus, skipn_skipn.
  replace (m - a + a) with m by lia.
  reflexivity.
Qed.

(** ** tokenize_ansi: the search for the next escape *)

Lemma index_of_bound (c : char) (s : text) (k : nat) :
  index_of c s = Some k -> k < length s.
Proof.
  revert k. induction s as [|x s IH]; intros k H; simpl in *.
  - discriminate.
  - destruct (N.eqb x c).
    + inversion H. lia.
    + destruct (index_of c s) as [k'|]; [|discriminate].
      inversion H. specialize (IH k' eq_refl). lia.
Qed.

Lemma find_bounds (c : char) (t : text) (i n : nat) :
  find c t i = Some n -> i <= n /\ n < i + length (skipn i t).
Proof.
  unfold find. intros H.
  destruct (index_of c (skipn i t)) as [k|] eqn:E; [|discriminate].
  inversion H. apply index_of_bound in E. lia.
Qed.

(** [text.find(c, i)] answers [i] itself when [text[i]] is [c]. *)
Lemma find_here (c : char) (t : text) (i : nat) :
  i < length t -> get t i = c -> find c t i = Some i.
Proof.
  intros Hi Hc. unfold find.
  rewrite (skipn_get t i Hi), Hc. simpl.
  rewrite N.eqb_refl. simpl. f_equal. lia.
Qed.

(** The "regular text" tail entered at an escape yields nothing and leaves
    the index where it was. *)
Lemma regular_text_at_escape (t : text) (i : nat) :
  i < length t -> get t i = ESC -> regular_text t i = ([], Next i).
Proof.
  intros Hi He. unfold regular_text.
  rewrite (find_here ESC t i Hi He), Nat.ltb_irrefl. reflexivity.
Qed.

(** An iteration that yields nothing and keeps the index repeats forever. *)
Lemma run_stuck (t : text) (sm : bool) (i : nat) :
  i < length t -> loop_body t sm i = ([], Next i) ->
  forall fuel, run fuel t sm i = ([], Next i).
Proof.
  intros Hi Hb fuel. induction fuel as [|fuel IH]; simpl.
  - reflexivity.
  - apply Nat.ltb_lt in Hi. rewrite Hi, Hb, IH. reflexivity.
Qed.

(** The iteration at an escape that opens neither a complete CSI sequence
    nor (in safe mode) an OSC sequence: nothing is yielded and the index
    does not move. *)
Lemma loop_body_stray_escape (t : text) (sm : bool) (i : nat) :
  i < length t -> get t i = ESC ->
  (i + 1 = length t
   \/ (get t (i + 1) <> chr "[" /\ get t (i + 1) <> chr "]")
   \/ (get t (i + 1) = chr "]" /\ sm = false)
   \/ (get t (i + 1) = chr "["
       /\ length t <= i + 2 + span_params (skipn (i + 2) t))) ->
  loop_body t sm i = ([], Next i).
Proof.
  intros Hi He Hcase. unfold loop_body.
  pose proof (regular_text_at_escape t i Hi He) as Hreg.
  destruct (N.eqb (get t i) ESC && (i + 1 <? length t)) eqn:E; [|exact Hreg].
  apply andb_prop in E as [_ Hlt]. apply Nat.ltb_lt in Hlt.
  destruct Hcase as [Hend | [[Hb Hc] | [[Hc Hsm] | [Hb Htrunc]]]].
  - lia.
  - apply N.eqb_neq in Hb, Hc. rewrite Hb, Hc. exact Hreg.
  - rewrite Hc, Hsm. simpl. exact Hreg.
  - rewrite Hb, N.eqb_refl.
    assert ((i + 2 + span_params (skipn (i + 2) t) <? length t) = false) as ->
        by (apply Nat.ltb_ge; lia).
    exact Hreg.
Qed.

(** ** tokenize_ansi: what the yielded tokens cover *)

Lemma osc_end_bound (s : text) (k : nat) :
  osc_end s = Some k -> k <= length s.
Proof.
  revert k. induction s as [|c s IH]; intros k H; simpl in H.
  - discriminate.
  - destruct (N.eqb c BEL).
    + inversion H. simpl. lia.
    + assert (option_map S (osc_end s) = Some k -> k <= length (c :: s)) as Hrec.
      { intros H'. destruct (osc_end s) as [k'|]; [|discriminate].
        inversion H'. specialize (IH k' eq_refl). simpl. lia. }
      destruct s as [|c' s'].
      * apply Hrec, H.
      * destruct (N.eqb c ESC && N.eqb c' _).
        -- inversion H. simpl. lia.
        -- apply Hrec, H.
Qed.

Lemma contents_one (ty : token_type) (s : text) : contents [(ty, s)] = s.
Proof. unfold contents. simpl. apply app_nil_r. Qed.

(** One iteration yields exactly the characters it steps over. *)
Lemma loop_body_contents (t : text) (sm : bool) (i : nat) out c :
  i < length t -> loop_body t sm i = (out, c) ->
  match c with
  | Stop => contents out = skipn i t
  | Next i' => i <= i' /\ i' <= length t /\ contents out = slice t i i'
  end.
Proof.
  intros Hi H.
  assert (regular_text t i = (out, c) ->
          match c with
          | Stop => contents out = skipn i t
          | Next i' => i <= i' /\ i' <= length t /\ contents out = slice t i i'
          end) as Hreg.
  { clear H. unfold regular_text. intros H.
    destruct (find ESC t i) as [n|] eqn:E.
    - apply find_bounds in E. rewrite length_skipn in E.
      inversion H; subst. repeat split; try lia.
      destruct (i <? n) eqn:L.
      + apply contents_one.
      + apply Nat.ltb_ge in L. assert (n = i) by lia. subst.
        rewrite slice_same. reflexivity.
    - inversion H; subst. apply contents_one. }
  unfold loop_body in H.
  destruct (N.eqb (get t i) ESC && (i + 1 <? length t)) eqn:E0;
    [|apply Hreg, H].
  apply andb_prop in E0 as [_ Hlt]. apply Nat.ltb_lt in Hlt.
  destruct (N.eqb (get t (i + 1)) (chr "[")).
  - destruct (i + 2 + span_params (skipn (i + 2) t) <? length t) eqn:L; [|apply Hreg, H].
    apply Nat.ltb_lt in L. inversion H; subst.
    repeat split; try lia. apply contents_one.
  - destruct (N.eqb (get t (i + 1)) (chr "]") && sm); [|apply Hreg, H].
    destruct (osc_end (skipn (i + 2) t)) as [k|] eqn:E.
    + apply osc_end_bound in E. rewrite length_skipn in E.
      inversion H; subst. repeat split; try lia. apply contents_one.
    + inversion H; subst. apply contents_one.
Qed.

Lemma contents_app (a c : list token) :
  contents (a ++ c) = contents a ++ contents c.
Proof. unfold contents. rewrite map_app. apply concat_app. Qed.

(** Whatever has been yielded after any number of iterations is the stretch
    of the input between the start index and the current one. *)
Lemma run_contents (fuel : nat) (t : text) (sm : bool) :
  forall i out c,
    i <= length t -> run fuel t sm i = (out, c) ->
    match c with
    | Stop => contents out = skipn i t
    | Next i' => i <= i' /\ i' <= length t /\ contents out = slice t i i'
    end.
Proof.
  induction fuel as [|fuel IH]; intros i out c Hi H; simpl in H.
  - inversion H; subst. rewrite slice_same. repeat split; trivial.
  - destruct (i <? length t) eqn:L.
    + apply Nat.ltb_lt in L.
      destruct (loop_body t sm i) as [o1 [i1|]] eqn:B;
        pose proof (loop_body_contents t sm i _ _ L B) as H1; simpl in H1.
      * destruct H1 as (H1a & H1b & H1c).
        destruct (run fuel t sm i1) as [o2 c2] eqn:R.
        inversion H; subst.
        specialize (IH i1 o2 c H1b R).
        rewrite contents_app, H1c.
        destruct c as [i2|].
        -- destruct IH as (I1 & I2 & I3). rewrite I3.
           repeat split; try lia. apply slice_app; lia.
        -- rewrite IH, <- !slice_to_end. apply slice_app; lia.
      * inversion H; subst. exact H1.
    + apply Nat.ltb_ge in L. inversion H; subst.
      rewrite skipn_all2 by lia. reflexivity.
Qed.

(** Reassembly holds for every run that exhausts the generator. *)
Lemma tokenize_ansi_contents (fuel : nat) (t : text) (sm : bool) toks :
  tokenize_ansi fuel t sm = Some toks -> contents toks = t.
Proof.
  unfold tokenize_ansi. intros H.
  destruct (run fuel t sm 0) as [out [i|]] eqn:R; [discriminate|].
  inversion H; subst.
  apply (run_contents fuel t sm 0 toks Stop (Nat.le_0_l _) R).
Qed.

(** A run that has exhausted the generator is not changed by more fuel. *)
Lemma run_more_fuel (fuel : nat) (t : text) (sm : bool) :
  forall i out k,
    run fuel t sm i = (out, Stop) -> run (fuel + k) t sm i = (out, Stop).
Proof.
  induction fuel as [|fuel IH]; intros i out k H; simpl in H; [discriminate|].
  cbn [Nat.add run]. destruct (i <? length t); [|exact H].
  destruct (loop_body t sm i) as [o1 [i1|]]; [|exact H].
  destruct (run fuel t sm i1) as [o2 c2] eqn:R.
  inversion H; subst. rewrite (IH i1 o2 k R). reflexivity.
Qed.

Lemma tokenize_ansi_more_fuel (fuel k : nat) (t : text) (sm : bool) toks :
  tokenize_ansi fuel t sm = Some toks ->
  tokenize_ansi (fuel + k) t sm = Some toks.
Proof.
  unfold tokenize_ansi. intros H.
  destruct (run fuel t sm 0) as [out [i|]] eqn:R; [discriminate|].
  rewrite (run_more_fuel fuel t sm 0 out k R). exact H.
Qed.

(** An iteration that goes back to the loop test has either advanced the
    index or yielded nothing and left the index where it was. *)
Lemma loop_body_progress (t : text) (sm : bool) (i : nat) out i' :
  i < length t -> loop_body t sm i = (out, Next i') ->
  i < i' \/ (i' = i /\ out = []).
Proof.
  intros Hi H.
  assert (regular_text t i = (out, Next i') -> i < i' \/ (i' = i /\ out = []))
    as Hreg.
  { unfold regular_text. intros R.
    destruct (find ESC t i) as [n|] eqn:E; [|discriminate].
    apply find_bounds in E. inversion R; subst.
    destruct (i <? i') eqn:L.
    - left. apply Nat.ltb_lt, L.
    - right. apply Nat.ltb_ge in L. split; [lia|reflexivity]. }
  unfold loop_body in H.
  destruct (N.eqb (get t i) ESC && (i + 1 <? length t)); [|apply Hreg, H].
  destruct (N.eqb (get t (i + 1)) (chr "[")).
  - destruct (_ <? length t); [|apply Hreg, H].
    inversion H; subst. left. lia.
  - destruct (N.eqb (get t (i + 1)) (chr "]") && sm); [|apply Hreg, H].
    destruct (osc_end (skipn (i + 2) t)); inversion H; subst. left. lia.
Qed.

(** The loop either leaves within [len(text) + 1] tests or reaches an index
    at which an iteration yields nothing and does not move: there is no
    other way for the tokenizer to run on. *)
Lemma run_finishes_or_sticks (n : nat) (t : text) (sm : bool) :
  forall i,
    length t - i <= n -> i <= length t ->
    (exists out, run (S n) t sm i = (out, Stop))
    \/ (exists fuel out j,
          run fuel t sm i = (out, Next j) /\ j < length t
          /\ loop_body t sm j = ([], Next j)).
Proof.
  induction n as [|n IH]; intros i Hn Hi.
  - left. exists []. cbn [run].
    assert ((i <? length t) = false) as -> by (apply Nat.ltb_ge; lia).
    reflexivity.
  - destruct (i <? length t) eqn:L.
    + apply Nat.ltb_lt in L.
      destruct (loop_body t sm i) as [o1 [i1|]] eqn:B.
      * pose proof (loop_body_contents t sm i _ _ L B) as (_ & Hle & _).
        destruct (loop_body_progress t sm i o1 i1 L B) as [Hlt|[-> ->]].
        -- destruct (IH i1) as [[out R]|(fuel & out & j & R & Hj & Hst)];
             [lia|lia| |].
           ++ left. exists (o1 ++ out).
              change (run (S (S n)) t sm i)
                with (if i <? length t
                      then match loop_body t sm i with
                           | (o, Stop) => (o, Stop)
                           | (o, Next i') =>
                               let (o', c) := run (S n) t sm i' in (o ++ o', c)
                           end
                      else ([], Stop)).
              apply Nat.ltb_lt in L. rewrite L, B, R. reflexivity.
           ++ right. exists (S fuel), (o1 ++ out), j. split; [|split; trivial].
              cbn [run]. apply Nat.ltb_lt in L. rewrite L, B, R. reflexivity.
        -- right. exists 0, [], i. split; [reflexivity|split; trivial].
      * left. exists o1.
        change (run (S (S n)) t sm i)
          with (if i <? length t
                then match loop_body t sm i with
                     | (o, Stop) => (o, Stop)
                     | (o, Next i') =>
                         let (o', c) := run (S n) t sm i' in (o ++ o', c)
                     end
                else ([], Stop)).
        apply Nat.ltb_lt in L. rewrite L, B. reflexivity.
    + left. exists []. cbn [run]. rewrite L. reflexivity.
Qed.

(** ** tokenize_ansi: inputs on which the generator never finishes *)

(** C1 (termination of tokenize, refuted on the code).  On an escape that
    does not open a complete sequence the loop index never advances: for
    every number of iterations the generator is still running, so
    [tokenize_ansi] yields no finite token sequence on these inputs. *)
Theorem tokenize_ansi_does_not_terminate :
  forall fuel sm,
    tokenize_ansi fuel stray_escape sm = None
    /\ tokenize_ansi fuel truncated_csi sm = None
    /\ tokenize_ansi fuel osc_title false = None.
Proof.
  intros fuel sm. unfold tokenize_ansi.
  rewrite (run_stuck stray_escape sm 0), (run_stuck truncated_csi sm 0),
    (run_stuck osc_title false 0);
    try (simpl; lia); try (destruct sm; reflexivity); try reflexivity.
  repeat split.
Qed.

(** C2 (reassembly, refuted on the code).  On [stray_escape] the tokens
    yielded after any number of iterations concatenate to the empty text,
    not to the input, and the generator is never exhausted; this holds for
    both values of [safe_mode]. *)
Theorem tokenize_ansi_reassembly_fails :
  forall fuel sm,
    exists out i,
      run fuel stray_escape sm 0 = (out, Next i)
      /\ contents out = []
      /\ contents out <> stray_escape.
Proof.
  intros fuel sm. exists [], 0.
  rewrite (run_stuck stray_escape sm 0);
    [|simpl; lia|destruct sm; reflexivity].
  repeat split. discriminate.
Qed.

Lemma span_params_all (ps : text) :
  Forall param_char ps -> span_params ps = length ps.
Proof.
  induction 1 as [|c ps Hc _ IH]; simpl; [reflexivity|].
  unfold param_char in Hc. rewrite Hc, IH. reflexivity.
Qed.

(** C3 (truncated CSI as one trailing token, refuted on the code).  When
    the loop stands at a CSI introducer followed by parameter characters up
    to the end of the input, it yields no token at all, whatever the number
    of iterations, and never finishes: the trailing token the claim
    describes is never produced. *)
Theorem tokenize_ansi_truncated_csi_yields_nothing
  (pre ps : text) (sm : bool) (fuel : nat) :
  Forall param_char ps ->
  run fuel (pre ++ ESC :: chr "[" :: ps) sm (length pre)
  = ([], Next (length pre)).
Proof.
  intros Hps.
  assert (length (pre ++ ESC :: chr "[" :: ps) = length pre + 2 + length ps)
    as Hlen by (rewrite length_app; simpl; lia).
  apply run_stuck; [lia|].
  apply loop_body_stray_escape; [lia| |].
  - unfold get. rewrite app_nth2, Nat.sub_diag by lia. reflexivity.
  - right. right. right. split.
    + unfold get. rewrite app_nth2 by lia.
      replace (length pre + 1 - length pre) with 1 by lia. reflexivity.
    + rewrite skipn_app, skipn_all2 by lia.
      replace (length pre + 2 - length pre) with 2 by lia.
      cbn [app skipn]. rewrite (span_params_all ps Hps). lia.
Qed.

Lemma tokenize_ansi_truncated_csi_yields_nothing_witness :
  run 7 truncated_csi true 0 = ([], Next 0)
  /\ tokenize_ansi 7 truncated_csi true = None.
Proof.
  assert (run 7 truncated_csi true 0 = ([], Next 0)) as H.
  { apply (tokenize_ansi_truncated_csi_yields_nothing [] (str "31") true 7).
    repeat constructor. }
  split; [exact H|]. unfold tokenize_ansi. rewrite H. reflexivity.
Defined.

(** ** filter_safe on the same inputs *)

(** C8 (filter_safe as the concatenation of the tokens not dropped; the
    concrete case holds, the general claim is refuted on the code).  The
    documented example evaluates as stated, but on [stray_escape]
    [filter_safe] returns nothing for any number of iterations, because the
    tokenizer it consumes never finishes. *)
Theorem filter_safe_example_and_divergence :
  filter_safe 4 (ESC :: str "[31mRed" ++ ESC :: str "]0;Title" ++ [BEL])
    = Some (ESC :: str "[31mRed")
  /\ forall fuel, filter_safe fuel stray_escape = None.
Proof.
  split; [reflexivity|].
  intros fuel. unfold filter_safe, tokenize_ansi.
  rewrite (run_stuck stray_escape true 0); reflexivity || (simpl; lia).
Qed.

(** C9 (idempotence of filter_safe, refuted on the code).  On
    [stray_escape] neither side of the equation has a value: the inner call
    never returns. *)
Theorem filter_safe_twice_diverges :
  forall fuel,
    filter_safe_twice fuel stray_escape = None
    /\ filter_safe fuel stray_escape = None.
Proof.
  intros fuel.
  assert (filter_safe fuel stray_escape = None) as H.
  { unfold filter_safe, tokenize_ansi.
    rewrite (run_stuck stray_escape true 0); reflexivity || (simpl; lia). }
  unfold filter_safe_twice. rewrite H. split; reflexivity.
Qed.

(** ** analyze_bytes: the dimension estimate *)

(** Every iteration of the scan advances the index. *)
Lemma scan_step_advances (t : text) (s : scan_state) :
  pos s < pos (scan_step t s).
Proof.
  unfold scan_step.
  destruct (N.eqb (get t (pos s)) 10); simpl; [lia|].
  destruct (N.eqb (get t (pos s)) 13); simpl; [lia|].
  destruct (N.eqb (get t (pos s)) ESC); simpl; [|lia].
  destruct ((pos s + 1 <? length t) && N.eqb (get t (pos s + 1)) _); [|lia].
  destruct (_ <? length t); lia.
Qed.

(** [len(text)] iterations exhaust the scan loop. *)
Lemma scan_exhausts (fuel : nat) (t : text) :
  forall s, length t <= pos s + fuel -> length t <= pos (scan fuel t s).
Proof.
  induction fuel as [|fuel IH]; intros s H; simpl.
  - lia.
  - destruct (pos s <? length t) eqn:L.
    + apply IH. pose proof (scan_step_advances t s). lia.
    + apply Nat.ltb_ge in L. exact L.
Qed.

(** Without a newline the scan records no line and leaves [max_col] alone:
    the column count is only folded into [max_col] in the newline branch. *)
Lemma scan_without_newline (fuel : nat) (t : text) :
  Forall (fun c => c <> 10%N) t ->
  forall s,
    lines (scan fuel t s) = lines s /\ max_col (scan fuel t s) = max_col s.
Proof.
  intros Hnl. induction fuel as [|fuel IH]; intros s; simpl.
  - split; reflexivity.
  - destruct (pos s <? length t) eqn:L; [|split; reflexivity].
    apply Nat.ltb_lt in L.
    destruct (IH (scan_step t s)) as [-> ->].
    unfold scan_step.
    assert (get t (pos s) <> 10%N) as Hc.
    { rewrite Forall_forall in Hnl. apply Hnl. apply nth_In, L. }
    apply N.eqb_neq in Hc. rewrite Hc.
    destruct (N.eqb (get t (pos s)) 13); [split; reflexivity|].
    destruct (N.eqb (get t (pos s)) ESC); split; reflexivity.
Qed.

(** What [analyze_bytes] reports on any text without a newline. *)
Lemma analyze_text_single_line (t : text) :
  Forall (fun c => c <> 10%N) t ->
  analyze_text t =
  {| est_cols := 0; est_rows := 1; suggested_width := 80;
     suggested_height := 25 |}.
Proof.
  intros Hnl. unfold analyze_text.
  destruct (scan_without_newline (length t) t Hnl
              {| lines := []; current_col := 0; max_col := 0; pos := 0 |})
    as [-> ->].
  reflexivity.
Qed.

(** A one-character text never reaches the maximum, whatever the character. *)
Lemma analyze_text_one_char (c : char) : est_cols (analyze_text [c]) = 0.
Proof.
  unfold analyze_text. cbn [length scan pos Nat.ltb Nat.leb].
  unfold scan_step. cbn [pos get nth lines max_col current_col].
  destruct (N.eqb c 10); [reflexivity|].
  destruct (N.eqb c 13); [reflexivity|].
  destruct (N.eqb c ESC); reflexivity.
Qed.

(** C4 (estimated columns of a single line, refuted on the code).  For the
    one-character text ["A"] the analyzer reports 0 columns, not 1: the
    column count of the last line is never folded into the maximum.  The
    same holds of [analyze_bytes] on the one-byte buffer, whatever the
    decoder makes of the byte. *)
Theorem analyze_single_char_reports_zero_columns :
  analyze_text (str "A") =
  {| est_cols := 0; est_rows := 1; suggested_width := 80;
     suggested_height := 25 |}
  /\ est_cols (analyze_text (str "A")) <> length (str "A")
  /\ forall cp437_decode : byte -> char,
      est_cols (snd (analyze_bytes cp437_decode (b "A"))) = 0.
Proof.
  split; [reflexivity|]. split; [simpl; discriminate|].
  intros dec. unfold analyze_bytes. cbn [snd].
  change (strip_sauce_tail (b "A")) with (b "A").
  apply analyze_text_one_char.
Qed.

(** ** SAUCE: detection and stripping *)

Lemma bytes_eqb_eq (x y : bytes) : bytes_eqb x y = true <-> x = y.
Proof.
  revert y. induction x as [|a x IH]; intros [|c y]; simpl;
    try (split; [discriminate|discriminate]); try (split; reflexivity).
  rewrite andb_true_iff, IH. split.
  - intros [H1 H2]. apply Byte.byte_dec_bl in H1. congruence.
  - intros H. inversion H; subst. split; [apply Byte.byte_dec_lb|]; reflexivity.
Qed.

Lemma bytes_eqb_neq (x y : bytes) : bytes_eqb x y = false <-> x <> y.
Proof.
  rewrite <- bytes_eqb_eq. destruct (bytes_eqb x y); split; congruence.
Qed.

(** [rfind] answers a position at which the needle occurs... *)
Lemma rfind_occurs (sub data : bytes) (k : nat) :
  rfind sub data = Some k ->
  k <= length data /\ is_prefix sub (skipn k data) = true.
Proof.
  revert k. induction data as [|x data IH]; intros k H; simpl in H.
  - destruct (is_prefix sub []) eqn:E; [|discriminate].
    inversion H; subst. simpl. split; [lia|exact E].
  - destruct (rfind sub data) as [k'|].
    + inversion H; subst. destruct (IH k' eq_refl) as [I1 I2].
      simpl. split; [lia|exact I2].
    + destruct (is_prefix sub (x :: data)) eqn:E; [|discriminate].
      inversion H; subst. simpl. split; [lia|exact E].
Qed.

(** ... after which it occurs nowhere ... *)
Lemma rfind_last (sub data : bytes) (k : nat) :
  rfind sub data = Some k ->
  forall j, k < j -> j <= length data -> is_prefix sub (skipn j data) = false.
Proof.
  revert k. induction data as [|x data IH]; intros k H j Hkj Hj; simpl in *.
  - lia.
  - destruct j as [|j]; [lia|]. simpl.
    destruct (rfind sub data) as [k'|] eqn:R.
    + inversion H; subst. apply (IH k' eq_refl); lia.
    + clear -R Hj. revert j Hj. induction data as [|y data IH']; intros j Hj.
      * simpl in *. assert (j = 0) by lia. subst. simpl.
        destruct (is_prefix sub []); [discriminate|reflexivity].
      * simpl in R. destruct (rfind sub data) eqn:R'; [discriminate|].
        destruct j as [|j]; simpl.
        -- destruct (is_prefix sub (y :: data)); [discriminate|reflexivity].
        -- apply IH'; [reflexivity|simpl in Hj; lia].
Qed.

(** ... and [None] when the needle occurs nowhere. *)
Lemma rfind_none (sub data : bytes) :
  rfind sub data = None ->
  forall j, j <= length data -> is_prefix sub (skipn j data) = false.
Proof.
  induction data as [|x data IH]; intros H j Hj; simpl in *.
  - assert (j = 0) by lia. subst. simpl.
    destruct (is_prefix sub []); [discriminate|reflexivity].
  - destruct (rfind sub data) eqn:R; [discriminate|].
    destruct j as [|j]; simpl.
    + destruct (is_prefix sub (x :: data)); [discriminate|reflexivity].
    + apply IH; [reflexivity|lia].
Qed.

Lemma has_sauce_false (data : bytes) :
  length data < 128 \/ magic_window data <> b "SAUCE" ->
  has_sauce data = false.
Proof.
  intros [H|H]; unfold has_sauce.
  - apply Nat.ltb_lt in H. rewrite H. reflexivity.
  - apply bytes_eqb_neq in H. rewrite H. destruct (_ <? _); reflexivity.
Qed.

(** Without the block in place, [strip_sauce_tail] is its fallback search. *)
Lemma strip_sauce_tail_fallback (data : bytes) :
  length data < 128 \/ magic_window data <> b "SAUCE" ->
  strip_sauce_tail data =
  match rfind (b "SAUCE") data with
  | Some last => if length data - last <=? 512 then firstn last data else data
  | None => data
  end.
Proof.
  intros H. unfold strip_sauce_tail.
  assert ((128 <=? length data) && bytes_eqb (magic_window data) (b "SAUCE")
          = false) as ->; [|reflexivity].
  destruct H as [H|H].
  - apply Nat.leb_gt in H. rewrite H. reflexivity.
  - apply bytes_eqb_neq in H. rewrite H. apply andb_false_r.
Qed.

(** The magic is five bytes long: an occurrence starts before the end. *)
Lemma magic_occurs_before_end (data : bytes) (k : nat) :
  is_prefix (b "SAUCE") (skipn k data) = true -> k < length data.
Proof.
  intros H. destruct (Nat.lt_ge_cases k (length data)) as [L|L]; [exact L|].
  rewrite skipn_all2 in H by lia. discriminate.
Qed.

(** C5, counterexample.  The five-byte buffer [SAUCE] is shorter than 128
    bytes, yet [strip_sauce_tail] empties it. *)
Lemma strip_sauce_tail_not_noop :
  ~ (forall data : bytes,
        length data < 128 \/ magic_window data <> b "SAUCE" ->
        has_sauce data = false /\ strip_sauce_tail data = data).
Proof.
  intros H. destruct (H (b "SAUCE")) as [_ H'].
  - left. simpl. lia.
  - discriminate H'.
Qed.

(** C5, amended.  For a buffer shorter than 128 bytes, or without the magic
    in the trailing window, [has_sauce] is false; [strip_sauce_tail] returns
    the buffer unchanged when the magic starts nowhere in the last 512
    bytes, and otherwise cuts the buffer at the last occurrence of the
    magic. *)
Theorem strip_sauce_tail_without_block (data : bytes) :
  length data < 128 \/ magic_window data <> b "SAUCE" ->
  has_sauce data = false
  /\ ((forall k, k <= length data -> length data - k <= 512 ->
         is_prefix (b "SAUCE") (skipn k data) = false) ->
      strip_sauce_tail data = data)
  /\ (forall k, k <= length data -> length data - k <= 512 ->
        is_prefix (b "SAUCE") (skipn k data) = true ->
        exists last,
          k <= last /\ last < length data
          /\ is_prefix (b "SAUCE") (skipn last data) = true
          /\ (forall j, last < j -> j <= length data ->
                is_prefix (b "SAUCE") (skipn j data) = false)
          /\ strip_sauce_tail data = firstn last data).
Proof.
  intros H. split; [apply has_sauce_false, H|].
  rewrite (strip_sauce_tail_fallback data H).
  destruct (rfind (b "SAUCE") data) as [last|] eqn:R.
  - destruct (rfind_occurs _ _ _ R) as [Hle Hocc].
    pose proof (rfind_last _ _ _ R) as Hlast.
    split.
    + intros Habs. destruct (length data - last <=? 512) eqn:L; [|reflexivity].
      apply Nat.leb_le in L. rewrite (Habs last Hle L) in Hocc. discriminate.
    + intros k Hk Hk512 Hocck.
      assert (k <= last) as Hkl.
      { destruct (Nat.le_gt_cases k last) as [G|G]; [exact G|].
        rewrite (Hlast k G Hk) in Hocck. discriminate. }
      exists last. repeat split; trivial.
      * apply magic_occurs_before_end, Hocc.
      * assert ((length data - last <=? 512) = true) as ->
            by (apply Nat.leb_le; lia).
        reflexivity.
  - pose proof (rfind_none _ _ R) as Hnone. split; [reflexivity|].
    intros k Hk _ Hocc. rewrite (Hnone k Hk) in Hocc. discriminate.
Qed.

Lemma strip_sauce_tail_without_block_witness :
  has_sauce (b "plain") = false
  /\ strip_sauce_tail (b "plain") = b "plain"
  /\ strip_sauce_tail (b "xxSAUCEyy") = b "xx".
Proof.
  assert (length (b "plain") < 128 \/ magic_window (b "plain") <> b "SAUCE")
    as H1 by (left; simpl; lia).
  assert (length (b "xxSAUCEyy") < 128
          \/ magic_window (b "xxSAUCEyy") <> b "SAUCE")
    as H2 by (left; simpl; lia).
  destruct (strip_sauce_tail_without_block (b "plain") H1) as (A & B & _).
  destruct (strip_sauce_tail_without_block (b "xxSAUCEyy") H2) as (_ & _ & C).
  split; [exact A|]. split.
  - apply B. intros k Hk _.
    do 6 (destruct k as [|k]; [reflexivity|]). simpl in Hk. lia.
  - destruct (C 2) as (last & L1 & L2 & L3 & L4 & L5);
      [simpl; lia|simpl; lia|reflexivity|].
    rewrite L5.
    assert (last = 2) as ->; [|reflexivity].
    simpl in L2.
    do 2 (destruct last as [|last]; [lia|]).
    destruct last as [|last]; [reflexivity|].
    do 6 (destruct last as [|last]; [discriminate L3|]). lia.
Defined.

(** ** SAUCE: building the record *)

Lemma set_slice_block (s v : bytes) (lo hi : nat) :
  is_block s -> 5 <= lo -> lo <= hi -> hi <= 128 -> length v = hi - lo ->
  is_block (set_slice s lo hi v).
Proof.
  intros [Hlen Hmagic] Hlo Hhi H128 Hv. unfold set_slice. split.
  - rewrite !length_app, length_firstn, length_skipn. lia.
  - rewrite firstn_app, length_firstn, firstn_firstn.
    replace (5 - Nat.min lo (length s)) with 0 by lia.
    replace (Nat.min 5 lo) with 5 by lia.
    rewrite Hmagic. simpl. reflexivity.
Qed.

Lemma set_item_block (s : bytes) (k : nat) (n : Z) :
  is_block s -> 5 <= k -> k < 128 -> (0 <= n < 256)%Z ->
  exists s', set_item s k n = inl s' /\ is_block s'.
Proof.
  intros Hs Hk Hk' Hn. unfold set_item.
  assert ((0 <=? n)%Z && (n <? 256)%Z = true) as ->.
  { apply andb_true_iff. split; [apply Z.leb_le|apply Z.ltb_lt]; lia. }
  eexists. split; [reflexivity|].
  apply (set_slice_block s [byte_of_N (Z.to_N n)] k (S k));
    [exact Hs|lia|lia|lia|cbn [length]; lia].
Qed.

Lemma le_bytes_length (width : nat) (n : N) : length (le_bytes width n) = width.
Proof.
  revert n. induction width as [|w IH]; intros n; simpl; [|rewrite IH];
    reflexivity.
Qed.

Lemma to_bytes_ok (n : Z) (width : nat) :
  (0 <= n < 2 ^ (8 * Z.of_nat width))%Z ->
  exists v, to_bytes n width = inl v /\ length v = width.
Proof.
  intros Hn. unfold to_bytes.
  assert ((n <? 0)%Z = false) as -> by (apply Z.ltb_ge; lia).
  assert ((n <? 2 ^ (8 * Z.of_nat width))%Z = true) as ->
      by (apply Z.ltb_lt; lia).
  eexists. split; [reflexivity|apply le_bytes_length].
Qed.

Lemma ljust_length (width : nat) (fill : byte) (s : bytes) :
  length s <= width -> length (ljust width fill s) = width.
Proof.
  intros H. unfold ljust. rewrite length_app, repeat_length. lia.
Qed.

Lemma encoded_field_length (enc : char -> byte) (width : nat) (s : text) :
  length (ljust width x20 (map enc (firstn width s))) = width.
Proof.
  apply ljust_length. rewrite length_map, length_firstn. lia.
Qed.

Lemma optional_field_block (s : bytes) (lo hi : nat) (field : option Z) :
  is_block s -> 5 <= lo -> hi = lo + 2 -> hi <= 128 ->
  match field with
  | Some n => (0 <= n < 65536)%Z
  | None => True
  end ->
  exists s',
    match field with
    | Some n => v <- to_bytes n 2 ;; inl (set_slice s lo hi v)
    | None => inl s
    end = inl s' /\ is_block s'.
Proof.
  intros Hs Hlo -> Hhi Hf. destruct field as [n|].
  - destruct (to_bytes_ok n 2) as (v & -> & Hv); [simpl; lia|].
    simpl. eexists. split; [reflexivity|].
    apply set_slice_block; trivial; lia.
  - exists s. split; [reflexivity|exact Hs].
Qed.

Lemma has_sauce_app_block (d blk : bytes) :
  is_block blk -> has_sauce (d ++ blk) = true.
Proof.
  intros [Hlen Hmagic]. unfold has_sauce, magic_window, slice.
  rewrite length_app, Hlen.
  assert ((length d + 128 <? 128) = false) as -> by (apply Nat.ltb_ge; lia).
  replace (length d + 128 - 128) with (length d + 0) by lia.
  replace (length d + 128 - 123 - (length d + 0)) with 5 by lia.
  rewrite skipn_app, Nat.add_0_r, skipn_all, Nat.sub_diag. cbn [skipn app].
  rewrite Hmagic. reflexivity.
Qed.

Lemma strip_sauce_tail_app_block (d blk : bytes) :
  is_block blk -> strip_sauce_tail (d ++ blk) = d.
Proof.
  intros Hb. pose proof (has_sauce_app_block d blk Hb) as Hs.
  destruct Hb as [Hlen _].
  unfold has_sauce in Hs. unfold strip_sauce_tail.
  rewrite length_app, Hlen in *.
  assert ((length d + 128 <? 128) = false) as E by (apply Nat.ltb_ge; lia).
  rewrite E in Hs. rewrite Hs.
  assert ((128 <=? length d + 128) = true) as -> by (apply Nat.leb_le; lia).
  simpl. replace (length d + 128 - 128) with (length d + 0) by lia.
  rewrite firstn_app_2. simpl. apply app_nil_r.
Qed.

Section AppendProperties.

Variable cp437_encode : char -> byte.
Variable today : text.

(** [append_minimal_sauce] raises exactly where a field does not fit the
    record; otherwise it appends a well-formed record. *)
Lemma append_minimal_sauce_block (d : bytes) (f : sauce_fields) :
  (Z.of_nat (length d) < 2 ^ 32)%Z ->
  (0 <= datatype f < 256)%Z ->
  (0 <= filetype f < 256)%Z ->
  match tinfo1 f with Some n => (0 <= n < 65536)%Z | None => True end ->
  match tinfo2 f with Some n => (0 <= n < 65536)%Z | None => True end ->
  exists blk,
    append_minimal_sauce cp437_encode today d f = inl (d ++ blk)
    /\ is_block blk.
Proof.
  intros Hsize Hdt Hft Ht1 Ht2. unfold append_minimal_sauce.
  set (s0 := set_slice (set_slice (repeat x00 128) 0 5 (b "SAUCE")) 5 7
               (b "00")).
  assert (is_block s0) as H0 by (split; reflexivity).
  set (s1 := set_slice s0 7 42 _).
  assert (is_block s1) as H1
      by (apply set_slice_block; trivial; try lia;
          apply encoded_field_length).
  set (s2 := set_slice s1 42 62 _).
  assert (is_block s2) as H2
      by (apply set_slice_block; trivial; try lia;
          apply encoded_field_length).
  set (s3 := set_slice s2 62 82 _).
  assert (is_block s3) as H3
      by (apply set_slice_block; trivial; try lia;
          apply encoded_field_length).
  set (s4 := set_slice s3 82 90 _).
  assert (is_block s4) as H4
      by (apply set_slice_block; trivial; try lia;
          apply encoded_field_length).
  clearbody s4. clear s0 s1 s2 s3 H0 H1 H2 H3.
  destruct (to_bytes_ok (Z.of_nat (length d)) 4) as (v & -> & Hv);
    [simpl; lia|].
  simpl bind.
  assert (is_block (set_slice s4 90 94 v)) as H5
      by (apply set_slice_block; trivial; lia).
  destruct (set_item_block _ 94 (datatype f) H5) as (s6 & -> & H6);
    try lia.
  simpl bind.
  destruct (set_item_block _ 95 (filetype f) H6) as (s7 & -> & H7);
    try lia.
  simpl bind.
  destruct (optional_field_block s7 96 98 (tinfo1 f) H7) as (s8 & -> & H8);
    trivial; try lia.
  simpl bind.
  destruct (optional_field_block s8 98 100 (tinfo2 f) H8) as (s9 & -> & H9);
    trivial; try lia.
  simpl bind.
  exists s9. split; [reflexivity|exact H9].
Qed.

End AppendProperties.


(** ** ice_fix: matching *)

Lemma ice_fix_nil : ice_fix [] = [].
Proof. simp ice_fix. reflexivity. Qed.

Lemma ice_fix_cons (c : char) (s : text) :
  ice_fix (c :: s) =
  match sgr_match (c :: s) with
  | Some n => repl (firstn n (skipn 1 s)) ++ ice_fix (skipn (n + 2) s)
  | None => c :: ice_fix s
  end.
Proof.
  simp ice_fix. destruct (sgr_match (c :: s)); reflexivity.
Qed.

Lemma span_sgr_le (s : text) : span_sgr s <= length s.
Proof.
  induction s as [|c s IH]; simpl; [lia|].
  destruct (in_str c _); simpl; lia.
Qed.

Lemma span_sgr_run (s : text) : Forall sgr_char (firstn (span_sgr s) s).
Proof.
  induction s as [|c s IH]; simpl; [constructor|].
  destruct (in_str c "0123456789;") eqn:E; simpl; constructor; assumption.
Qed.

Lemma span_sgr_stop (raw : text) (x : char) (post : text) :
  Forall sgr_char raw -> in_str x "0123456789;" = false ->
  span_sgr (raw ++ x :: post) = length raw.
Proof.
  intros Hraw Hx. induction Hraw as [|c raw Hc _ IH]; simpl.
  - rewrite Hx. reflexivity.
  - unfold sgr_char in Hc. rewrite Hc, IH. reflexivity.
Qed.

Lemma span_sgr_app_esc (s rest : text) :
  span_sgr (s ++ ESC :: rest) = span_sgr s.
Proof.
  induction s as [|c s IH]; simpl; [reflexivity|].
  destruct (in_str c _); [rewrite IH|]; reflexivity.
Qed.

(** A match never reaches past the next escape: appending text that starts
    with an escape changes no match decision. *)
Lemma sgr_match_app_esc (s rest : text) :
  s <> [] -> sgr_match (s ++ ESC :: rest) = sgr_match s.
Proof.
  intros Hs. destruct s as [|e [|c r]]; [congruence| |].
  - simpl. rewrite andb_false_r. reflexivity.
  - cbn [sgr_match app].
    destruct (N.eqb e ESC && N.eqb c (chr "[")); [|reflexivity].
    rewrite span_sgr_app_esc.
    pose proof (span_sgr_le r) as Hle.
    rewrite skipn_app.
    destruct (skipn (span_sgr r) r) as [|m tl] eqn:E.
    + assert (length (skipn (span_sgr r) r) = 0) as L by (rewrite E; reflexivity).
      rewrite length_skipn in L.
      replace (span_sgr r - length r) with 0 by lia.
      reflexivity.
    + reflexivity.
Qed.

(** A match at the head lies inside the text it was found in: the text is
    the matched sequence followed by the rest the scan continues with. *)
Lemma sgr_match_inv (c : char) (s : text) (n : nat) :
  sgr_match (c :: s) = Some n ->
  Forall sgr_char (firstn n (skipn 1 s))
  /\ c :: s = sgr_seq (firstn n (skipn 1 s)) ++ skipn (n + 2) s
  /\ n + 2 <= length s.
Proof.
  destruct s as [|c2 r]; try discriminate. cbn [sgr_match].
  destruct (N.eqb c ESC && N.eqb c2 (chr "[")) eqn:E; [|discriminate].
  apply andb_prop in E as [E1 E2]. apply N.eqb_eq in E1, E2. subst c c2.
  destruct (skipn (span_sgr r) r) as [|m tl] eqn:K; [discriminate|].
  destruct (N.eqb m (chr "m")) eqn:M; [|discriminate].
  apply N.eqb_eq in M. subst m. intros H. inversion H; subst n.
  pose proof (span_sgr_le r) as Hle.
  assert (skipn (span_sgr r + 2) (chr "[" :: r) = tl) as Htl.
  { replace (span_sgr r + 2) with (S (1 + span_sgr r)) by lia.
    cbn [skipn]. rewrite <- skipn_skipn, K. reflexivity. }
  cbn [skipn]. repeat split.
  - apply span_sgr_run.
  - change (skipn (span_sgr r + 2) (91%N :: r))
      with (skipn (span_sgr r + 2) (chr "[" :: r)).
    rewrite Htl. unfold sgr_seq. cbn [app]. do 2 f_equal.
    rewrite <- app_assoc. cbn [app]. rewrite <- K. symmetry. apply firstn_skipn.
  - assert (length (skipn (span_sgr r) r) = S (length tl)) as L
        by (rewrite K; reflexivity).
    rewrite length_skipn in L. cbn [length]. lia.
Qed.

(** The pattern matches at the head of a sequence it describes. *)
Lemma sgr_match_seq (raw post : text) :
  Forall sgr_char raw -> sgr_match (sgr_seq raw ++ post) = Some (length raw).
Proof.
  intros Hraw. unfold sgr_seq. cbn [app sgr_match].
  rewrite !N.eqb_refl. cbn [andb].
  rewrite <- app_assoc. cbn [app].
  rewrite (span_sgr_stop raw (chr "m") post Hraw eq_refl).
  rewrite skipn_app, skipn_all, Nat.sub_diag. cbn [app skipn].
  rewrite N.eqb_refl. reflexivity.
Qed.

(** ** ice_fix: one sequence at a time *)

(** The substitution works on the text before an escape independently of
    what follows the escape. *)
Lemma ice_fix_app_esc (rest : text) :
  forall pre, ice_fix (pre ++ ESC :: rest) = ice_fix pre ++ ice_fix (ESC :: rest).
Proof.
  intros pre. remember (length pre) as k eqn:Hk.
  revert pre Hk. induction k as [k IH] using lt_wf_ind. intros pre Hk.
  destruct pre as [|c p].
  - rewrite ice_fix_nil. reflexivity.
  - cbn [app]. rewrite (ice_fix_cons c (p ++ ESC :: rest)), (ice_fix_cons c p).
    change (c :: p ++ ESC :: rest) with ((c :: p) ++ ESC :: rest).
    rewrite sgr_match_app_esc by discriminate.
    destruct (sgr_match (c :: p)) as [n|] eqn:M.
    + destruct (sgr_match_inv c p n M) as (_ & _ & Hlen).
      rewrite !skipn_app, firstn_app, length_skipn.
      replace (1 - length p) with 0 by lia.
      replace (n + 2 - length p) with 0 by lia.
      replace (n - (length p - 1)) with 0 by lia.
      change (skipn 0 (ESC :: rest)) with (ESC :: rest).
      cbn [firstn]. rewrite app_nil_r.
      rewrite (IH (length (skipn (n + 2) p))); trivial.
      * rewrite app_assoc. reflexivity.
      * rewrite length_skipn. subst k. simpl. lia.
    + rewrite (IH (length p)); trivial. subst k. simpl. lia.
Qed.

(** Every sequence the pattern describes is replaced by [repl] of its
    group, whatever surrounds it. *)
Lemma ice_fix_sequence (pre raw post : text) :
  Forall sgr_char raw ->
  ice_fix (pre ++ sgr_seq raw ++ post) = ice_fix pre ++ repl raw ++ ice_fix post.
Proof.
  intros Hraw.
  change (sgr_seq raw ++ post) with (ESC :: (chr "[" :: raw ++ [chr "m"]) ++ post).
  rewrite ice_fix_app_esc. f_equal.
  change (ESC :: (chr "[" :: raw ++ [chr "m"]) ++ post) with (sgr_seq raw ++ post).
  pose proof (sgr_match_seq raw post Hraw) as M.
  unfold sgr_seq in *. cbn [app] in *.
  rewrite ice_fix_cons, M. cbn [skipn].
  rewrite <- app_assoc. cbn [app].
  rewrite firstn_app, firstn_all, Nat.sub_diag. cbn [firstn]. rewrite app_nil_r.
  f_equal. replace (length raw + 2) with (S (length raw + 1)) by lia.
  cbn [skipn]. rewrite skipn_app, skipn_all2 by lia.
  replace (length raw + 1 - length raw) with 1 by lia. reflexivity.
Qed.

(** Text in which the pattern matches nowhere is returned unchanged. *)
Lemma ice_fix_no_match (s : text) :
  forall pre,
    (forall p raw q, Forall sgr_char raw -> pre ++ s <> p ++ sgr_seq raw ++ q) ->
    ice_fix s = s.
Proof.
  induction s as [|c s IH]; intros pre Hno.
  - apply ice_fix_nil.
  - rewrite ice_fix_cons. destruct (sgr_match (c :: s)) as [n|] eqn:M.
    + destruct (sgr_match_inv c s n M) as (Hraw & Heq & _).
      exfalso. apply (Hno pre _ (skipn (n + 2) s) Hraw).
      rewrite <- Heq. reflexivity.
    + f_equal. apply (IH (pre ++ [c])). intros p raw q Hraw.
      rewrite <- app_assoc. apply Hno, Hraw.
Qed.

(** ** ice_fix: the parameters *)

Lemma ice_out_spec (params : list N) :
  ice_out params = flat_map spec_param params.
Proof.
  induction params as [|p ps IH]; simpl; [reflexivity|].
  unfold spec_param.
  destruct ((40 <=? p)%N && (p <=? 47)%N); simpl; [rewrite IH; reflexivity|].
  destruct (N.eqb p 5); simpl; rewrite IH; reflexivity.
Qed.

Lemma existsb_blink (params : list N) :
  existsb (N.eqb 5) params = true <-> In 5%N params.
Proof.
  rewrite existsb_exists. split.
  - intros (x & Hin & Hx). apply N.eqb_eq in Hx. subst. exact Hin.
  - intros H. exists 5%N. split; [exact H|reflexivity].
Qed.

Lemma digit_val_sgr (c : char) :
  sgr_char c -> c <> chr ";" -> exists d, digit_val c = Some d.
Proof.
  unfold sgr_char, in_str. intros H Hc.
  apply existsb_exists in H as (x & Hin & Hx).
  apply N.eqb_eq in Hx. subst x. simpl in Hin.
  repeat (destruct Hin as [<-|Hin]; [try (eexists; reflexivity)|]);
    contradiction.
Qed.

(** The pieces between semicolons hold digits only. *)
Lemma split_digits (raw : text) :
  Forall sgr_char raw ->
  Forall (Forall (fun c => exists d, digit_val c = Some d))
         (split (chr ";") raw).
Proof.
  intros Hraw. induction Hraw as [|c raw Hc _ IH]; cbn [split].
  - repeat constructor.
  - destruct (N.eqb_spec c (chr ";")) as [->|Hne].
    + constructor; [constructor|exact IH].
    + destruct (split (chr ";") raw) as [|p ps].
      * repeat constructor. apply digit_val_sgr; assumption.
      * inversion IH; subst. constructor; [|assumption].
        constructor; [apply digit_val_sgr|]; assumption.
Qed.

Lemma int_acc_digits (p : text) :
  Forall (fun c => exists d, digit_val c = Some d) p ->
  forall acc, exists n, int_acc acc p = Some n.
Proof.
  induction 1 as [|c p [d Hd] _ IH]; intros acc; simpl.
  - eexists. reflexivity.
  - rewrite Hd. apply IH.
Qed.

Lemma py_int_some (p : text) (n : N) :
  py_int p = Some n -> int_acc 0 p = Some n /\ within_digit_limit p = true.
Proof.
  unfold py_int. destruct p as [|c p]; [discriminate|].
  destruct (within_digit_limit (c :: p)); [|discriminate].
  intros H. split; [exact H|reflexivity].
Qed.

Lemma py_int_over_limit (p : text) :
  within_digit_limit p = false -> py_int p = None.
Proof.
  unfold py_int. intros H. destruct p as [|c p]; [reflexivity|].
  rewrite H. reflexivity.
Qed.

(** Inside [repl], [int] raises only at a piece over the digit limit. *)
Lemma parse_params_pieces (pieces : list text) :
  Forall (Forall (fun c => exists d, digit_val c = Some d)) pieces ->
  forallb within_digit_limit pieces = true ->
  exists params, parse_params pieces = Some params.
Proof.
  induction 1 as [|p ps Hp _ IH]; cbn [forallb parse_params]; intros Hl.
  - eexists. reflexivity.
  - apply andb_prop in Hl as [Hl1 Hl2].
    destruct p as [|c p]; [exact (IH Hl2)|].
    unfold py_int. rewrite Hl1.
    destruct (int_acc_digits (c :: p) Hp 0%N) as [n ->].
    destruct (IH Hl2) as [params ->]. eexists. reflexivity.
Qed.

Lemma parse_params_within_limit (raw : text) :
  Forall sgr_char raw ->
  forallb within_digit_limit (split (chr ";") raw) = true ->
  exists params, parse_params (split (chr ";") raw) = Some params.
Proof.
  intros Hraw. apply parse_params_pieces, split_digits, Hraw.
Qed.

Lemma parse_params_over_limit (pieces : list text) :
  forallb within_digit_limit pieces = false -> parse_params pieces = None.
Proof.
  induction pieces as [|p ps IH]; cbn [forallb parse_params]; [discriminate|].
  intros Hl. destruct (within_digit_limit p) eqn:Hp; cbn [andb] in Hl.
  - specialize (IH Hl). destruct p as [|c p]; [exact IH|].
    destruct (py_int (c :: p)); [rewrite IH|]; reflexivity.
  - destruct p as [|c p]; [discriminate Hp|].
    rewrite (py_int_over_limit _ Hp). reflexivity.
Qed.

(** Where [int] does not raise, the list parsed is the list the
    specification reads. *)
Lemma parse_params_spec (pieces : list text) :
  forall params,
    parse_params pieces = Some params -> spec_params pieces = Some params.
Proof.
  induction pieces as [|p ps IH]; cbn [parse_params spec_params]; intros params H;
    [exact H|].
  destruct p as [|c p]; [apply IH, H|].
  destruct (py_int (c :: p)) as [n|] eqn:E; [|discriminate].
  apply py_int_some in E as [E _]. rewrite E.
  destruct (parse_params ps) as [l|]; [|discriminate].
  rewrite (IH l eq_refl). exact H.
Qed.

(** The [except] branch: the match is returned as it is. *)
Lemma repl_unparsed (raw : text) :
  parse_params (split (chr ";") raw) = None -> repl raw = sgr_seq raw.
Proof.
  intros H. unfold repl. destruct raw; [reflexivity|]. rewrite H. reflexivity.
Qed.

(** [repl] in terms of the parsed parameter list. *)
Lemma repl_params (raw : text) (params : list N) :
  parse_params (split (chr ";") raw) = Some params ->
  repl raw =
  if existsb (N.eqb 5) params then
    ESC :: chr "[" :: join [chr ";"] (map py_str (flat_map spec_param params))
      ++ [chr "m"]
  else sgr_seq raw.
Proof.
  intros H. unfold repl. destruct raw as [|c raw].
  - simpl in H. inversion H; subst. reflexivity.
  - rewrite H, ice_out_spec. destruct (existsb (N.eqb 5) params); reflexivity.
Qed.

(** C6, amended (ice_fix on SGR sequences).  For every sequence of the
    pattern in the input, whatever precedes and follows it, whose
    parameters are each written with at most 4300 digits: the parameters
    parse, to the list the specification reads; when the list is empty or
    has no 5 the sequence is kept as it is; otherwise it is replaced by the
    sequence whose parameters are the old ones with 40..47 raised by 60,
    every 5 removed and the rest kept in order, joined with semicolons.  A
    sequence with a parameter of more than 4300 digits is kept as it is.
    The two documented cases evaluate as stated, and text without any such
    sequence is returned unchanged. *)
Theorem ice_fix_rewrites_sgr_sequences :
  (forall pre raw post,
      Forall sgr_char raw ->
      forallb within_digit_limit (split (chr ";") raw) = true ->
      exists params,
        parse_params (split (chr ";") raw) = Some params
        /\ spec_params (split (chr ";") raw) = Some params
        /\ (params = [] \/ ~ In 5%N params ->
            ice_fix (pre ++ sgr_seq raw ++ post)
            = ice_fix pre ++ sgr_seq raw ++ ice_fix post)
        /\ (In 5%N params ->
            ice_fix (pre ++ sgr_seq raw ++ post)
            = ice_fix pre
                ++ (ESC :: chr "["
                      :: join [chr ";"] (map py_str (flat_map spec_param params))
                      ++ [chr "m"])
                ++ ice_fix post))
  /\ (forall pre raw post,
         Forall sgr_char raw ->
         forallb within_digit_limit (split (chr ";") raw) = false ->
         ice_fix (pre ++ sgr_seq raw ++ post)
         = ice_fix pre ++ sgr_seq raw ++ ice_fix post)
  /\ ice_fix (ESC :: str "[5;44mTEXT" ++ ESC :: str "[0m")
     = ESC :: str "[104mTEXT" ++ ESC :: str "[0m"
  /\ ice_fix (ESC :: str "[5;31mTEXT" ++ ESC :: str "[0m")
     = ESC :: str "[31mTEXT" ++ ESC :: str "[0m"
  /\ (forall t,
         (forall p raw q, Forall sgr_char raw -> t <> p ++ sgr_seq raw ++ q) ->
         ice_fix t = t).
Proof.
  split; [|split; [|split; [reflexivity|split; [reflexivity|]]]].
  - intros pre raw post Hraw Hlim.
    destruct (parse_params_within_limit raw Hraw Hlim) as [params Hp].
    exists params. split; [exact Hp|].
    split; [apply parse_params_spec, Hp|].
    rewrite (ice_fix_sequence pre raw post Hraw), (repl_params raw params Hp).
    split.
    + intros Hno.
      assert (existsb (N.eqb 5) params = false) as ->; [|reflexivity].
      destruct (existsb (N.eqb 5) params) eqn:E; [|reflexivity].
      apply existsb_blink in E. destruct Hno as [-> | Hno]; contradiction.
    + intros Hin. apply existsb_blink in Hin. rewrite Hin. reflexivity.
  - intros pre raw post Hraw Hlim.
    rewrite (ice_fix_sequence pre raw post Hraw).
    rewrite (repl_unparsed raw (parse_params_over_limit _ Hlim)). reflexivity.
  - intros t Hno. apply (ice_fix_no_match t []). exact Hno.
Qed.

Lemma ice_fix_rewrites_sgr_sequences_witness :
  ice_fix (str "ab" ++ sgr_seq (str "5;44") ++ str "cd")
  = ice_fix (str "ab") ++ sgr_seq (str "104") ++ ice_fix (str "cd").
Proof.
  destruct (proj1 ice_fix_rewrites_sgr_sequences (str "ab") (str "5;44")
              (str "cd")) as (params & Hp & _ & _ & Hin).
  - repeat constructor.
  - reflexivity.
  - injection Hp as <-. apply Hin. left. reflexivity.
Defined.

Lemma ice_out_blink_only (params : list N) :
  Forall (eq 5%N) params -> flat_map spec_param params = [].
Proof.
  induction 1 as [|p ps <- _ IH]; simpl; [reflexivity|exact IH].
Qed.

(** Whatever [repl] returns is again a sequence of the pattern's shape. *)
Lemma repl_shape (raw : text) :
  exists body, repl raw = ESC :: chr "[" :: body ++ [chr "m"].
Proof.
  unfold repl, sgr_seq. destruct raw as [|c raw]; [exists []; reflexivity|].
  destruct (parse_params _) as [params|]; [|eexists; reflexivity].
  destruct (negb _); eexists; reflexivity.
Qed.

(** C10, amended (a blink-only sequence is not deleted).  Every sequence
    of the pattern is replaced by a sequence that still has its introducer
    and its final [m]; one whose parameters are all 5, at least one, each
    written with at most 4300 digits, is replaced by the sequence with no
    parameters, and one with a parameter of more than 4300 digits is kept
    as it is; in particular [ESC [ 5 m] becomes [ESC [ m], which is not the
    empty text. *)
Theorem ice_fix_blink_only_keeps_sequence :
  (forall pre raw post,
      Forall sgr_char raw ->
      exists body,
        ice_fix (pre ++ sgr_seq raw ++ post)
        = ice_fix pre ++ (ESC :: chr "[" :: body ++ [chr "m"]) ++ ice_fix post)
  /\ (forall pre raw post,
        Forall sgr_char raw ->
        forallb within_digit_limit (split (chr ";") raw) = true ->
        exists params,
          spec_params (split (chr ";") raw) = Some params
          /\ (params <> [] -> Forall (eq 5%N) params ->
              ice_fix (pre ++ sgr_seq raw ++ post)
              = ice_fix pre ++ sgr_seq [] ++ ice_fix post))
  /\ (forall pre raw post,
        Forall sgr_char raw ->
        forallb within_digit_limit (split (chr ";") raw) = false ->
        ice_fix (pre ++ sgr_seq raw ++ post)
        = ice_fix pre ++ sgr_seq raw ++ ice_fix post)
  /\ ice_fix (ESC :: str "[5m") = ESC :: str "[m"
  /\ ice_fix (ESC :: str "[5m") <> [].
Proof.
  split; [|split; [|split; [|split; [reflexivity|discriminate]]]].
  - intros pre raw post Hraw. destruct (repl_shape raw) as [body Hb].
    exists body. rewrite (ice_fix_sequence pre raw post Hraw), Hb. reflexivity.
  - intros pre raw post Hraw Hlim.
    destruct (parse_params_within_limit raw Hraw Hlim) as [params Hp].
    exists params. split; [apply parse_params_spec, Hp|].
    intros Hne Hall.
    rewrite (ice_fix_sequence pre raw post Hraw), (repl_params raw params Hp).
    assert (existsb (N.eqb 5) params = true) as ->.
    { destruct Hall as [|p ps <- _]; [congruence|reflexivity]. }
    rewrite (ice_out_blink_only params Hall). reflexivity.
  - intros pre raw post Hraw Hlim.
    rewrite (ice_fix_sequence pre raw post Hraw).
    rewrite (repl_unparsed raw (parse_params_over_limit _ Hlim)). reflexivity.
Qed.

Lemma ice_fix_blink_only_keeps_sequence_witness :
  ice_fix (str "ab" ++ sgr_seq (str "5;05;;5") ++ str "cd")
  = ice_fix (str "ab") ++ sgr_seq [] ++ ice_fix (str "cd").
Proof.
  destruct (proj1 (proj2 ice_fix_blink_only_keeps_sequence) (str "ab")
              (str "5;05;;5") (str "cd")) as (params & Hp & H).
  - repeat constructor.
  - reflexivity.
  - injection Hp as <-. apply H; [discriminate|repeat constructor].
Defined.

(** ** SAUCE: round trip *)

(** C7, counterexample.  A width hint that does not fit two bytes makes
    [append_minimal_sauce] raise [OverflowError]: there is no result to
    strip. *)
Lemma append_minimal_sauce_can_raise :
  ~ (forall (enc : char -> byte) (today : text) (d : bytes) (f : sauce_fields),
        exists r,
          append_minimal_sauce enc today d f = inl r
          /\ strip_sauce_tail r = d /\ has_sauce r = true).
Proof.
  intros H.
  destruct (H ascii_encode (str "20240101") (b "art")
              (sample_fields (Some 65536%Z))) as (r & Hr & _).
  discriminate Hr.
Qed.

(** C7, amended.  For every buffer shorter than 2^32 bytes and fields that
    fit the record (data type and file type in 0..255, each type-info field
    absent or in 0..65535), [append_minimal_sauce] returns the buffer
    followed by 128 bytes; stripping the result gives the buffer back and
    [has_sauce] holds of it. *)
Theorem sauce_round_trip
  (enc : char -> byte) (today : text) (d : bytes) (f : sauce_fields) :
  (Z.of_nat (length d) < 2 ^ 32)%Z ->
  (0 <= datatype f < 256)%Z ->
  (0 <= filetype f < 256)%Z ->
  match tinfo1 f with Some n => (0 <= n < 65536)%Z | None => True end ->
  match tinfo2 f with Some n => (0 <= n < 65536)%Z | None => True end ->
  exists r,
    append_minimal_sauce enc today d f = inl r
    /\ length r = length d + 128
    /\ strip_sauce_tail r = d
    /\ has_sauce r = true.
Proof.
  intros Hsize Hdt Hft Ht1 Ht2.
  destruct (append_minimal_sauce_block enc today d f Hsize Hdt Hft Ht1 Ht2)
    as (blk & Hr & Hblk).
  exists (d ++ blk). split; [exact Hr|]. split; [|split].
  - rewrite length_app. destruct Hblk as [-> _]. reflexivity.
  - apply strip_sauce_tail_app_block, Hblk.
  - apply has_sauce_app_block, Hblk.
Qed.

Lemma sauce_round_trip_witness :
  exists r,
    append_minimal_sauce ascii_encode (str "20240101") (b "Some ANSI art")
      (sample_fields (Some 80%Z)) = inl r
    /\ length r = length (b "Some ANSI art") + 128
    /\ strip_sauce_tail r = b "Some ANSI art"
    /\ has_sauce r = true.
Proof.
  apply (sauce_round_trip ascii_encode (str "20240101") (b "Some ANSI art")
           (sample_fields (Some 80%Z))); simpl; lia.
Defined.

(** ** filter_safe: what it lets through *)

Lemma get_skipn (t : text) (i k : nat) : get (skipn i t) k = get t (i + k).
Proof. unfold get. apply nth_skipn. Qed.

Lemma plain_safe (s : text) : Forall (fun c => c <> ESC) s -> safe_text s.
Proof.
  induction 1 as [|c s Hc _ IH]; [apply safe_nil|apply safe_plain; assumption].
Qed.

Lemma safe_text_app (a c : text) :
  safe_text a -> safe_text c -> safe_text (a ++ c).
Proof.
  intros Ha Hc. induction Ha as [|x rest Hx _ IH|ps f rest Hps Hf Hk _ IH].
  - exact Hc.
  - cbn [app]. apply safe_plain; assumption.
  - rewrite <- app_assoc. apply safe_csi; assumption.
Qed.

(** Skipping ordinary characters of safe text leaves safe text. *)
Lemma safe_text_skip_plain (k : nat) :
  forall s, safe_text s -> Forall (fun c => c <> ESC) (firstn k s) ->
            safe_text (skipn k s).
Proof.
  induction k as [|k IH]; intros s Hs Hplain; [exact Hs|].
  destruct s as [|c s]; [exact Hs|].
  cbn [firstn] in Hplain. inversion Hplain as [|? ? Hc Hrest]; subst.
  cbn [skipn]. apply IH; [|exact Hrest].
  inversion Hs as [|c' rest Hc' Hr|ps f rest Hps Hf Hk Hr]; subst.
  - exact Hr.
  - unfold csi_seq in *. cbn [app] in *. congruence.
Qed.

Lemma index_of_none (c : char) (s : text) :
  index_of c s = None -> Forall (fun x => x <> c) s.
Proof.
  induction s as [|x s IH]; intros H; [constructor|].
  simpl in H. destruct (N.eqb_spec x c) as [_|Hne]; [discriminate|].
  destruct (index_of c s); [discriminate|].
  constructor; [exact Hne|apply IH; reflexivity].
Qed.

Lemma index_of_some (c : char) (s : text) :
  forall k, index_of c s = Some k ->
            Forall (fun x => x <> c) (firstn k s) /\ nth k s 0%N = c.
Proof.
  induction s as [|x s IH]; intros k H; [discriminate|].
  simpl in H. destruct (N.eqb_spec x c) as [->|Hne].
  - inversion H; subst. split; [constructor|reflexivity].
  - destruct (index_of c s) as [k'|]; [|discriminate].
    inversion H; subst. destruct (IH k' eq_refl) as [I1 I2].
    split; [constructor; assumption|exact I2].
Qed.

Lemma span_params_le (s : text) : span_params s <= length s.
Proof.
  induction s as [|c s IH]; simpl; [lia|].
  destruct (in_str c _); simpl; lia.
Qed.

Lemma span_params_run (s : text) :
  Forall param_char (firstn (span_params s) s).
Proof.
  induction s as [|c s IH]; simpl; [constructor|].
  destruct (in_str c "0123456789;?") eqn:E; simpl; constructor; assumption.
Qed.

(** The character the parameter scan stops at is not a parameter character. *)
Lemma span_params_stop (s : text) :
  span_params s < length s ->
  in_str (nth (span_params s) s 0%N) "0123456789;?" = false.
Proof.
  induction s as [|c s IH]; simpl; [lia|].
  destruct (in_str c "0123456789;?") eqn:E; intros H.
  - apply IH. lia.
  - exact E.
Qed.

Lemma span_params_exact (ps : text) (f : char) (rest : text) :
  Forall param_char ps -> in_str f "0123456789;?" = false ->
  span_params (ps ++ f :: rest) = length ps.
Proof.
  intros Hps Hf. induction Hps as [|c ps Hc _ IH]; simpl.
  - rewrite Hf. reflexivity.
  - unfold param_char in Hc. rewrite Hc, IH. reflexivity.
Qed.

(** The slice taken for a CSI token is a CSI sequence. *)
Lemma csi_slice (t : text) (i : nat) :
  get t i = ESC -> get t (i + 1) = chr "[" ->
  i + 2 + span_params (skipn (i + 2) t) < length t ->
  slice t i (i + 2 + span_params (skipn (i + 2) t) + 1)
  = csi_seq (firstn (span_params (skipn (i + 2) t)) (skipn (i + 2) t))
      (get t (i + 2 + span_params (skipn (i + 2) t))).
Proof.
  intros He Hb Hj. set (n := span_params (skipn (i + 2) t)) in *.
  unfold slice, csi_seq.
  replace (i + 2 + n + 1 - i) with (S (S (n + 1))) by lia.
  rewrite (skipn_get t i) by lia. rewrite He. cbn [firstn]. f_equal.
  rewrite (skipn_get t (S i)) by lia.
  replace (S i) with (i + 1) at 1 by lia. rewrite Hb. cbn [firstn]. f_equal.
  replace (S (S i)) with (i + 2) by lia.
  rewrite firstn_plus. f_equal.
  rewrite skipn_skipn.
  rewrite (skipn_get t (n + (i + 2))) by lia. cbn [firstn].
  do 2 f_equal. lia.
Qed.

(** Every token the safe tokenizer yields is either marked [drop] or is
    safe text by itself. *)
Lemma regular_text_safe_tokens (t : text) (i : nat) out c :
  regular_text t i = (out, c) -> Forall token_safe out.
Proof.
  unfold regular_text, find. intros H.
  destruct (index_of ESC (skipn i t)) as [k|] eqn:E; simpl in H.
  - inversion H; subst. destruct (i <? i + k); constructor; [|constructor].
    intros _. cbn [snd]. unfold slice.
    replace (i + k - i) with k by lia.
    apply plain_safe, (index_of_some ESC _ k E).
  - inversion H; subst. constructor; [|constructor].
    intros _. apply plain_safe, index_of_none, E.
Qed.

Lemma loop_body_safe_tokens (t : text) (i : nat) out c :
  i < length t -> loop_body t true i = (out, c) -> Forall token_safe out.
Proof.
  intros Hi H. unfold loop_body in H.
  destruct (N.eqb (get t i) ESC && (i + 1 <? length t)) eqn:E0;
    [|apply (regular_text_safe_tokens t i out c H)].
  apply andb_prop in E0 as [He _]. apply N.eqb_eq in He.
  destruct (N.eqb (get t (i + 1)) (chr "[")) eqn:Eb.
  - apply N.eqb_eq in Eb.
    destruct (i + 2 + span_params (skipn (i + 2) t) <? length t) eqn:L;
      [|apply (regular_text_safe_tokens t i out c H)].
    apply Nat.ltb_lt in L. inversion H; subst.
    constructor; [|constructor].
    unfold token_safe, kept. cbn [fst snd]. intros Hk.
    rewrite (csi_slice t i He Eb L) in *.
    rewrite <- (app_nil_r (csi_seq _ _)). apply safe_csi.
    + apply span_params_run.
    + rewrite <- get_skipn. apply span_params_stop.
      rewrite length_skipn. lia.
    + intros Hd. rewrite Hd in Hk. discriminate.
    + apply safe_nil.
  - destruct (N.eqb (get t (i + 1)) (chr "]") && true);
      [|apply (regular_text_safe_tokens t i out c H)].
    destruct (osc_end (skipn (i + 2) t)); inversion H; subst;
      (constructor; [|constructor]); intros Hk; discriminate.
Qed.

Lemma run_safe_tokens (fuel : nat) (t : text) :
  forall i out c, run fuel t true i = (out, c) -> Forall token_safe out.
Proof.
  induction fuel as [|fuel IH]; intros i out c H; simpl in H.
  - inversion H; subst. constructor.
  - destruct (i <? length t) eqn:L; [|inversion H; subst; constructor].
    apply Nat.ltb_lt in L.
    destruct (loop_body t true i) as [o1 [i1|]] eqn:B;
      pose proof (loop_body_safe_tokens t i _ _ L B) as H1.
    + destruct (run fuel t true i1) as [o2 c2] eqn:R.
      inversion H; subst. apply Forall_app. split; [exact H1|].
      apply (IH i1 o2 c R).
    + inversion H; subst. exact H1.
Qed.

Lemma kept_contents_safe (toks : list token) :
  Forall token_safe toks -> safe_text (contents (filter kept toks)).
Proof.
  induction 1 as [|tk toks Htk _ IH]; [apply safe_nil|].
  cbn [filter]. destruct (kept tk) eqn:K; [|exact IH].
  unfold contents in *. cbn [map concat].
  apply safe_text_app; [apply Htk, K|exact IH].
Qed.

(** Whatever [filter_safe] returns is safe text: ordinary characters and
    complete CSI sequences of the kept classes, nothing else. *)
Lemma filter_safe_output_safe (fuel : nat) (t u : text) :
  filter_safe fuel t = Some u -> safe_text u.
Proof.
  unfold filter_safe, tokenize_ansi. intros H.
  destruct (run fuel t true 0) as [out [i|]] eqn:R; [discriminate|].
  simpl in H. inversion H; subst.
  apply kept_contents_safe, (run_safe_tokens fuel t 0 out Stop R).
Qed.

Lemma kept_iff (ty : token_type) (s : text) :
  kept (ty, s) = true <-> ty <> Tdrop.
Proof.
  unfold kept. cbn [fst]. destruct ty; simpl; split; congruence.
Qed.

(** On safe text the safe tokenizer comes to an end and drops nothing. *)
Lemma safe_text_run (n : nat) (t : text) :
  forall i,
    length t - i <= n -> i <= length t -> safe_text (skipn i t) ->
    exists fuel toks,
      run fuel t true i = (toks, Stop) /\ Forall (fun tk => kept tk = true) toks.
Proof.
  induction n as [|n IH]; intros i Hn Hi Hs.
  - exists 1, []. simpl.
    assert ((i <? length t) = false) as -> by (apply Nat.ltb_ge; lia).
    split; [reflexivity|constructor].
  - destruct (Nat.eq_dec i (length t)) as [->|Hne].
    { exists 1, []. simpl. rewrite Nat.ltb_irrefl.
      split; [reflexivity|constructor]. }
    assert (i < length t) as Hlt by lia. clear Hne Hi.
    assert (forall k, get t (i + k) = nth k (skipn i t) 0%N) as Hget
        by (intros k; symmetry; apply get_skipn).
    assert (forall k, skipn (i + k) t = skipn k (skipn i t)) as Hskip
        by (intros k; rewrite skipn_skipn; f_equal; lia).
    assert (length (skipn i t) = length t - i) as Hlen by apply length_skipn.
    remember (skipn i t) as s eqn:Es.
    destruct Hs as [|c rest Hc Hrest|ps f rest Hps Hf Hk Hrest].
    + simpl in Hlen. lia.
    + (* an ordinary character: a text token up to the next escape *)
      assert (loop_body t true i = regular_text t i) as Hb.
      { unfold loop_body. replace i with (i + 0) at 1 by lia.
        rewrite Hget. cbn [nth].
        apply N.eqb_neq in Hc. rewrite Hc. reflexivity. }
      unfold regular_text, find in Hb. rewrite <- Es in Hb.
      destruct (index_of ESC (c :: rest)) as [k|] eqn:E; cbn [option_map] in Hb.
      * destruct (index_of_some ESC _ k E) as [Hplain _].
        pose proof (index_of_bound ESC _ k E) as Hk.
        assert (k <> 0) as Hk0.
        { intros ->. simpl in E. apply N.eqb_neq in Hc. rewrite Hc in E.
          destruct (index_of ESC rest); discriminate. }
        assert ((i <? i + k) = true) as Hlt' by (apply Nat.ltb_lt; lia).
        rewrite Hlt' in Hb.
        destruct (IH (i + k)) as (fuel & toks & Hrun & Hall).
        -- rewrite Hlen in Hk. lia.
        -- rewrite Hlen in Hk. lia.
        -- rewrite Hskip. apply safe_text_skip_plain; [|exact Hplain].
           apply safe_plain; assumption.
        -- exists (S fuel), ((Ttext, slice t i (i + k)) :: toks).
           cbn [run]. apply Nat.ltb_lt in Hlt. rewrite Hlt, Hb, Hrun.
           split; [reflexivity|]. constructor; [reflexivity|exact Hall].
      * exists 1, [(Ttext, c :: rest)]. cbn [run].
        apply Nat.ltb_lt in Hlt. rewrite Hlt, Hb.
        split; [reflexivity|]. constructor; [reflexivity|constructor].
    + (* a kept CSI sequence: one token, then the rest *)
      assert (csi_seq ps f ++ rest = ESC :: chr "[" :: ps ++ f :: rest) as Eseq.
      { unfold csi_seq. cbn [app]. rewrite <- app_assoc. reflexivity. }
      rewrite Eseq in Hget, Hskip, Hlen. clear Es.
      cbn [length] in Hlen. rewrite length_app in Hlen. cbn [length] in Hlen.
      assert (get t i = ESC) as He.
      { replace i with (i + 0) at 1 by lia. rewrite Hget. reflexivity. }
      assert (get t (i + 1) = chr "[") as Hbr.
      { rewrite Hget. reflexivity. }
      assert (skipn (i + 2) t = ps ++ f :: rest) as Hps'.
      { rewrite Hskip. reflexivity. }
      assert (span_params (skipn (i + 2) t) = length ps) as Hspan.
      { rewrite Hps'. apply span_params_exact; assumption. }
      assert (get t (i + 2 + length ps) = f) as Hfin.
      { rewrite <- Nat.add_assoc, Hget.
        cbn [Nat.add nth]. rewrite app_nth2 by lia.
        rewrite Nat.sub_diag. reflexivity. }
      assert (loop_body t true i
              = ([(classify true f (csi_seq ps f), csi_seq ps f)],
                 Next (i + 2 + length ps + 1))) as Hb.
      { unfold loop_body. rewrite He, Hbr, !N.eqb_refl.
        assert ((i + 1 <? length t) = true) as -> by (apply Nat.ltb_lt; lia).
        cbn [andb].
        assert (i + 2 + span_params (skipn (i + 2) t) < length t) as Hj
            by (rewrite Hspan; lia).
        rewrite (csi_slice t i He Hbr Hj).
        apply Nat.ltb_lt in Hj. rewrite Hj.
        rewrite Hspan, Hfin, Hps', firstn_app, firstn_all, Nat.sub_diag.
        cbn [firstn]. rewrite app_nil_r. reflexivity. }
      destruct (IH (i + 2 + length ps + 1)) as (fuel & toks & Hrun & Hall).
      * lia.
      * lia.
      * replace (i + 2 + length ps + 1) with (i + (length ps + 3)) by lia.
        rewrite Hskip.
        replace (length ps + 3) with (S (S (length ps + 1))) by lia.
        cbn [skipn]. rewrite skipn_app, skipn_all2 by lia.
        replace (length ps + 1 - length ps) with 1 by lia. exact Hrest.
      * exists (S fuel), ((classify true f (csi_seq ps f), csi_seq ps f) :: toks).
        cbn [run]. apply Nat.ltb_lt in Hlt. rewrite Hlt, Hb, Hrun.
        split; [reflexivity|].
        constructor; [apply kept_iff, Hk|exact Hall].
Qed.

(** [filter_safe] returns safe text as it is. *)
Lemma filter_safe_fixes_safe_text (u : text) :
  safe_text u -> exists fuel, filter_safe fuel u = Some u.
Proof.
  intros Hs.
  destruct (safe_text_run (length u) u 0) as (fuel & toks & Hrun & Hall);
    [lia|lia|exact Hs|].
  exists fuel. unfold filter_safe, tokenize_ansi. rewrite Hrun. cbn [option_map].
  f_equal.
  assert (filter kept toks = toks) as ->.
  { clear Hrun. induction Hall as [|tk toks Htk _ IH]; [reflexivity|].
    cbn [filter]. rewrite Htk, IH. reflexivity. }
  apply (run_contents fuel u true 0 toks Stop (Nat.le_0_l _) Hrun).
Qed.

Lemma filter_safe_more_fuel (fuel k : nat) (t u : text) :
  filter_safe fuel t = Some u -> filter_safe (fuel + k) t = Some u.
Proof.
  unfold filter_safe. intros H.
  destruct (tokenize_ansi fuel t true) as [toks|] eqn:T; [|discriminate].
  rewrite (tokenize_ansi_more_fuel fuel k t true toks T). exact H.
Qed.

(** Idempotence holds wherever [filter_safe] returns at all: filtering what
    it returned terminates and changes nothing. *)
Lemma filter_safe_idempotent_when_defined (fuel : nat) (t u : text) :
  filter_safe fuel t = Some u ->
  exists fuel',
    filter_safe fuel' t = Some u /\ filter_safe_twice fuel' t = Some u.
Proof.
  intros H.
  destruct (filter_safe_fixes_safe_text u (filter_safe_output_safe fuel t u H))
    as [fuel2 H2].
  exists (fuel + fuel2).
  assert (filter_safe (fuel + fuel2) t = Some u) as H1
      by apply (filter_safe_more_fuel fuel fuel2 t u H).
  split; [exact H1|].
  unfold filter_safe_twice. rewrite H1, Nat.add_comm.
  apply (filter_safe_more_fuel fuel2 fuel u u H2).
Qed.

(** ** ice_fix: the rewritten sequence carries the rewritten parameters *)

Lemma int_acc_uint_pos (d : Decimal.uint) :
  forall acc : positive,
    int_acc (Npos acc) (uint_text d) = Some (Npos (Pos.of_uint_acc d acc)).
Proof.
  induction d as [|d IH|d IH|d IH|d IH|d IH|d IH|d IH|d IH|d IH|d IH];
    intros acc; cbn [uint_text int_acc Pos.of_uint_acc];
    [reflexivity|..];
    match goal with
    | |- context [digit_val ?c] =>
        change (digit_val c) with (Some (c - 48)%N); cbv beta iota
    end;
    rewrite <- IH; f_equal; lia.
Qed.

Lemma int_acc_uint (d : Decimal.uint) :
  int_acc 0 (uint_text d) = Some (N.of_uint d).
Proof.
  unfold N.of_uint.
  induction d as [|d IH|d IH|d IH|d IH|d IH|d IH|d IH|d IH|d IH|d IH];
    cbn [uint_text int_acc Pos.of_uint];
    [reflexivity|exact IH|..];
    match goal with
    | |- context [digit_val ?c] =>
        change (digit_val c) with (Some (c - 48)%N); cbv beta iota
    end;
    rewrite <- int_acc_uint_pos; reflexivity.
Qed.

Lemma uint_text_digits (d : Decimal.uint) :
  Forall (fun c => c <> chr ";") (uint_text d).
Proof.
  induction d; cbn [uint_text]; constructor; trivial; discriminate.
Qed.

(** The digits [str(n)] writes denote [n]. *)
Lemma int_acc_py_str (n : N) : int_acc 0 (py_str n) = Some n.
Proof.
  unfold py_str. rewrite int_acc_uint, DecimalN.Unsigned.of_to. reflexivity.
Qed.

Lemma py_str_nonempty (n : N) : py_str n <> [].
Proof.
  intros E. pose proof (int_acc_py_str n) as H. rewrite E in H.
  (* an empty numeral would denote 0, and 0 prints as a digit *)
  simpl in H. inversion H; subst. discriminate E.
Qed.


(** Whatever [int] reads from [str(n)] is [n]. *)
Lemma py_int_py_str_inv (n m : N) : py_int (py_str n) = Some m -> m = n.
Proof.
  intros H. apply py_int_some in H as [H _].
  rewrite int_acc_py_str in H. congruence.
Qed.

Lemma split_no_sep (x : text) :
  Forall (fun c => c <> chr ";") x -> split (chr ";") x = [x].
Proof.
  induction 1 as [|c x Hc _ IH]; cbn [split]; [reflexivity|].
  apply N.eqb_neq in Hc. rewrite Hc, IH. reflexivity.
Qed.

Lemma split_app_sep (x rest : text) :
  Forall (fun c => c <> chr ";") x ->
  split (chr ";") (x ++ chr ";" :: rest) = x :: split (chr ";") rest.
Proof.
  induction 1 as [|c x Hc _ IH]; cbn [split app].
  - rewrite N.eqb_refl. reflexivity.
  - apply N.eqb_neq in Hc. rewrite Hc, IH. reflexivity.
Qed.

Lemma split_join (parts : list text) :
  parts <> [] -> Forall (Forall (fun c => c <> chr ";")) parts ->
  split (chr ";") (join [chr ";"] parts) = parts.
Proof.
  intros Hne Hall. revert Hne.
  induction Hall as [|p ps Hp Hps IH]; intros Hne;
    [exfalso; apply Hne; reflexivity|].
  destruct ps as [|q ps].
  - cbn [join]. apply split_no_sep, Hp.
  - change (join [chr ";"] (p :: q :: ps))
      with (p ++ chr ";" :: join [chr ";"] (q :: ps)).
    rewrite (split_app_sep _ _ Hp), IH by discriminate. reflexivity.
Qed.


Lemma parse_params_py_str_inv (l : list N) :
  forall l', parse_params (map py_str l) = Some l' -> l' = l.
Proof.
  induction l as [|n l IH]; cbn [map parse_params]; intros l' H;
    [congruence|].
  destruct (py_str n) as [|c s] eqn:E; [destruct (py_str_nonempty n E)|].
  rewrite <- E in H.
  destruct (py_int (py_str n)) as [m|] eqn:Em; [|discriminate].
  apply py_int_py_str_inv in Em. subst m.
  destruct (parse_params (map py_str l)) as [r|]; [|discriminate].
  rewrite (IH r eq_refl) in H. cbn [option_map] in H. congruence.
Qed.

Lemma split_serialized (l : list N) :
  l <> [] ->
  split (chr ";") (join [chr ";"] (map py_str l)) = map py_str l.
Proof.
  intros Hne. apply split_join.
  - destruct l; [contradiction|discriminate].
  - apply Forall_forall. intros x Hx. apply in_map_iff in Hx as (m & <- & _).
    apply uint_text_digits.
Qed.


Lemma serialized_params_parse_inv (l l' : list N) :
  parse_params (split (chr ";") (join [chr ";"] (map py_str l))) = Some l' ->
  l' = l.
Proof.
  destruct l as [|n l]; [cbn; congruence|].
  rewrite split_serialized by discriminate.
  apply parse_params_py_str_inv.
Qed.

(** ** ice_fix: the digit limit *)

Lemma uint_text_length (d : Decimal.uint) :
  length (uint_text d) = Decimal.nb_digits d.
Proof. induction d; cbn [uint_text length Decimal.nb_digits]; congruence. Qed.

(** A string [int] converts is a decimal numeral. *)
Lemma int_acc_uint_text (p : text) :
  forall acc n, int_acc acc p = Some n -> exists d, p = uint_text d.
Proof.
  induction p as [|c p IH]; intros acc n H.
  - exists Decimal.Nil. reflexivity.
  - cbn [int_acc] in H. unfold digit_val in H.
    destruct ((48 <=? c)%N && (c <=? 57)%N) eqn:E; [|discriminate].
    destruct (IH _ _ H) as [d ->].
    apply andb_prop in E as [E1 E2]. apply N.leb_le in E1, E2.
    assert (c = 48 \/ c = 49 \/ c = 50 \/ c = 51 \/ c = 52 \/ c = 53
            \/ c = 54 \/ c = 55 \/ c = 56 \/ c = 57)%N as Hc by lia.
    destruct Hc as [->|[->|[->|[->|[->|[->|[->|[->|[->| ->]]]]]]]]].
    + exists (Decimal.D0 d). reflexivity.
    + exists (Decimal.D1 d). reflexivity.
    + exists (Decimal.D2 d). reflexivity.
    + exists (Decimal.D3 d). reflexivity.
    + exists (Decimal.D4 d). reflexivity.
    + exists (Decimal.D5 d). reflexivity.
    + exists (Decimal.D6 d). reflexivity.
    + exists (Decimal.D7 d). reflexivity.
    + exists (Decimal.D8 d). reflexivity.
    + exists (Decimal.D9 d). reflexivity.
Qed.

(** [str(int(p))] is never longer than [p]. *)
Lemma py_str_shorter (p : text) (n : N) :
  p <> [] -> int_acc 0 p = Some n -> length (py_str n) <= length p.
Proof.
  intros Hne H. destruct (int_acc_uint_text p _ _ H) as [d ->].
  rewrite int_acc_uint in H. injection H as <-.
  unfold py_str. rewrite DecimalN.Unsigned.to_of, !uint_text_length.
  apply DecimalFacts.nb_digits_unorm. intros ->. apply Hne. reflexivity.
Qed.

Lemma py_int_value_within (p : text) (n : N) :
  py_int p = Some n -> within_digit_limit (py_str n) = true.
Proof.
  intros H. assert (p <> []) as Hne by (intros ->; discriminate H).
  apply py_int_some in H as [H Hl].
  pose proof (py_str_shorter p n Hne H) as Hlen.
  unfold within_digit_limit in *. apply N.leb_le in Hl. apply N.leb_le. lia.
Qed.

Lemma parse_params_values (pieces : list text) :
  forall params,
    parse_params pieces = Some params ->
    forallb within_digit_limit (map py_str params) = true.
Proof.
  induction pieces as [|p ps IH]; cbn [parse_params]; intros params H.
  - injection H as <-. reflexivity.
  - destruct p as [|c p]; [apply IH, H|].
    destruct (py_int (c :: p)) as [n|] eqn:E; [|discriminate].
    destruct (parse_params ps) as [l|]; [|discriminate].
    injection H as <-. cbn [map forallb].
    rewrite (py_int_value_within _ _ E), (IH l eq_refl). reflexivity.
Qed.

Lemma spec_param_within (p : N) :
  within_digit_limit (py_str p) = true ->
  forallb within_digit_limit (map py_str (spec_param p)) = true.
Proof.
  intros H. unfold spec_param.
  destruct ((40 <=? p)%N && (p <=? 47)%N) eqn:E.
  - apply andb_prop in E as [E1 E2]. apply N.leb_le in E1, E2.
    assert (p = 40 \/ p = 41 \/ p = 42 \/ p = 43 \/ p = 44 \/ p = 45
            \/ p = 46 \/ p = 47)%N as Hp by lia.
    destruct Hp as [->|[->|[->|[->|[->|[->|[->| ->]]]]]]]; reflexivity.
  - destruct (N.eqb p 5); [reflexivity|].
    cbn [map forallb]. rewrite H. reflexivity.
Qed.

(** Inside [repl], [str] is applied to numbers within the digit limit
    only, so it does not raise there. *)
Lemma repl_str_within_limit (raw : text) (params : list N) :
  parse_params (split (chr ";") raw) = Some params ->
  forallb within_digit_limit (map py_str (ice_out params)) = true.
Proof.
  intros H. apply parse_params_values in H. rewrite ice_out_spec.
  induction params as [|p ps IH]; [reflexivity|].
  cbn [map forallb flat_map] in *. apply andb_prop in H as [H1 H2].
  rewrite map_app, forallb_app, (spec_param_within p H1), (IH H2).
  reflexivity.
Qed.

Lemma repeat_sgr_char (c : char) (n : nat) :
  sgr_char c -> Forall sgr_char (repeat c n).
Proof.
  intros Hc. apply Forall_forall. intros x Hx.
  apply repeat_spec in Hx. subst x. exact Hc.
Qed.

(** C6, counterexample.  In [ESC [ 5 ; 9...9 m] with 4301 nines the
    parameter list holds a 5, yet [ice_fix] keeps the sequence as it is:
    [int] raises on the long parameter and [repl] returns the match. *)
Lemma ice_fix_keeps_long_parameter :
  ~ (forall pre raw post params,
        Forall sgr_char raw ->
        spec_params (split (chr ";") raw) = Some params ->
        In 5%N params ->
        ice_fix (pre ++ sgr_seq raw ++ post)
        = ice_fix pre
            ++ sgr_seq (join [chr ";"] (map py_str (flat_map spec_param params)))
            ++ ice_fix post).
Proof.
  intros H.
  set (raw := str "5;" ++ repeat (chr "9") 4301).
  assert (Forall sgr_char raw) as Hraw.
  { apply Forall_app. split; [repeat constructor|].
    apply repeat_sgr_char. reflexivity. }
  assert (forallb within_digit_limit (split (chr ";") raw) = false) as Hlim
      by (vm_compute; reflexivity).
  assert (spec_params (split (chr ";") raw) = Some [5; 10 ^ 4301 - 1]%N) as Hsp
      by (vm_compute; reflexivity).
  specialize (H [] raw [] _ Hraw Hsp (or_introl eq_refl)).
  rewrite (ice_fix_sequence [] raw [] Hraw) in H.
  rewrite (repl_unparsed raw (parse_params_over_limit _ Hlim)) in H.
  rewrite !ice_fix_nil, !app_nil_r in H. cbn [app] in H.
  apply (f_equal (fun s => nth 2 s 0%N)) in H.
  vm_compute in H. discriminate H.
Qed.

(** C10, counterexample.  In [ESC [ 0...05 m] with 4300 zeros the only
    parameter is 5, yet [ice_fix] keeps the sequence as it is instead of
    writing [ESC [ m]. *)
Lemma ice_fix_keeps_long_blink :
  ~ (forall pre raw post params,
        Forall sgr_char raw ->
        spec_params (split (chr ";") raw) = Some params ->
        params <> [] -> Forall (eq 5%N) params ->
        ice_fix (pre ++ sgr_seq raw ++ post)
        = ice_fix pre ++ sgr_seq [] ++ ice_fix post).
Proof.
  intros H.
  set (raw := repeat (chr "0") 4300 ++ str "5").
  assert (Forall sgr_char raw) as Hraw.
  { apply Forall_app. split; [|repeat constructor].
    apply repeat_sgr_char. reflexivity. }
  assert (forallb within_digit_limit (split (chr ";") raw) = false) as Hlim
      by (vm_compute; reflexivity).
  assert (spec_params (split (chr ";") raw) = Some [5%N]) as Hsp
      by (vm_compute; reflexivity).
  specialize (H [] raw [] _ Hraw Hsp).
  rewrite (ice_fix_sequence [] raw [] Hraw) in H.
  rewrite (repl_unparsed raw (parse_params_over_limit _ Hlim)) in H.
  rewrite !ice_fix_nil, !app_nil_r in H. cbn [app] in H.
  assert (sgr_seq raw = sgr_seq []) as E
      by (apply H; [discriminate|repeat constructor]).
  apply (f_equal (@length char)) in E. vm_compute in E. discriminate E.
Qed.

(** * Further properties *)

(** ** tokenize_ansi: the shape of what it yields *)

Lemma skipn_two (t : text) (i : nat) :
  i + 1 < length t ->
  skipn i t = get t i :: get t (i + 1) :: skipn (i + 2) t.
Proof.
  intros H. rewrite (skipn_get t i) by lia. f_equal.
  rewrite (skipn_get t (S i)) by lia.
  replace (S i) with (i + 1) at 1 by lia.
  replace (S (S i)) with (i + 2) by lia. reflexivity.
Qed.

Lemma regular_text_shape (t : text) (sm : bool) (i : nat) out c :
  i < length t -> regular_text t i = (out, c) -> Forall (token_shape sm) out.
Proof.
  unfold regular_text, find. intros Hi H.
  assert (skipn i t <> []) as Hne.
  { rewrite (skipn_get t i Hi). discriminate. }
  destruct (index_of ESC (skipn i t)) as [k|] eqn:E; simpl in H.
  - inversion H; subst. destruct (i <? i + k) eqn:L; constructor; [|constructor].
    apply Nat.ltb_lt in L. left. cbn [fst snd]. unfold slice.
    replace (i + k - i) with k by lia.
    split; [reflexivity|]. split; [|apply (index_of_some ESC _ k E)].
    destruct k as [|k]; [lia|].
    destruct (skipn i t); [congruence|discriminate].
  - inversion H; subst. constructor; [|constructor].
    left. cbn [fst snd]. split; [reflexivity|]. split; [exact Hne|].
    apply index_of_none, E.
Qed.

Lemma in_str_true (c : char) (s : string) :
  in_str c s = true -> In c (str s).
Proof.
  unfold in_str. intros H. apply existsb_exists in H as (x & Hin & Hx).
  apply N.eqb_eq in Hx. subst x. exact Hin.
Qed.

Lemma in_str_false (c : char) (s : string) :
  in_str c s = false -> ~ In c (str s).
Proof.
  unfold in_str. intros H Hin.
  assert (existsb (N.eqb c) (str s) = true) as E; [|congruence].
  apply existsb_exists. exists c. split; [exact Hin|apply N.eqb_refl].
Qed.

(** The [if]/[elif] chain tags a sequence as the list of classes says. *)
Lemma classify_tag (sm : bool) (ps : text) (final : char) :
  csi_tag sm ps final (classify sm final (csi_seq ps final)).
Proof.
  unfold classify.
  destruct (N.eqb_spec final (chr "m")) as [Em|Em]; [apply tag_sgr, Em|].
  destruct (in_str final "Hf") eqn:E2.
  { apply tag_cup. apply in_str_true in E2. simpl in E2 |- *. intuition. }
  destruct (in_str final "ABCD") eqn:E3.
  { apply tag_cursor_move. apply in_str_true in E3. simpl in E3 |- *.
    intuition. }
  destruct (N.eqb_spec final (chr "J")) as [EJ|EJ]; [apply tag_ed, EJ|].
  destruct (N.eqb_spec final (chr "K")) as [EK|EK]; [apply tag_el, EK|].
  destruct (in_str final "hl" && existsb (N.eqb (chr "?")) (csi_seq ps final))
    eqn:E6.
  { apply andb_prop in E6 as [Eh Eq]. apply in_str_true in Eh.
    apply existsb_exists in Eq as (x & Hin & Hx). apply N.eqb_eq in Hx.
    subst x. apply tag_dec; [simpl in Eh |- *; intuition|].
    unfold csi_seq in Hin.
    destruct Hin as [Hin|[Hin|Hin]]; [discriminate Hin|discriminate Hin|].
    apply in_app_or in Hin as [Hin|[Hin|[]]]; [exact Hin|].
    subst final. simpl in Eh. intuition discriminate. }
  destruct (in_str final "su") eqn:E7.
  { apply tag_cursor_save. apply in_str_true in E7. simpl in E7 |- *.
    intuition. }
  apply tag_unknown.
  - destruct (in_str final "mHfABCDJKsu") eqn:K; [|reflexivity].
    apply in_str_true in K. apply in_str_false in E2, E3, E7.
    simpl in K, E2, E3, E7, Em, EJ, EK. exfalso. intuition.
  - intros Eh Hq. rewrite Eh in E6. cbn [andb] in E6.
    assert (existsb (N.eqb (chr "?")) (csi_seq ps final) = true) as E;
      [|congruence].
    apply existsb_exists. exists (chr "?"). split; [|reflexivity].
    unfold csi_seq. right. right. apply in_or_app. left. exact Hq.
Qed.

Lemma csi_tag_modes (sm : bool) (ps : text) (final : char) (ty : token_type) :
  csi_tag sm ps final ty ->
  (sm = true -> ty <> Tother) /\ (sm = false -> ty <> Tdrop).
Proof.
  intros H. destruct H; split; intros Hs; subst; discriminate.
Qed.

(** Where the inner loop of the OSC branch stops, it has passed a body
    without terminator and then one terminator. *)
Lemma osc_end_some (s : text) :
  forall k,
    osc_end s = Some k ->
    exists body term,
      firstn k s = body ++ term /\ osc_body body = true
      /\ (term = [BEL] \/ term = [ESC; chr "\"]).
Proof.
  induction s as [|c s IH]; intros k H; [discriminate|].
  cbn [osc_end] in H.
  destruct (N.eqb_spec c BEL) as [->|Hb].
  { inversion H; subst. exists [], [BEL]. repeat split. left. reflexivity. }
  destruct s as [|c' s'].
  { simpl in H. discriminate. }
  destruct (N.eqb c ESC && N.eqb c' (chr "\")) eqn:Ep.
  { inversion H; subst. apply andb_prop in Ep as [E1 E2].
    apply N.eqb_eq in E1, E2. subst.
    exists [], [ESC; chr "\"]. repeat split. right. reflexivity. }
  destruct (osc_end (c' :: s')) as [k'|] eqn:Ek; [|discriminate].
  inversion H; subst.
  destruct (IH k' eq_refl) as (body & term & Hf & Hbody & Hterm).
  exists (c :: body), term. split; [cbn [firstn app]; rewrite Hf; reflexivity|].
  split; [|exact Hterm].
  cbn [osc_body]. rewrite Hbody, andb_true_r.
  apply N.eqb_neq in Hb. rewrite Hb. cbn [negb andb].
  destruct body as [|x body']; [rewrite andb_false_r; reflexivity|].
  destruct k' as [|k']; [destruct Hterm as [-> | ->]; discriminate Hf|].
  cbn [firstn app] in Hf. injection Hf as <- _. rewrite Ep. reflexivity.
Qed.

Lemma osc_end_none (s : text) : osc_end s = None -> osc_body s = true.
Proof.
  induction s as [|c s IH]; [reflexivity|].
  cbn [osc_end osc_body].
  destruct (N.eqb c BEL); [discriminate|].
  destruct s as [|c' s'].
  - intros _. rewrite andb_false_r. reflexivity.
  - destruct (N.eqb c ESC && N.eqb c' (chr "\")); [discriminate|].
    destruct (osc_end (c' :: s')); [discriminate|].
    intros _. rewrite (IH eq_refl). reflexivity.
Qed.

Lemma loop_body_shape (t : text) (sm : bool) (i : nat) out c :
  i < length t -> loop_body t sm i = (out, c) -> Forall (token_shape sm) out.
Proof.
  intros Hi H. unfold loop_body in H.
  destruct (N.eqb (get t i) ESC && (i + 1 <? length t)) eqn:E0;
    [|apply (regular_text_shape t sm i out c Hi H)].
  apply andb_prop in E0 as [He Hlt].
  apply N.eqb_eq in He. apply Nat.ltb_lt in Hlt.
  destruct (N.eqb (get t (i + 1)) (chr "[")) eqn:Eb.
  - apply N.eqb_eq in Eb.
    destruct (i + 2 + span_params (skipn (i + 2) t) <? length t) eqn:L;
      [|apply (regular_text_shape t sm i out c Hi H)].
    apply Nat.ltb_lt in L. inversion H; subst.
    constructor; [|constructor].
    right. left. cbn [fst snd]. rewrite (csi_slice t i He Eb L).
    eexists. eexists. split; [reflexivity|]. split; [apply span_params_run|].
    split; [|apply classify_tag].
    rewrite <- get_skipn. apply span_params_stop.
    rewrite length_skipn. lia.
  - destruct (N.eqb (get t (i + 1)) (chr "]") && sm) eqn:Eo;
      [|apply (regular_text_shape t sm i out c Hi H)].
    apply andb_prop in Eo as [Ec Hsm]. apply N.eqb_eq in Ec.
    assert (forall k,
               slice t i (i + 2 + k)
               = ESC :: chr "]" :: firstn k (skipn (i + 2) t)) as Hslice.
    { intros k. unfold slice. replace (i + 2 + k - i) with (S (S k)) by lia.
      rewrite (skipn_two t i Hlt), He, Ec. reflexivity. }
    destruct (osc_end (skipn (i + 2) t)) as [k|] eqn:Ek; inversion H; subst;
      (constructor; [|constructor]); right; right; cbn [fst snd];
      (split; [reflexivity|]); (split; [reflexivity|]).
    + destruct (osc_end_some _ k Ek) as (body & term & Hf & Hbody & Hterm).
      exists body, term. rewrite Hslice, Hf.
      split; [reflexivity|]. split; [exact Hbody|].
      destruct Hterm as [-> | ->]; [left|right; left]; reflexivity.
    + exists (skipn (i + 2) t), []. rewrite app_nil_r.
      split; [rewrite (skipn_two t i Hlt), He, Ec; reflexivity|].
      split; [apply osc_end_none, Ek|]. right. right. reflexivity.
Qed.

Lemma run_shape (fuel : nat) (t : text) (sm : bool) :
  forall i out c, run fuel t sm i = (out, c) -> Forall (token_shape sm) out.
Proof.
  induction fuel as [|fuel IH]; intros i out c H; simpl in H.
  - inversion H; subst. constructor.
  - destruct (i <? length t) eqn:L; [|inversion H; subst; constructor].
    apply Nat.ltb_lt in L.
    destruct (loop_body t sm i) as [o1 [i1|]] eqn:B;
      pose proof (loop_body_shape t sm i _ _ L B) as H1.
    + destruct (run fuel t sm i1) as [o2 c2] eqn:R.
      inversion H; subst. apply Forall_app. split; [exact H1|].
      apply (IH i1 o2 c R).
    + inversion H; subst. exact H1.
Qed.

(** X1.  Every token [tokenize_ansi] yields, in either mode and however
    far the generator is run, has one of three shapes: a non-empty text run
    without any escape; a CSI sequence (escape, bracket, parameter
    characters, one final byte that is no parameter character) whose tag is
    the class of its final byte ([m] sgr, [H f] cup, [A B C D] cursor_move,
    [J] ed, [K] el, [h l] with a question mark among the parameters dec,
    [s u] cursor_save, anything else drop in safe mode and other
    otherwise); or, in safe mode only, an OSC sequence tagged [drop], which
    is escape, closing bracket, a body without bell and without
    escape-backslash pair, and then one bell, one escape-backslash pair, or
    nothing.  In particular no yielded token is empty. *)
Theorem tokens_are_well_shaped (fuel : nat) (t : text) (sm : bool) :
  Forall (token_shape sm) (fst (run fuel t sm 0))
  /\ Forall (fun tk => snd tk <> []) (fst (run fuel t sm 0)).
Proof.
  assert (Forall (token_shape sm) (fst (run fuel t sm 0))) as H.
  { destruct (run fuel t sm 0) as [out c] eqn:R.
    apply (run_shape fuel t sm 0 out c R). }
  split; [exact H|].
  eapply Forall_impl; [|exact H].
  intros [ty s] [(_ & Hne & _)|[(ps & f & Hs & _)|(_ & _ & body & tm & Hs & _)]];
    cbn [snd] in *; [exact Hne| |]; rewrite Hs; discriminate.
Qed.

(** X2.  With [safe_mode] on, no token is ever tagged [other]; with
    [safe_mode] off, no token is ever tagged [drop], so nothing is marked
    for removal and OSC sequences are not recognized at all. *)
Theorem drop_only_in_safe_mode (fuel : nat) (t : text) :
  Forall (fun tk => fst tk <> Tother) (fst (run fuel t true 0))
  /\ Forall (fun tk => fst tk <> Tdrop) (fst (run fuel t false 0)).
Proof.
  split.
  - destruct (run fuel t true 0) as [out c] eqn:R. cbn [fst].
    eapply Forall_impl; [|apply (run_shape fuel t true 0 out c R)].
    intros [ty s] [(Ht & _)|[(ps & f & _ & _ & _ & Ht)|(_ & Ht & _)]];
      cbn [fst snd] in *; try (rewrite Ht; discriminate).
    apply (csi_tag_modes true ps f ty Ht), eq_refl.
  - destruct (run fuel t false 0) as [out c] eqn:R. cbn [fst].
    eapply Forall_impl; [|apply (run_shape fuel t false 0 out c R)].
    intros [ty s] [(Ht & _)|[(ps & f & _ & _ & _ & Ht)|(Hsm & _)]];
      cbn [fst snd] in *; try discriminate; try (rewrite Ht; discriminate).
    apply (csi_tag_modes false ps f ty Ht), eq_refl.
Qed.

(** ** tokenize_ansi: the input it gets through *)

Lemma osc_end_open (body : text) : osc_body body = true -> osc_end body = None.
Proof.
  induction body as [|c body IH]; [reflexivity|].
  cbn [osc_body osc_end]. intros H.
  apply andb_prop in H as [H H3]. apply andb_prop in H as [H1 H2].
  apply negb_true_iff in H1, H2. rewrite H1, (IH H3).
  destruct body as [|c' body']; [reflexivity|].
  rewrite H2. reflexivity.
Qed.

Lemma osc_end_terminated (body term rest : text) :
  osc_body body = true ->
  term = [BEL] \/ term = [ESC; chr "\"] ->
  osc_end (body ++ term ++ rest) = Some (length body + length term).
Proof.
  intros Hb Ht. induction body as [|c body IH].
  - destruct Ht as [-> | ->]; reflexivity.
  - cbn [osc_body] in Hb.
    apply andb_prop in Hb as [Hb H3]. apply andb_prop in Hb as [H1 H2].
    apply negb_true_iff in H1, H2. specialize (IH H3).
    cbn [app osc_end length Nat.add]. rewrite H1.
    destruct body as [|c' body'].
    + cbn [app] in *. rewrite andb_false_r in H2.
      destruct Ht as [-> | ->]; cbn [app] in *.
      * replace (N.eqb c ESC && N.eqb BEL (chr "\")) with false
          by (rewrite andb_false_r; reflexivity).
        rewrite IH. reflexivity.
      * replace (N.eqb c ESC && N.eqb ESC (chr "\")) with false
          by (rewrite andb_false_r; reflexivity).
        rewrite IH. reflexivity.
    + cbn [app] in *. rewrite H2, IH. reflexivity.
Qed.

Lemma complete_skip_plain (sm : bool) (k : nat) :
  forall s, complete sm s -> Forall (fun c => c <> ESC) (firstn k s) ->
            complete sm (skipn k s).
Proof.
  induction k as [|k IH]; intros s Hs Hplain; [exact Hs|].
  destruct s as [|c s]; [exact Hs|].
  cbn [firstn] in Hplain. inversion Hplain as [|? ? Hc Hrest]; subst.
  cbn [skipn]. apply IH; [|exact Hrest].
  inversion Hs; subst; trivial; unfold csi_seq in *; cbn [app] in *; congruence.
Qed.

(** On complete text the loop comes to an end. *)
Lemma complete_run (n : nat) (t : text) (sm : bool) :
  forall i,
    length t - i <= n -> i <= length t -> complete sm (skipn i t) ->
    exists fuel toks, run fuel t sm i = (toks, Stop).
Proof.
  induction n as [|n IH]; intros i Hn Hi Hs.
  - exists 1, []. simpl.
    assert ((i <? length t) = false) as -> by (apply Nat.ltb_ge; lia).
    reflexivity.
  - destruct (Nat.eq_dec i (length t)) as [->|Hne].
    { exists 1, []. simpl. rewrite Nat.ltb_irrefl. reflexivity. }
    assert (i < length t) as Hlt by lia. clear Hne Hi.
    assert (forall k, get t (i + k) = nth k (skipn i t) 0%N) as Hget
        by (intros k; symmetry; apply get_skipn).
    assert (forall k, skipn (i + k) t = skipn k (skipn i t)) as Hskip
        by (intros k; rewrite skipn_skipn; f_equal; lia).
    assert (length (skipn i t) = length t - i) as Hlen by apply length_skipn.
    pose proof Hlt as Hltb. apply Nat.ltb_lt in Hltb.
    remember (skipn i t) as s eqn:Es.
    destruct Hs as [|c rest Hc Hrest|ps f rest Hps Hf Hrest
                    |body term rest Hsm Hbody Hterm Hrest|body Hsm Hbody].
    + simpl in Hlen. lia.
    + (* an ordinary character *)
      assert (loop_body t sm i = regular_text t i) as Hb.
      { unfold loop_body. replace i with (i + 0) at 1 by lia.
        rewrite Hget. cbn [nth].
        apply N.eqb_neq in Hc. rewrite Hc. reflexivity. }
      unfold regular_text, find in Hb. rewrite <- Es in Hb.
      destruct (index_of ESC (c :: rest)) as [k|] eqn:E; cbn [option_map] in Hb.
      * destruct (index_of_some ESC _ k E) as [Hplain _].
        pose proof (index_of_bound ESC _ k E) as Hk.
        assert (k <> 0) as Hk0.
        { intros ->. simpl in E. apply N.eqb_neq in Hc. rewrite Hc in E.
          destruct (index_of ESC rest); discriminate. }
        destruct (IH (i + k)) as (fuel & toks & Hrun).
        -- rewrite Hlen in Hk. lia.
        -- rewrite Hlen in Hk. lia.
        -- rewrite Hskip. apply complete_skip_plain; [|exact Hplain].
           apply complete_plain; assumption.
        -- exists (S fuel). eexists. cbn [run]. rewrite Hltb, Hb, Hrun.
           reflexivity.
      * exists 1. eexists. cbn [run]. rewrite Hltb, Hb. reflexivity.
    + (* a CSI sequence *)
      assert (csi_seq ps f ++ rest = ESC :: chr "[" :: ps ++ f :: rest) as Eseq.
      { unfold csi_seq. cbn [app]. rewrite <- app_assoc. reflexivity. }
      rewrite Eseq in Hget, Hskip, Hlen. clear Es.
      cbn [length] in Hlen. rewrite length_app in Hlen. cbn [length] in Hlen.
      assert (get t i = ESC) as He.
      { replace i with (i + 0) at 1 by lia. rewrite Hget. reflexivity. }
      assert (get t (i + 1) = chr "[") as Hbr.
      { rewrite Hget. reflexivity. }
      assert (span_params (skipn (i + 2) t) = length ps) as Hspan.
      { rewrite Hskip. apply span_params_exact; assumption. }
      assert (exists tk, loop_body t sm i = ([tk], Next (i + 2 + length ps + 1)))
        as [tk Hb].
      { unfold loop_body. rewrite He, Hbr, !N.eqb_refl.
        assert ((i + 1 <? length t) = true) as -> by (apply Nat.ltb_lt; lia).
        cbn [andb]. rewrite Hspan.
        assert ((i + 2 + length ps <? length t) = true) as ->
            by (apply Nat.ltb_lt; lia).
        eexists. reflexivity. }
      destruct (IH (i + 2 + length ps + 1)) as (fuel & toks & Hrun).
      * lia.
      * lia.
      * replace (i + 2 + length ps + 1) with (i + (length ps + 3)) by lia.
        rewrite Hskip.
        replace (length ps + 3) with (S (S (length ps + 1))) by lia.
        cbn [skipn]. rewrite skipn_app, skipn_all2 by lia.
        replace (length ps + 1 - length ps) with 1 by lia. exact Hrest.
      * exists (S fuel). eexists. cbn [run]. rewrite Hltb, Hb, Hrun. reflexivity.
    + (* a terminated OSC sequence, safe mode *)
      subst sm. clear Es.
      cbn [length] in Hlen. rewrite !length_app in Hlen.
      assert (1 <= length term) as Hterm1
          by (destruct Hterm as [-> | ->]; simpl; lia).
      assert (get t i = ESC) as He.
      { replace i with (i + 0) at 1 by lia. rewrite Hget. reflexivity. }
      assert (get t (i + 1) = chr "]") as Hbr.
      { rewrite Hget. reflexivity. }
      assert (osc_end (skipn (i + 2) t) = Some (length body + length term))
        as Hosc.
      { rewrite Hskip. cbn [skipn]. apply osc_end_terminated; assumption. }
      assert (exists tk,
                 loop_body t true i
                 = ([tk], Next (i + 2 + (length body + length term))))
        as [tk Hb].
      { unfold loop_body. rewrite He, Hbr, !N.eqb_refl.
        assert ((i + 1 <? length t) = true) as -> by (apply Nat.ltb_lt; lia).
        cbn [andb]. change (N.eqb (chr "]") (chr "[")) with false. cbv iota.
        rewrite Hosc. eexists. reflexivity. }
      destruct (IH (i + 2 + (length body + length term)))
        as (fuel & toks & Hrun).
      * lia.
      * lia.
      * replace (i + 2 + (length body + length term))
          with (i + S (S (length body + length term))) by lia.
        rewrite Hskip. cbn [skipn].
        rewrite app_assoc, skipn_app, skipn_all2
          by (rewrite length_app; lia).
        rewrite length_app, Nat.sub_diag. exact Hrest.
      * exists (S fuel). eexists. cbn [run]. rewrite Hltb, Hb, Hrun. reflexivity.
    + (* an OSC sequence without terminator, safe mode *)
      subst sm. clear Es. cbn [length] in Hlen.
      assert (get t i = ESC) as He.
      { replace i with (i + 0) at 1 by lia. rewrite Hget. reflexivity. }
      assert (get t (i + 1) = chr "]") as Hbr.
      { rewrite Hget. reflexivity. }
      assert (osc_end (skipn (i + 2) t) = None) as Hosc.
      { rewrite Hskip. cbn [skipn]. apply osc_end_open, Hbody. }
      exists 1. eexists. cbn [run]. rewrite Hltb. unfold loop_body.
      rewrite He, Hbr, !N.eqb_refl.
      assert ((i + 1 <? length t) = true) as ->.
      { apply Nat.ltb_lt.
        destruct (Nat.eq_dec (i + 1) (length t)) as [E|E]; [|lia].
        exfalso. unfold get in Hbr. rewrite nth_overflow in Hbr by lia.
        discriminate. }
      cbn [andb]. change (N.eqb (chr "]") (chr "[")) with false. cbv iota.
      rewrite Hosc. reflexivity.
Qed.

(** X3.  On text in which every escape opens a complete CSI sequence or,
    in safe mode, an OSC sequence, [tokenize_ansi] terminates, and the
    contents of its tokens, concatenated, are the input. *)
Theorem tokenize_ansi_on_complete_text (t : text) (sm : bool) :
  complete sm t ->
  exists fuel toks,
    tokenize_ansi fuel t sm = Some toks /\ contents toks = t.
Proof.
  intros Hc.
  destruct (complete_run (length t) t sm 0) as (fuel & toks & Hrun);
    [lia|lia|exact Hc|].
  exists fuel, toks.
  assert (tokenize_ansi fuel t sm = Some toks) as H
      by (unfold tokenize_ansi; rewrite Hrun; reflexivity).
  split; [exact H|apply (tokenize_ansi_contents fuel t sm toks H)].
Qed.

Lemma tokenize_ansi_on_complete_text_witness :
  exists fuel toks,
    tokenize_ansi fuel
      (str "Hi" ++ csi_seq (str "1;31") (chr "m") ++ ESC :: str "]0;t"
         ++ [BEL] ++ str "x") true = Some toks
    /\ contents toks
       = str "Hi" ++ csi_seq (str "1;31") (chr "m") ++ ESC :: str "]0;t"
           ++ [BEL] ++ str "x".
Proof.
  apply tokenize_ansi_on_complete_text.
  apply (complete_plain true (chr "H")); [discriminate|].
  apply (complete_plain true (chr "i")); [discriminate|].
  apply (complete_csi true (str "1;31") (chr "m")); [|reflexivity|].
  { repeat constructor. }
  apply (complete_osc true (str "0;t") [BEL] (str "x"));
    [reflexivity|reflexivity|left; reflexivity|].
  apply (complete_plain true (chr "x")); [discriminate|].
  apply complete_nil.
Defined.

(** X4.  Whatever [tokenize_ansi] has yielded after any number of
    iterations is, concatenated, a prefix of the input: the generator never
    reorders, alters or invents characters.  Once it is exhausted the
    prefix is the whole input. *)
Theorem yielded_tokens_are_a_prefix (fuel : nat) (t : text) (sm : bool) :
  exists rest,
    t = contents (fst (run fuel t sm 0)) ++ rest
    /\ (snd (run fuel t sm 0) = Stop -> rest = []).
Proof.
  destruct (run fuel t sm 0) as [out c] eqn:R. cbn [fst snd].
  pose proof (run_contents fuel t sm 0 out c (Nat.le_0_l _) R) as H.
  destruct c as [j|].
  - destruct H as (_ & Hj & ->). exists (skipn j t). split; [|discriminate].
    unfold slice. rewrite Nat.sub_0_r. symmetry. apply firstn_skipn.
  - exists []. rewrite H, app_nil_r. split; reflexivity.
Qed.

(** An iteration that yields nothing and stays in place stands at an
    escape. *)
Lemma stuck_at_escape (t : text) (sm : bool) (j : nat) :
  j < length t -> loop_body t sm j = ([], Next j) -> get t j = ESC.
Proof.
  intros Hj H. destruct (N.eqb_spec (get t j) ESC) as [E|E]; [exact E|].
  exfalso. unfold loop_body in H. apply N.eqb_neq in E. rewrite E in H.
  cbn [andb] in H. unfold regular_text, find in H.
  rewrite (skipn_get t j Hj) in H. cbn [index_of] in H. rewrite E in H.
  destruct (index_of ESC (skipn (S j) t)) as [k|]; cbn [option_map] in H;
    [|discriminate].
  assert ((j <? j + S k) = true) as L by (apply Nat.ltb_lt; lia).
  rewrite L in H. discriminate.
Qed.

(** Running on from a state reached earlier. *)
Lemma run_split (a c : nat) (t : text) (sm : bool) :
  forall i,
    run (a + c) t sm i =
    match run a t sm i with
    | (o1, Stop) => (o1, Stop)
    | (o1, Next j) => let (o2, c2) := run c t sm j in (o1 ++ o2, c2)
    end.
Proof.
  induction a as [|a IH]; intros i.
  - cbn [Nat.add run]. destruct (run c t sm i). reflexivity.
  - cbn [Nat.add run]. destruct (i <? length t); [|reflexivity].
    destruct (loop_body t sm i) as [o1 [i1|]]; [|reflexivity].
    rewrite IH. destruct (run a t sm i1) as [o2 [j|]]; [|reflexivity].
    destruct (run c t sm j) as [o3 c3]. rewrite app_assoc. reflexivity.
Qed.

(** X5.  [tokenize_ansi] knows two outcomes only.  Either the generator is
    exhausted within [len(text) + 1] loop tests, or from some iteration on
    it stands for ever at one index that holds an escape character, having
    yielded a fixed list of tokens and yielding no more. *)
Theorem tokenize_ansi_finishes_or_hangs_at_escape (t : text) (sm : bool) :
  (exists toks, tokenize_ansi (S (length t)) t sm = Some toks)
  \/ (exists fuel0 out j,
        j < length t /\ get t j = ESC
        /\ forall k, run (fuel0 + k) t sm 0 = (out, Next j)).
Proof.
  destruct (run_finishes_or_sticks (length t) t sm 0)
    as [[out R]|(fuel0 & out & j & R & Hj & Hst)]; [lia|lia| |].
  - left. exists out. unfold tokenize_ansi. rewrite R. reflexivity.
  - right. exists fuel0, out, j.
    split; [exact Hj|]. split; [apply (stuck_at_escape t sm j Hj Hst)|].
    intros k. rewrite run_split, R, (run_stuck t sm j Hj Hst k), app_nil_r.
    reflexivity.
Qed.

(** ** filter_safe: what comes out *)

Lemma kept_contents_length (toks : list token) :
  length (contents (filter kept toks)) <= length (contents toks).
Proof.
  induction toks as [|tk toks IH]; [reflexivity|].
  cbn [filter]. unfold contents in *. cbn [map concat].
  destruct (kept tk); cbn [map concat]; rewrite ?length_app; lia.
Qed.

(** X6.  Whenever [filter_safe] returns, the text it returns consists of
    ordinary characters and of complete CSI sequences of the kept classes
    only (no OSC sequence, no unrecognized CSI sequence, no stray escape),
    and it is never longer than the input. *)
Theorem filter_safe_returns_safe_text (fuel : nat) (t u : text) :
  filter_safe fuel t = Some u -> safe_text u /\ length u <= length t.
Proof.
  intros H. split; [apply (filter_safe_output_safe fuel t u H)|].
  unfold filter_safe in H.
  destruct (tokenize_ansi fuel t true) as [toks|] eqn:T; [|discriminate].
  inversion H; subst.
  rewrite <- (tokenize_ansi_contents fuel t true toks T).
  apply kept_contents_length.
Qed.

Lemma filter_safe_returns_safe_text_witness :
  safe_text (ESC :: str "[31mRed")
  /\ length (ESC :: str "[31mRed")
     <= length (ESC :: str "[31mRed" ++ ESC :: str "]0;Title" ++ [BEL]).
Proof.
  apply (filter_safe_returns_safe_text 4). reflexivity.
Defined.

(** X7.  Safe text passes the filter: on text made of ordinary characters
    and complete CSI sequences of the kept classes, [filter_safe]
    terminates and returns its argument unchanged. *)
Theorem filter_safe_keeps_safe_text (u : text) :
  safe_text u -> exists fuel, filter_safe fuel u = Some u.
Proof. apply filter_safe_fixes_safe_text. Qed.

Lemma filter_safe_keeps_safe_text_witness :
  exists fuel,
    filter_safe fuel (str "a" ++ csi_seq (str "2") (chr "J") ++ str "b")
    = Some (str "a" ++ csi_seq (str "2") (chr "J") ++ str "b").
Proof.
  apply filter_safe_keeps_safe_text.
  apply (safe_plain (chr "a")); [discriminate|].
  apply (safe_csi (str "2") (chr "J") (str "b"));
    [repeat constructor|reflexivity|discriminate|].
  apply (safe_plain (chr "b")); [discriminate|]. apply safe_nil.
Defined.

(** X8.  Wherever [filter_safe(t)] returns, [filter_safe] applied to its
    result terminates as well and returns the same text: the filter is
    idempotent on every input it gets through. *)
Theorem filter_safe_idempotent_where_it_returns (fuel : nat) (t u : text) :
  filter_safe fuel t = Some u ->
  exists fuel',
    filter_safe fuel' t = Some u /\ filter_safe_twice fuel' t = Some u.
Proof.
  intros H.
  destruct (filter_safe_fixes_safe_text u) as [fuel2 H2].
  { apply (filter_safe_output_safe fuel t u H). }
  exists (fuel + fuel2).
  assert (filter_safe (fuel + fuel2) t = Some u) as H1
      by apply (filter_safe_more_fuel fuel fuel2 t u H).
  split; [exact H1|].
  unfold filter_safe_twice. rewrite H1, Nat.add_comm.
  apply (filter_safe_more_fuel fuel2 fuel u u H2).
Qed.

Lemma filter_safe_idempotent_where_it_returns_witness :
  exists fuel',
    filter_safe fuel' (ESC :: str "[31mRed" ++ ESC :: str "]0;Title" ++ [BEL])
    = Some (ESC :: str "[31mRed")
    /\ filter_safe_twice fuel'
         (ESC :: str "[31mRed" ++ ESC :: str "]0;Title" ++ [BEL])
       = Some (ESC :: str "[31mRed").
Proof.
  apply (filter_safe_idempotent_where_it_returns 4). reflexivity.
Defined.

(** ** ice_fix: applying it twice *)

Lemma sgr_match_plain (c : char) (s : text) :
  c <> ESC -> sgr_match (c :: s) = None.
Proof.
  intros Hc. destruct s as [|c2 r]; [reflexivity|].
  cbn [sgr_match]. apply N.eqb_neq in Hc. rewrite Hc. reflexivity.
Qed.

Lemma ice_fix_plain (p : text) :
  Forall (fun c => c <> ESC) p -> ice_fix p = p.
Proof.
  induction 1 as [|c p Hc _ IH]; [apply ice_fix_nil|].
  rewrite ice_fix_cons, (sgr_match_plain c p Hc), IH. reflexivity.
Qed.

(** Text is a run without escape, followed by nothing or by an escape. *)
Lemma split_at_escape (s : text) :
  exists p,
    Forall (fun c => c <> ESC) p
    /\ (s = p \/ exists r, s = p ++ ESC :: r).
Proof.
  induction s as [|c s (p & Hp & Hs)].
  - exists []. split; [constructor|left; reflexivity].
  - destruct (N.eqb_spec c ESC) as [->|Hc].
    + exists []. split; [constructor|right; exists s; reflexivity].
    + exists (c :: p). split; [constructor; assumption|].
      destruct Hs as [->|[r ->]]; [left|right; exists r]; reflexivity.
Qed.

(** [ice_fix] leaves the text before the first escape alone and keeps the
    escape in place. *)
Lemma ice_fix_head (s : text) :
  exists p,
    Forall (fun c => c <> ESC) p
    /\ ((s = p /\ ice_fix s = p)
        \/ exists r r', s = p ++ ESC :: r /\ ice_fix s = p ++ ESC :: r').
Proof.
  destruct (split_at_escape s) as (p & Hp & [->|[r ->]]); exists p;
    (split; [exact Hp|]).
  - left. split; [reflexivity|apply ice_fix_plain, Hp].
  - right. exists r. rewrite ice_fix_app_esc, (ice_fix_plain p Hp).
    rewrite ice_fix_cons. destruct (sgr_match (ESC :: r)) as [n|].
    + destruct (repl_shape (firstn n (skipn 1 r))) as [body ->].
      eexists. split; [reflexivity|]. cbn [app]. reflexivity.
    + eexists. split; reflexivity.
Qed.

(** A position without a match stays without a match after [ice_fix] has
    worked on the text behind it. *)
Lemma sgr_match_ice_fix_none (c : char) (s : text) :
  sgr_match (c :: s) = None -> sgr_match (c :: ice_fix s) = None.
Proof.
  intros H.
  destruct (ice_fix_head s) as (p & Hp & [[-> ->]|(r & r' & -> & ->)]);
    [exact H|].
  change (c :: p ++ ESC :: r') with ((c :: p) ++ ESC :: r').
  change (c :: p ++ ESC :: r) with ((c :: p) ++ ESC :: r) in H.
  rewrite sgr_match_app_esc in * by discriminate. exact H.
Qed.

Lemma uint_text_sgr (d : Decimal.uint) : Forall sgr_char (uint_text d).
Proof.
  induction d; cbn [uint_text]; constructor; trivial; reflexivity.
Qed.

Lemma join_sgr (parts : list text) :
  Forall (Forall sgr_char) parts -> Forall sgr_char (join [chr ";"] parts).
Proof.
  induction 1 as [|p ps Hp _ IH]; [constructor|].
  destruct ps as [|q ps]; [exact Hp|].
  change (join [chr ";"] (p :: q :: ps))
    with (p ++ chr ";" :: join [chr ";"] (q :: ps)).
  apply Forall_app. split; [exact Hp|]. constructor; [reflexivity|exact IH].
Qed.

Lemma serialized_params_sgr (l : list N) :
  Forall sgr_char (join [chr ";"] (map py_str l)).
Proof.
  apply join_sgr, Forall_forall. intros x Hx.
  apply in_map_iff in Hx as (n & <- & _). apply uint_text_sgr.
Qed.

Lemma spec_param_no_blink (params : list N) :
  existsb (N.eqb 5) (flat_map spec_param params) = false.
Proof.
  induction params as [|p ps IH]; [reflexivity|].
  cbn [flat_map]. rewrite existsb_app, IH, orb_false_r.
  unfold spec_param.
  destruct ((40 <=? p)%N && (p <=? 47)%N) eqn:E.
  - apply andb_prop in E as [E1 E2]. apply N.leb_le in E1.
    cbn [existsb]. rewrite orb_false_r. apply N.eqb_neq. lia.
  - destruct (N.eqb_spec p 5) as [->|Hne]; [reflexivity|].
    cbn [existsb]. rewrite orb_false_r. apply N.eqb_neq. congruence.
Qed.

(** A re-serialized list without 5 is a sequence [repl] leaves alone. *)
Lemma repl_serialized_no_blink (l : list N) :
  existsb (N.eqb 5) l = false ->
  repl (join [chr ";"] (map py_str l))
  = sgr_seq (join [chr ";"] (map py_str l)).
Proof.
  intros Hl.
  destruct (parse_params (split (chr ";") (join [chr ";"] (map py_str l))))
    as [l'|] eqn:E; [|apply repl_unparsed, E].
  rewrite (repl_params _ l' E).
  apply serialized_params_parse_inv in E. subst l'. rewrite Hl. reflexivity.
Qed.

(** What [repl] returns is a sequence [repl] would leave alone. *)
Lemma repl_stable (raw : text) :
  Forall sgr_char raw ->
  exists body,
    repl raw = sgr_seq body /\ Forall sgr_char body
    /\ repl body = sgr_seq body.
Proof.
  intros Hraw.
  destruct (parse_params (split (chr ";") raw)) as [params|] eqn:Hp.
  - rewrite (repl_params raw params Hp).
    destruct (existsb (N.eqb 5) params) eqn:E.
    + exists (join [chr ";"] (map py_str (flat_map spec_param params))).
      split; [reflexivity|]. split; [apply serialized_params_sgr|].
      apply repl_serialized_no_blink, spec_param_no_blink.
    + exists raw. split; [reflexivity|]. split; [exact Hraw|].
      rewrite (repl_params raw params Hp), E. reflexivity.
  - exists raw. rewrite (repl_unparsed raw Hp).
    split; [reflexivity|]. split; [exact Hraw|reflexivity].
Qed.

(** X9.  [ice_fix] is idempotent: applying it to its own result changes
    nothing, for every text. *)
Theorem ice_fix_idempotent (s : text) : ice_fix (ice_fix s) = ice_fix s.
Proof.
  remember (length s) as k eqn:Hk. revert s Hk.
  induction k as [k IH] using lt_wf_ind. intros s Hk.
  destruct s as [|c s]; [rewrite !ice_fix_nil; reflexivity|].
  rewrite (ice_fix_cons c s).
  destruct (sgr_match (c :: s)) as [n|] eqn:M.
  - destruct (sgr_match_inv c s n M) as (Hraw & _ & Hlen).
    destruct (repl_stable _ Hraw) as (body & -> & Hbody & Hst).
    pose proof (ice_fix_sequence [] body (ice_fix (skipn (n + 2) s)) Hbody)
      as H.
    cbn [app] in H. rewrite ice_fix_nil in H. cbn [app] in H.
    rewrite H, Hst. f_equal.
    apply (IH (length (skipn (n + 2) s))); [|reflexivity].
    rewrite length_skipn. subst k. simpl. lia.
  - rewrite ice_fix_cons, (sgr_match_ice_fix_none c s M). f_equal.
    apply (IH (length s)); [subst k; simpl; lia|reflexivity].
Qed.

(** ** SAUCE: what strip_sauce_tail can return *)

Lemma is_prefix_firstn (p s : bytes) :
  is_prefix p s = true <-> firstn (length p) s = p.
Proof.
  revert s. induction p as [|a p IH]; intros s; cbn [is_prefix length firstn].
  - split; reflexivity.
  - destruct s as [|c s]; [split; discriminate|].
    rewrite andb_true_iff, IH. split.
    + intros [H1 H2]. apply Byte.byte_dec_bl in H1. congruence.
    + intros H. inversion H as [[H1 H2]]. rewrite H2.
      split; [apply Byte.byte_dec_lb; reflexivity|exact H2].
Qed.

(** X10.  [strip_sauce_tail] only ever cuts: its result is a prefix of the
    input.  It returns the input unchanged exactly when the magic [SAUCE]
    starts nowhere in the last 512 bytes. *)
Theorem strip_sauce_tail_cuts_a_prefix (data : bytes) :
  (exists n, n <= length data /\ strip_sauce_tail data = firstn n data)
  /\ (strip_sauce_tail data = data
      <-> forall k, k <= length data -> length data - k <= 512 ->
                    is_prefix (b "SAUCE") (skipn k data) = false).
Proof.
  unfold strip_sauce_tail.
  destruct ((128 <=? length data) && bytes_eqb (magic_window data) (b "SAUCE"))
    eqn:E.
  - apply andb_prop in E as [E1 E2]. apply Nat.leb_le in E1.
    apply bytes_eqb_eq in E2. split.
    + exists (length data - 128). split; [lia|reflexivity].
    + split.
      * intros H. apply (f_equal (@length byte)) in H.
        rewrite length_firstn in H. lia.
      * intros H. specialize (H (length data - 128)).
        assert (is_prefix (b "SAUCE") (skipn (length data - 128) data) = true)
          as Hocc.
        { apply is_prefix_firstn. unfold magic_window, slice in E2.
          replace (length data - 123 - (length data - 128)) with 5 in E2 by lia.
          exact E2. }
        rewrite H in Hocc by lia. discriminate.
  - destruct (rfind (b "SAUCE") data) as [last|] eqn:R.
    + destruct (rfind_occurs _ _ _ R) as [Hle Hocc].
      pose proof (magic_occurs_before_end data last Hocc) as Hlt.
      destruct (length data - last <=? 512) eqn:L.
      * apply Nat.leb_le in L. split.
        -- exists last. split; [lia|reflexivity].
        -- split.
           ++ intros H. apply (f_equal (@length byte)) in H.
              rewrite length_firstn in H. lia.
           ++ intros H. rewrite (H last Hle L) in Hocc. discriminate.
      * apply Nat.leb_gt in L. split.
        -- exists (length data). split; [lia|]. symmetry. apply firstn_all.
        -- split; [|reflexivity]. intros _ k Hk Hk512.
           destruct (Nat.eq_dec k last) as [->|Hne]; [lia|].
           apply (rfind_last _ _ _ R); lia.
    + split.
      * exists (length data). split; [lia|]. symmetry. apply firstn_all.
      * split; [|reflexivity]. intros _ k Hk _. apply (rfind_none _ _ R k Hk).
Qed.

(** ** SAUCE: the record append_minimal_sauce writes *)

Lemma set_slice_at (p z v : bytes) (lo hi : nat) :
  length p = lo -> lo <= hi ->
  set_slice (p ++ z) lo hi v = p ++ v ++ skipn (hi - lo) z.
Proof.
  intros Hp Hle. unfold set_slice.
  rewrite firstn_app, skipn_app, Hp, Nat.sub_diag, firstn_all2 by lia.
  rewrite skipn_all2 by lia. cbn [firstn app]. rewrite app_nil_r. reflexivity.
Qed.

Lemma set_item_at (p z : bytes) (k : nat) (n : Z) :
  length p = k -> fits 1 n ->
  set_item (p ++ z) k n = inl (p ++ [byte_of_N (Z.to_N n)] ++ skipn 1 z).
Proof.
  intros Hp Hn. unfold fits in Hn. unfold set_item.
  assert ((0 <=? n)%Z && (n <? 256)%Z = true) as ->.
  { apply andb_true_iff. split; [apply Z.leb_le|apply Z.ltb_lt]; simpl in Hn; lia. }
  f_equal. rewrite firstn_app, skipn_app, Hp, Nat.sub_diag, firstn_all2 by lia.
  rewrite skipn_all2 by lia.
  replace (S k - k) with 1 by lia. cbn [firstn app]. rewrite app_nil_r.
  reflexivity.
Qed.

Lemma to_bytes_fits (n : Z) (width : nat) :
  fits width n -> to_bytes n width = inl (le_bytes width (Z.to_N n)).
Proof.
  unfold fits, to_bytes. intros Hn.
  assert ((n <? 0)%Z = false) as -> by (apply Z.ltb_ge; lia).
  assert ((n <? 2 ^ (8 * Z.of_nat width))%Z = true) as ->
      by (apply Z.ltb_lt; lia).
  reflexivity.
Qed.

Lemma optional_field_at (p z : bytes) (lo hi : nat) (field : option Z) :
  length p = lo -> hi = lo + 2 -> field_fits 2 field -> firstn 2 z = [x00; x00] ->
  match field with
  | Some n => v <- to_bytes n 2 ;; inl (set_slice (p ++ z) lo hi v)
  | None => inl (p ++ z)
  end = inl (p ++ le_bytes 2 (Z.to_N (or_default 0%Z field)) ++ skipn 2 z).
Proof.
  intros Hp -> Hf Hz. destruct field as [n|]; cbn [or_default field_fits] in *.
  - rewrite (to_bytes_fits n 2 Hf). cbn [bind].
    rewrite set_slice_at by lia. replace (lo + 2 - lo) with 2 by lia.
    reflexivity.
  - f_equal. f_equal. rewrite <- (firstn_skipn 2 z) at 1. rewrite Hz.
    reflexivity.
Qed.

Section RecordLayout.

Variable cp437_encode : char -> byte.
Variable today : text.

(** The record in closed form, for fields that fit. *)
Lemma append_minimal_sauce_layout (d : bytes) (f : sauce_fields) :
  fits 4 (Z.of_nat (length d)) ->
  fits 1 (datatype f) -> fits 1 (filetype f) ->
  field_fits 2 (tinfo1 f) -> field_fits 2 (tinfo2 f) ->
  append_minimal_sauce cp437_encode today d f
  = inl (d ++ sauce_record cp437_encode (or_default today (yyyymmdd f))
                (N.of_nat (length d)) f).
Proof.
  intros Hsize Hdt Hft Ht1 Ht2. unfold append_minimal_sauce, sauce_record.
  replace (match yyyymmdd f with Some d0 => d0 | None => today end)
    with (or_default today (yyyymmdd f)) by (destruct (yyyymmdd f); reflexivity).
  set (T := ljust 35 x20 (map cp437_encode (firstn 35 (title f)))).
  set (A := ljust 20 x20 (map cp437_encode (firstn 20 (author f)))).
  set (G := ljust 20 x20 (map cp437_encode (firstn 20 (group f)))).
  set (D := ljust 8 x20 (map ascii_encode
                           (firstn 8 (or_default today (yyyymmdd f))))).
  assert (length T = 35) as HT by apply encoded_field_length.
  assert (length A = 20) as HA by apply encoded_field_length.
  assert (length G = 20) as HG by apply encoded_field_length.
  assert (length D = 8) as HD by apply encoded_field_length.
  change (set_slice (set_slice (repeat x00 128) 0 5 (b "SAUCE")) 5 7 (b "00"))
    with ((b "SAUCE" ++ b "00") ++ repeat x00 121).
  rewrite (set_slice_at (b "SAUCE" ++ b "00") _ T 7 42) by (reflexivity || lia).
  change (skipn (42 - 7) (repeat x00 121)) with (repeat x00 86).
  rewrite (app_assoc _ T).
  rewrite (set_slice_at _ _ A 42 62)
    by (rewrite ?length_app, ?HT; reflexivity || lia).
  change (skipn (62 - 42) (repeat x00 86)) with (repeat x00 66).
  rewrite (app_assoc _ A).
  rewrite (set_slice_at _ _ G 62 82)
    by (rewrite ?length_app, ?HT, ?HA; reflexivity || lia).
  change (skipn (82 - 62) (repeat x00 66)) with (repeat x00 46).
  rewrite (app_assoc _ G).
  rewrite (set_slice_at _ _ D 82 90)
    by (rewrite ?length_app, ?HT, ?HA, ?HG; reflexivity || lia).
  change (skipn (90 - 82) (repeat x00 46)) with (repeat x00 38).
  rewrite (app_assoc _ D).
  rewrite (to_bytes_fits _ 4 Hsize). cbn [bind].
  replace (Z.to_N (Z.of_nat (length d))) with (N.of_nat (length d)) by lia.
  set (S4 := le_bytes 4 (N.of_nat (length d))).
  assert (length S4 = 4) as HS by apply le_bytes_length.
  rewrite (set_slice_at _ _ S4 90 94)
    by (rewrite ?length_app, ?HT, ?HA, ?HG, ?HD; reflexivity || lia).
  change (skipn (94 - 90) (repeat x00 38)) with (repeat x00 34).
  rewrite (app_assoc _ S4).
  rewrite (set_item_at _ _ 94 (datatype f))
    by (trivial; rewrite ?length_app, ?HT, ?HA, ?HG, ?HD, ?HS; reflexivity).
  cbn [bind]. change (skipn 1 (repeat x00 34)) with (repeat x00 33).
  rewrite (app_assoc _ [_]).
  rewrite (set_item_at _ _ 95 (filetype f))
    by (trivial; rewrite ?length_app, ?HT, ?HA, ?HG, ?HD, ?HS; reflexivity).
  cbn [bind]. change (skipn 1 (repeat x00 33)) with (repeat x00 32).
  rewrite (app_assoc _ [_]).
  rewrite (optional_field_at _ _ 96 98 (tinfo1 f))
    by (trivial; rewrite ?length_app, ?HT, ?HA, ?HG, ?HD, ?HS; reflexivity).
  cbn [bind]. change (skipn 2 (repeat x00 32)) with (repeat x00 30).
  rewrite (app_assoc _ (le_bytes 2 _)).
  rewrite (optional_field_at _ _ 98 100 (tinfo2 f))
    by (trivial; rewrite ?length_app, ?HT, ?HA, ?HG, ?HD, ?HS, ?le_bytes_length;
        reflexivity).
  cbn [bind]. change (skipn 2 (repeat x00 30)) with (repeat x00 28).
  rewrite <- !app_assoc. reflexivity.
Qed.

End RecordLayout.

(** Range conditions on concrete fields, by evaluation. *)
Ltac solve_fits :=
  repeat (unfold field_fits, fits; cbn);
  first [exact I
        |split; [apply Z.leb_le|apply Z.ltb_lt]; vm_compute; reflexivity].

(** X11.  For fields that fit, [append_minimal_sauce] returns the data
    followed by exactly this record: [SAUCE], [00], the title in 35 bytes,
    author and group in 20 each, the date in 8 (each cut to its width,
    then padded with spaces), the length of the data in 4 bytes
    little-endian, data type and file type in one byte each, the two hints
    in 2 bytes little-endian each (zero when absent), and 28 zero bytes. *)
Theorem append_minimal_sauce_record
  (cp437_encode : char -> byte) (today : text) (d : bytes) (f : sauce_fields) :
  fits 4 (Z.of_nat (length d)) ->
  fits 1 (datatype f) -> fits 1 (filetype f) ->
  field_fits 2 (tinfo1 f) -> field_fits 2 (tinfo2 f) ->
  append_minimal_sauce cp437_encode today d f
  = inl (d ++ sauce_record cp437_encode (or_default today (yyyymmdd f))
                (N.of_nat (length d)) f)
  /\ length (sauce_record cp437_encode (or_default today (yyyymmdd f))
               (N.of_nat (length d)) f) = 128.
Proof.
  intros Hsize Hdt Hft Ht1 Ht2.
  split; [apply append_minimal_sauce_layout; assumption|].
  unfold sauce_record.
  rewrite !length_app, !encoded_field_length, !le_bytes_length. reflexivity.
Qed.

Lemma append_minimal_sauce_record_witness :
  append_minimal_sauce ascii_encode (str "20240101") (b "art")
    (sample_fields (Some 80%Z))
  = inl (b "art"
           ++ sauce_record ascii_encode (str "20240101") 3
                (sample_fields (Some 80%Z))).
Proof.
  refine (proj1 (append_minimal_sauce_record ascii_encode (str "20240101")
                   (b "art") (sample_fields (Some 80%Z)) _ _ _ _ _));
    solve_fits.
Defined.

(** ** SAUCE: reading the numeric fields back *)

Lemma byte_of_N_value (n : N) : (n < 256)%N -> Byte.to_N (byte_of_N n) = n.
Proof.
  intros H. unfold byte_of_N.
  destruct (Byte.of_N n) as [x|] eqn:E.
  - apply Byte.to_of_N, E.
  - apply Byte.of_N_None_iff in E. lia.
Qed.

Lemma le_value_le_bytes (width : nat) :
  forall n, (n < 2 ^ (8 * N.of_nat width))%N ->
            le_value (le_bytes width n) = n.
Proof.
  induction width as [|w IH]; intros n Hn.
  - simpl in *. lia.
  - cbn [le_bytes le_value].
    rewrite byte_of_N_value by (apply N.mod_lt; lia).
    rewrite IH.
    + rewrite N.add_comm. symmetry. apply N.div_mod. lia.
    + apply N.Div0.div_lt_upper_bound.
      replace (8 * N.of_nat (S w))%N with (8 + 8 * N.of_nat w)%N in Hn by lia.
      rewrite N.pow_add_r in Hn. exact Hn.
Qed.

Lemma skipn_past (A : Type) (a r : list A) (n k : nat) :
  length a = k -> k <= n -> skipn n (a ++ r) = skipn (n - k) r.
Proof.
  intros Ha Hk. rewrite skipn_app, Ha, skipn_all2 by lia. reflexivity.
Qed.

Lemma firstn_exact (A : Type) (a r : list A) (k : nat) :
  length a = k -> firstn k (a ++ r) = a.
Proof.
  intros Ha. rewrite firstn_app, Ha, Nat.sub_diag, firstn_all2 by lia.
  apply app_nil_r.
Qed.

Lemma fits_N (width : nat) (n : Z) :
  fits width n -> (Z.to_N n < 2 ^ (8 * N.of_nat width))%N.
Proof.
  unfold fits. intros [H0 H1].
  apply N2Z.inj_lt. rewrite Z2N.id by lia.
  rewrite N2Z.inj_pow, N2Z.inj_mul, nat_N_Z. exact H1.
Qed.

(** The fields of a record at their offsets. *)
Lemma sauce_record_fields
  (cp437_encode : char -> byte) (date : text) (size : N) (f : sauce_fields) :
  (size < 2 ^ 32)%N ->
  fits 1 (datatype f) -> fits 1 (filetype f) ->
  field_fits 2 (tinfo1 f) -> field_fits 2 (tinfo2 f) ->
  let blk := sauce_record cp437_encode date size f in
  slice blk 0 7 = b "SAUCE00"
  /\ le_value (slice blk 90 94) = size
  /\ Byte.to_N (nth 94 blk x00) = Z.to_N (datatype f)
  /\ Byte.to_N (nth 95 blk x00) = Z.to_N (filetype f)
  /\ le_value (slice blk 96 98) = Z.to_N (or_default 0%Z (tinfo1 f))
  /\ le_value (slice blk 98 100) = Z.to_N (or_default 0%Z (tinfo2 f)).
Proof.
  intros Hsize Hdt Hft Ht1 Ht2. cbv zeta. unfold sauce_record.
  set (T := ljust 35 x20 _). set (A := ljust 20 x20 _).
  set (G := ljust 20 x20 (map cp437_encode (firstn 20 (group f)))).
  set (D := ljust 8 x20 _).
  assert (length T = 35) as HT by apply encoded_field_length.
  assert (length A = 20) as HA by apply encoded_field_length.
  assert (length G = 20) as HG by apply encoded_field_length.
  assert (length D = 8) as HD by apply encoded_field_length.
  set (S4 := le_bytes 4 _). set (T1 := le_bytes 2 _). set (T2 := le_bytes 2 _).
  assert (length S4 = 4) as HS by apply le_bytes_length.
  assert (length T1 = 2) as H1 by apply le_bytes_length.
  assert (length T2 = 2) as H2 by apply le_bytes_length.
  assert (forall n rest,
             90 <= n ->
             skipn n (b "SAUCE" ++ b "00" ++ T ++ A ++ G ++ D ++ rest)
             = skipn (n - 90) rest) as Hskip.
  { intros n rest Hn.
    rewrite (skipn_past _ (b "SAUCE") _ n 5) by (reflexivity || lia).
    rewrite (skipn_past _ (b "00") _ _ 2) by (reflexivity || lia).
    rewrite (skipn_past _ T _ _ 35) by (trivial; lia).
    rewrite (skipn_past _ A _ _ 20) by (trivial; lia).
    rewrite (skipn_past _ G _ _ 20) by (trivial; lia).
    rewrite (skipn_past _ D _ _ 8) by (trivial; lia).
    f_equal. lia. }
  assert (forall w n, field_fits w n -> fits w (or_default 0%Z n)) as Hdef.
  { intros w [n|] H; [exact H|]. unfold fits. cbn [or_default].
    split; [lia|]. apply Z.pow_pos_nonneg; lia. }
  split; [reflexivity|]. split; [|split; [|split; [|split]]].
  - unfold slice. rewrite Hskip by lia. cbn [Nat.sub skipn].
    rewrite (firstn_exact _ S4 _ 4 HS). subst S4.
    apply le_value_le_bytes. exact Hsize.
  - rewrite <- (Nat.add_0_r 94), <- nth_skipn, Hskip by lia.
    cbn [Nat.sub]. rewrite (skipn_past _ S4 _ 4 4) by (trivial; lia).
    cbn [Nat.sub skipn app nth]. apply byte_of_N_value.
    apply (fits_N 1 _ Hdt).
  - rewrite <- (Nat.add_0_r 95), <- nth_skipn, Hskip by lia.
    cbn [Nat.sub]. rewrite (skipn_past _ S4 _ 5 4) by (trivial; lia).
    cbn [Nat.sub skipn app nth]. apply byte_of_N_value.
    apply (fits_N 1 _ Hft).
  - unfold slice. rewrite Hskip by lia. cbn [Nat.sub].
    rewrite (skipn_past _ S4 _ 6 4) by (trivial; lia).
    cbn [Nat.sub skipn app]. rewrite (firstn_exact _ T1 _ 2 H1). subst T1.
    apply le_value_le_bytes, fits_N, Hdef, Ht1.
  - unfold slice. rewrite Hskip by lia. cbn [Nat.sub].
    rewrite (skipn_past _ S4 _ 8 4) by (trivial; lia).
    rewrite (skipn_past _ [_] _ _ 1) by (reflexivity || lia).
    rewrite (skipn_past _ [_] _ _ 1) by (reflexivity || lia).
    rewrite (skipn_past _ T1 _ _ 2) by (trivial; lia).
    cbn [Nat.sub skipn]. rewrite (firstn_exact _ T2 _ 2 H2). subst T2.
    apply le_value_le_bytes, fits_N, Hdef, Ht2.
Qed.

Lemma size_fits_N (n : nat) :
  fits 4 (Z.of_nat n) -> (N.of_nat n < 2 ^ 32)%N.
Proof.
  intros H. apply fits_N in H.
  replace (Z.to_N (Z.of_nat n)) with (N.of_nat n) in H by lia. exact H.
Qed.

(** X12.  In the record [append_minimal_sauce] writes, the numeric fields
    sit at the documented offsets and read back, little-endian, as the
    values passed: bytes 90..93 hold the length of the data, byte 94 the
    data type, byte 95 the file type, bytes 96..97 and 98..99 the two hints
    (zero when absent); the record starts with [SAUCE00]. *)
Theorem sauce_numeric_fields_read_back
  (cp437_encode : char -> byte) (today : text) (d : bytes) (f : sauce_fields) :
  fits 4 (Z.of_nat (length d)) ->
  fits 1 (datatype f) -> fits 1 (filetype f) ->
  field_fits 2 (tinfo1 f) -> field_fits 2 (tinfo2 f) ->
  exists blk,
    append_minimal_sauce cp437_encode today d f = inl (d ++ blk)
    /\ slice blk 0 7 = b "SAUCE00"
    /\ le_value (slice blk 90 94) = N.of_nat (length d)
    /\ Byte.to_N (nth 94 blk x00) = Z.to_N (datatype f)
    /\ Byte.to_N (nth 95 blk x00) = Z.to_N (filetype f)
    /\ le_value (slice blk 96 98) = Z.to_N (or_default 0%Z (tinfo1 f))
    /\ le_value (slice blk 98 100) = Z.to_N (or_default 0%Z (tinfo2 f)).
Proof.
  intros Hsize Hdt Hft Ht1 Ht2.
  eexists. split; [apply append_minimal_sauce_layout; assumption|].
  apply sauce_record_fields; trivial. apply size_fits_N, Hsize.
Qed.

Lemma sauce_numeric_fields_read_back_witness :
  exists blk,
    append_minimal_sauce ascii_encode (str "20240101") (b "art")
      (sample_fields (Some 80%Z)) = inl (b "art" ++ blk)
    /\ slice blk 0 7 = b "SAUCE00"
    /\ le_value (slice blk 90 94) = 3%N
    /\ Byte.to_N (nth 94 blk x00) = 1%N
    /\ Byte.to_N (nth 95 blk x00) = 1%N
    /\ le_value (slice blk 96 98) = 80%N
    /\ le_value (slice blk 98 100) = 0%N.
Proof.
  apply (sauce_numeric_fields_read_back ascii_encode (str "20240101")
           (b "art") (sample_fields (Some 80%Z)));
    solve_fits.
Defined.

(** ** SAUCE: when append_minimal_sauce raises *)

Lemma fits_dec (width : nat) (n : Z) : {fits width n} + {~ fits width n}.
Proof.
  unfold fits.
  destruct (Z_le_dec 0 n); destruct (Z_lt_dec n (2 ^ (8 * Z.of_nat width)));
    (left; lia) || (right; lia).
Qed.

Lemma to_bytes_overflow (n : Z) (width : nat) :
  ~ fits width n -> to_bytes n width = inr OverflowError.
Proof.
  unfold fits, to_bytes. intros Hn.
  destruct (n <? 0)%Z eqn:E1; [reflexivity|].
  destruct (n <? 2 ^ (8 * Z.of_nat width))%Z eqn:E2; [|reflexivity].
  apply Z.ltb_ge in E1. apply Z.ltb_lt in E2. lia.
Qed.

Lemma set_item_value_error (buf : bytes) (k : nat) (n : Z) :
  ~ fits 1 n -> set_item buf k n = inr ValueError.
Proof.
  unfold fits, set_item. intros Hn.
  destruct ((0 <=? n)%Z && (n <? 256)%Z) eqn:E; [|reflexivity].
  apply andb_prop in E as [E1 E2].
  apply Z.leb_le in E1. apply Z.ltb_lt in E2. simpl in Hn. lia.
Qed.

Lemma set_item_ok (buf : bytes) (k : nat) (n : Z) :
  fits 1 n -> exists s', set_item buf k n = inl s'.
Proof.
  unfold fits, set_item. intros Hn.
  assert ((0 <=? n)%Z && (n <? 256)%Z = true) as ->.
  { apply andb_true_iff. split; [apply Z.leb_le|apply Z.ltb_lt]; simpl in Hn; lia. }
  eexists. reflexivity.
Qed.

Lemma optional_field_cases (s : bytes) (lo hi : nat) (field : option Z) :
  (field_fits 2 field
   /\ exists s',
        match field with
        | Some n => v <- to_bytes n 2 ;; inl (set_slice s lo hi v)
        | None => inl s
        end = inl s')
  \/ (~ field_fits 2 field
      /\ match field with
         | Some n => v <- to_bytes n 2 ;; inl (set_slice s lo hi v)
         | None => inl s
         end = inr OverflowError).
Proof.
  destruct field as [n|]; cbn [field_fits].
  - destruct (fits_dec 2 n) as [H|H].
    + left. split; [exact H|]. rewrite (to_bytes_fits n 2 H). eexists.
      reflexivity.
    + right. split; [exact H|]. rewrite (to_bytes_overflow n 2 H). reflexivity.
  - left. split; [exact I|]. eexists. reflexivity.
Qed.

(** Equivalences between an outcome already computed and conditions
    already decided. *)
Ltac settle_result :=
  repeat split; intros;
  repeat match goal with
         | H : exists _, _ |- _ => destruct H
         | H : _ /\ _ |- _ => destruct H
         | H : _ \/ _ |- _ => destruct H
         end;
  try discriminate; try tauto; try (eexists; reflexivity);
  try (unfold fits in *; tauto).

(** The three outcomes of [append_minimal_sauce], each with its condition. *)
Lemma append_minimal_sauce_outcomes
  (cp437_encode : char -> byte) (today : text) (d : bytes) (f : sauce_fields) :
  ((exists r, append_minimal_sauce cp437_encode today d f = inl r)
   <-> fits 4 (Z.of_nat (length d)) /\ fits 1 (datatype f)
       /\ fits 1 (filetype f)
       /\ field_fits 2 (tinfo1 f) /\ field_fits 2 (tinfo2 f))
  /\ (append_minimal_sauce cp437_encode today d f = inr ValueError
      <-> fits 4 (Z.of_nat (length d))
          /\ ~ (fits 1 (datatype f) /\ fits 1 (filetype f)))
  /\ (append_minimal_sauce cp437_encode today d f = inr OverflowError
      <-> ~ fits 4 (Z.of_nat (length d))
          \/ (fits 1 (datatype f) /\ fits 1 (filetype f)
              /\ ~ (field_fits 2 (tinfo1 f) /\ field_fits 2 (tinfo2 f)))).
Proof.
  unfold append_minimal_sauce.
  destruct (fits_dec 4 (Z.of_nat (length d))) as [Hs|Hs].
  2:{ rewrite (to_bytes_overflow _ 4 Hs). cbn [bind]. settle_result. }
  rewrite (to_bytes_fits _ 4 Hs). cbn [bind].
  destruct (fits_dec 1 (datatype f)) as [Hd|Hd].
  2:{ rewrite (set_item_value_error _ 94 _ Hd). cbn [bind]. settle_result. }
  match goal with
  | |- context [set_item ?buf 94 _] =>
      destruct (set_item_ok buf 94 _ Hd) as [s6 E6]; rewrite E6
  end.
  cbn [bind].
  destruct (fits_dec 1 (filetype f)) as [Hf|Hf].
  2:{ rewrite (set_item_value_error _ 95 _ Hf). cbn [bind]. settle_result. }
  destruct (set_item_ok s6 95 _ Hf) as [s7 ->]. cbn [bind].
  destruct (optional_field_cases s7 96 98 (tinfo1 f)) as [[H1 [s8 E]]|[H1 E]];
    rewrite E; cbn [bind]; [|settle_result].
  destruct (optional_field_cases s8 98 100 (tinfo2 f)) as [[H2 [s9 E']]|[H2 E']];
    rewrite E'; cbn [bind]; settle_result.
Qed.

(** X13.  [append_minimal_sauce] returns a result exactly when every
    numeric field fits its slot.  It raises [OverflowError] when the data
    are 2^32 bytes or longer, or when size and both type bytes fit but a
    hint is negative or above 65535; it raises [ValueError] when the size
    fits but the data type or the file type is outside 0..255.  Title,
    author, group and date never make it raise. *)
Theorem append_minimal_sauce_raises_iff
  (cp437_encode : char -> byte) (today : text) (d : bytes) (f : sauce_fields) :
  ((exists r, append_minimal_sauce cp437_encode today d f = inl r)
   <-> fits 4 (Z.of_nat (length d)) /\ fits 1 (datatype f)
       /\ fits 1 (filetype f)
       /\ field_fits 2 (tinfo1 f) /\ field_fits 2 (tinfo2 f))
  /\ (append_minimal_sauce cp437_encode today d f = inr ValueError
      <-> fits 4 (Z.of_nat (length d))
          /\ ~ (fits 1 (datatype f) /\ fits 1 (filetype f)))
  /\ (append_minimal_sauce cp437_encode today d f = inr OverflowError
      <-> ~ fits 4 (Z.of_nat (length d))
          \/ (fits 1 (datatype f) /\ fits 1 (filetype f)
              /\ ~ (field_fits 2 (tinfo1 f) /\ field_fits 2 (tinfo2 f)))).
Proof. apply append_minimal_sauce_outcomes. Qed.

(** ** analyze_bytes: the estimate on text without escape *)

(** One iteration of the scan on an ordinary character. *)
Lemma scan_step_plain (t : text) (s : scan_state) :
  get t (pos s) <> ESC ->
  scan_step t s =
  if N.eqb (get t (pos s)) 10 then
    {| lines := lines s ++ [max_col s]; current_col := 0;
       max_col := Nat.max (max_col s) (current_col s); pos := pos s + 1 |}
  else if N.eqb (get t (pos s)) 13 then
    {| lines := lines s; current_col := 0; max_col := max_col s;
       pos := pos s + 1 |}
  else
    {| lines := lines s; current_col := current_col s + 1;
       max_col := max_col s; pos := pos s + 1 |}.
Proof.
  intros H. unfold scan_step. apply N.eqb_neq in H. rewrite H. reflexivity.
Qed.

Lemma scan_plain (t : text) :
  Forall (fun c => c <> ESC) t ->
  forall fuel s,
    pos s <= length t -> length t - pos s <= fuel ->
    let r := scan fuel t s in
    (lines r, current_col r, max_col r)
    = plain_scan (skipn (pos s) t) (lines s) (current_col s) (max_col s).
Proof.
  intros Hplain. induction fuel as [|fuel IH]; intros s Hle Hfuel; cbn [scan].
  - rewrite skipn_all2 by lia. reflexivity.
  - destruct (pos s <? length t) eqn:L.
    + apply Nat.ltb_lt in L.
      assert (get t (pos s) <> ESC) as Hc.
      { rewrite Forall_forall in Hplain. apply Hplain, nth_In, L. }
      rewrite (skipn_get t (pos s) L). cbn [plain_scan].
      cbv zeta in IH. rewrite (scan_step_plain t s Hc).
      destruct (N.eqb (get t (pos s)) 10);
        [|destruct (N.eqb (get t (pos s)) 13)];
        rewrite IH by (cbn [pos]; lia); cbn [pos lines current_col max_col];
        replace (pos s + 1) with (S (pos s)) by lia; reflexivity.
    + apply Nat.ltb_ge in L. rewrite skipn_all2 by lia. reflexivity.
Qed.

Lemma analyze_text_plain (t : text) :
  Forall (fun c => c <> ESC) t ->
  forall ls cur mx,
    plain_scan t [] 0 0 = (ls, cur, mx) ->
    est_rows (analyze_text t) = length ls + 1
    /\ est_cols (analyze_text t) = fold_right Nat.max 0 (ls ++ [mx]).
Proof.
  intros Hplain ls cur mx H. unfold analyze_text.
  pose proof (scan_plain t Hplain (length t)
                {| lines := []; current_col := 0; max_col := 0; pos := 0 |})
    as E.
  cbn [pos lines current_col max_col skipn] in E.
  specialize (E (Nat.le_0_l _)). rewrite Nat.sub_0_r in E.
  specialize (E (Nat.le_refl _)). cbv zeta in E. rewrite H in E.
  injection E as E1 E2 E3. cbn [est_rows est_cols]. rewrite E1, E3.
  rewrite length_app. cbn [length]. split; [reflexivity|].
  destruct ls; reflexivity.
Qed.

Lemma plain_scan_lines (rest : text) :
  forall ls cur mx,
    length (fst (fst (plain_scan rest ls cur mx)))
    = length ls + count_occ N.eq_dec rest 10%N.
Proof.
  induction rest as [|c rest IH]; intros ls cur mx; cbn [plain_scan count_occ].
  - cbn [fst]. lia.
  - destruct (N.eq_dec c 10) as [->|Hne].
    + cbn [N.eqb Pos.eqb]. rewrite IH, length_app. cbn [length]. lia.
    + apply N.eqb_neq in Hne. rewrite Hne.
      destruct (N.eqb c 13); apply IH.
Qed.

(** X14.  On text without escape characters, the estimated number of rows
    is one more than the number of newline characters. *)
Theorem est_rows_counts_newlines (t : text) :
  Forall (fun c => c <> ESC) t ->
  est_rows (analyze_text t) = count_occ N.eq_dec t 10%N + 1.
Proof.
  intros Hplain.
  destruct (plain_scan t [] 0 0) as [[ls cur] mx] eqn:E.
  destruct (analyze_text_plain t Hplain ls cur mx E) as [-> _].
  pose proof (plain_scan_lines t [] 0 0) as H. rewrite E in H.
  cbn [fst length] in H. lia.
Qed.

Lemma est_rows_counts_newlines_witness :
  est_rows (analyze_text (str "ab" ++ [10%N] ++ str "c" ++ [13%N; 10%N])) = 3.
Proof.
  apply (est_rows_counts_newlines
           (str "ab" ++ [10%N] ++ str "c" ++ [13%N; 10%N])).
  repeat constructor; discriminate.
Defined.

Lemma plain_scan_app (a c : text) :
  forall ls cur mx,
    plain_scan (a ++ c) ls cur mx
    = let '(ls', cur', mx') := plain_scan a ls cur mx in
      plain_scan c ls' cur' mx'.
Proof.
  induction a as [|x a IH]; intros ls cur mx; cbn [app plain_scan].
  - reflexivity.
  - destruct (N.eqb x 10); [|destruct (N.eqb x 13)]; apply IH.
Qed.

Lemma plain_scan_no_newline (tail : text) :
  Forall (fun c => c <> 10%N) tail ->
  forall ls cur mx, exists cur', plain_scan tail ls cur mx = (ls, cur', mx).
Proof.
  induction 1 as [|c tail Hc _ IH]; intros ls cur mx; cbn [plain_scan].
  - eexists. reflexivity.
  - apply N.eqb_neq in Hc. rewrite Hc. destruct (N.eqb c 13); apply IH.
Qed.

(** X15.  On text without escape characters, whatever follows the last
    newline does not count: appending text that holds no newline changes
    nothing in the analysis (columns, rows and suggested size stay as they
    are). *)
Theorem text_after_last_newline_is_ignored (t tail : text) :
  Forall (fun c => c <> ESC) t ->
  Forall (fun c => c <> ESC /\ c <> 10%N) tail ->
  analyze_text (t ++ tail) = analyze_text t.
Proof.
  intros Ht Htail.
  assert (Forall (fun c => c <> ESC) tail) as Htail1
      by (eapply Forall_impl; [|exact Htail]; intros c [H _]; exact H).
  assert (Forall (fun c => c <> 10%N) tail) as Htail2
      by (eapply Forall_impl; [|exact Htail]; intros c [_ H]; exact H).
  assert (Forall (fun c => c <> ESC) (t ++ tail)) as Hall
      by (apply Forall_app; split; assumption).
  destruct (plain_scan t [] 0 0) as [[ls cur] mx] eqn:E.
  destruct (plain_scan_no_newline tail Htail2 ls cur mx) as [cur' E'].
  assert (plain_scan (t ++ tail) [] 0 0 = (ls, cur', mx)) as E2
      by (rewrite plain_scan_app, E; exact E').
  destruct (analyze_text_plain t Ht ls cur mx E) as [R1 C1].
  destruct (analyze_text_plain (t ++ tail) Hall ls cur' mx E2) as [R2 C2].
  assert (forall u r c,
             est_rows (analyze_text u) = r -> est_cols (analyze_text u) = c ->
             analyze_text u
             = {| est_cols := c; est_rows := r;
                  suggested_width := if 100 <? c then 132 else 80;
                  suggested_height :=
                    if (25 <? r) && (r <=? 50) then 50
                    else if 50 <? r then Nat.max 25 r else 25 |}) as Hrec.
  { intros u r c Hr Hc. unfold analyze_text in *. cbn [est_rows est_cols] in *.
    rewrite Hr, Hc. reflexivity. }
  rewrite (Hrec _ _ _ R1 C1), (Hrec _ _ _ R2 C2). reflexivity.
Qed.

Lemma text_after_last_newline_is_ignored_witness :
  analyze_text (str "abc" ++ [10%N] ++ str "a much longer last line")
  = analyze_text (str "abc" ++ [10%N]).
Proof.
  change (str "abc" ++ [10%N] ++ str "a much longer last line")
    with ((str "abc" ++ [10%N]) ++ str "a much longer last line").
  apply text_after_last_newline_is_ignored.
  - repeat constructor; discriminate.
  - repeat constructor; discriminate.
Defined.

Lemma plain_scan_col0 (rest : text) :
  forall (col0 : bool) ls cur,
    newlines_at_col0 col0 rest = true ->
    (col0 = true -> cur = 0) ->
    Forall (fun n => n = 0) ls ->
    let '(ls', _, mx') := plain_scan rest ls cur 0 in
    Forall (fun n => n = 0) ls' /\ mx' = 0.
Proof.
  induction rest as [|c rest IH]; intros col0 ls cur Hnl Hcur Hls;
    cbn [plain_scan newlines_at_col0] in *.
  - split; [exact Hls|reflexivity].
  - destruct (N.eqb c 10).
    + apply andb_prop in Hnl as [Hc0 Hnl]. rewrite (Hcur Hc0). cbn [Nat.max].
      apply (IH true); trivial.
      apply Forall_app. split; [exact Hls|repeat constructor].
    + destruct (N.eqb c 13) eqn:E13.
      * apply (IH true); trivial.
      * apply (IH false); trivial. discriminate.
Qed.

(** X16.  On text without escape characters in which every newline stands
    at column 0 (at the start, or right after a carriage return or another
    newline), the estimated width is 0 columns and the suggested width is
    80.  Art with CR LF line ends is of this kind, however wide its
    lines. *)
Theorem crlf_text_reports_zero_columns (t : text) :
  Forall (fun c => c <> ESC) t ->
  newlines_at_col0 true t = true ->
  est_cols (analyze_text t) = 0 /\ suggested_width (analyze_text t) = 80.
Proof.
  intros Hplain Hnl.
  destruct (plain_scan t [] 0 0) as [[ls cur] mx] eqn:E.
  destruct (analyze_text_plain t Hplain ls cur mx E) as [_ C].
  pose proof (plain_scan_col0 t true [] 0 Hnl (fun _ => eq_refl)
                (Forall_nil _)) as H.
  rewrite E in H. destruct H as [Hls ->].
  assert (est_cols (analyze_text t) = 0) as C0.
  { rewrite C. clear -Hls. induction Hls as [|n ls -> _ IH]; [reflexivity|].
    cbn [app fold_right]. rewrite IH. reflexivity. }
  split; [exact C0|].
  unfold analyze_text in *. cbn [est_cols suggested_width] in *.
  rewrite C0. reflexivity.
Qed.

Lemma crlf_text_reports_zero_columns_witness :
  est_cols (analyze_text (str "a wide first line" ++ [13%N; 10%N]
                            ++ str "second" ++ [13%N; 10%N])) = 0
  /\ suggested_width (analyze_text (str "a wide first line" ++ [13%N; 10%N]
                                      ++ str "second" ++ [13%N; 10%N])) = 80.
Proof.
  apply crlf_text_reports_zero_columns.
  - repeat constructor; discriminate.
  - reflexivity.
Defined.

(** X17.  Whatever the text, the analysis estimates at least one row, and
    the suggested height is at least 25 and at least the estimated number
    of rows; the suggested width is 80 or 132, and it is 132 exactly when
    more than 100 columns are estimated, so for estimates of 81 to 100 and
    above 132 columns it is smaller than the estimate. *)
Theorem suggested_size_bounds (t : text) :
  1 <= est_rows (analyze_text t)
  /\ 25 <= suggested_height (analyze_text t)
  /\ est_rows (analyze_text t) <= suggested_height (analyze_text t)
  /\ (suggested_width (analyze_text t) = 80
      \/ suggested_width (analyze_text t) = 132)
  /\ (suggested_width (analyze_text t) = 132
      <-> 100 < est_cols (analyze_text t)).
Proof.
  unfold analyze_text.
  cbn [est_rows est_cols suggested_width suggested_height].
  set (ls := lines _ ++ [max_col _]).
  set (c := match ls with [] => 0 | _ :: _ => fold_right Nat.max 0 ls end).
  assert (1 <= length ls) as Hrows
      by (unfold ls; rewrite length_app; cbn [length]; lia).
  split; [exact Hrows|].
  destruct (Nat.ltb_spec 25 (length ls)) as [A|A];
    destruct (Nat.leb_spec (length ls) 50) as [B|B];
    destruct (Nat.ltb_spec 50 (length ls)) as [C|C];
    destruct (Nat.ltb_spec 100 c) as [D|D];
    cbn [andb]; repeat split; intros; try lia; auto; try discriminate.
Qed.

(** ** analyze_bytes and the SAUCE record *)

Lemma sauce_record_is_block (cp437_encode : char -> byte) (date : text)
  (size : N) (f : sauce_fields) :
  is_block (sauce_record cp437_encode date size f).
Proof.
  split; [|reflexivity]. unfold sauce_record.
  rewrite !length_app, !encoded_field_length, !le_bytes_length. reflexivity.
Qed.

(** X18.  Analysing what [append_minimal_sauce] returned reports the
    record as present and estimates the dimensions from the data alone:
    the 128 bytes of metadata never enter the estimate. *)
Theorem analyze_bytes_ignores_the_record
  (cp437_encode : char -> byte) (today : text)
  (cp437_decode : byte -> char) (d : bytes) (f : sauce_fields) :
  fits 4 (Z.of_nat (length d)) ->
  fits 1 (datatype f) -> fits 1 (filetype f) ->
  field_fits 2 (tinfo1 f) -> field_fits 2 (tinfo2 f) ->
  exists r,
    append_minimal_sauce cp437_encode today d f = inl r
    /\ analyze_bytes cp437_decode r
       = (true, analyze_text (map cp437_decode d)).
Proof.
  intros Hsize Hdt Hft Ht1 Ht2.
  eexists. split; [apply append_minimal_sauce_layout; assumption|].
  unfold analyze_bytes.
  rewrite has_sauce_app_block, strip_sauce_tail_app_block
    by apply sauce_record_is_block.
  reflexivity.
Qed.

Lemma analyze_bytes_ignores_the_record_witness :
  exists r,
    append_minimal_sauce ascii_encode (str "20240101") (b "ab")
      (sample_fields None) = inl r
    /\ analyze_bytes Byte.to_N r
       = (true, analyze_text (map Byte.to_N (b "ab"))).
Proof.
  apply (analyze_bytes_ignores_the_record ascii_encode (str "20240101")
           Byte.to_N (b "ab") (sample_fields None));
    solve_fits.
Defined.

(** ** AnsiBuilder: what a chain of calls builds *)





(** ** AnsiBuilder: its output and the safety filter *)







Lemma concat_safe (parts : list text) :
  Forall safe_text parts -> safe_text (concat parts).
Proof.
  induction 1 as [|p ps Hp _ IH]; [apply safe_nil|].
  cbn [concat]. apply safe_text_app; assumption.
Qed.



(** ** AnsiBuilder and ice_fix *)






(** ** AnsiBuilder: a negative parameter *)







(** ** AnsiBuilder: export with a SAUCE record *)

(** X23.  Exporting a builder with [add_sauce], without the two size
    hints among the keyword arguments and with encoded text shorter than
    2^32 bytes, stores the builder's own width and height in the record.
    When data type and file type (1 each when not passed) are in 0..255 and
    width and height are in 0..65535, the result is the encoded text
    followed by a 128-byte record whose TInfo1 and TInfo2 read back as
    width and height, and stripping the record gives the encoded text
    back.  When the two types are in range but width or height is not (a
    negative one, or one above 65535), the export raises OverflowError.
    When data type or file type is outside 0..255, it raises ValueError,
    whatever width and height are. *)
Theorem builder_export_stores_its_size
  (encode : text -> bytes) (cp437_encode : char -> byte) (today : text)
  (kw : sauce_kwargs) (bd : AnsiBuilder.t) :
  kw_tinfo1 kw = None -> kw_tinfo2 kw = None ->
  fits 4 (Z.of_nat (length (encode (AnsiBuilder.to_text bd)))) ->
  (fits 1 (or_default 1%Z (kw_datatype kw)) ->
   fits 1 (or_default 1%Z (kw_filetype kw)) ->
   fits 2 (AnsiBuilder.width bd) -> fits 2 (AnsiBuilder.height bd) ->
   exists blk,
     AnsiBuilder.to_bytes encode cp437_encode today true kw bd
     = inl (encode (AnsiBuilder.to_text bd) ++ blk)
     /\ length blk = 128
     /\ le_value (slice blk 96 98) = Z.to_N (AnsiBuilder.width bd)
     /\ le_value (slice blk 98 100) = Z.to_N (AnsiBuilder.height bd)
     /\ strip_sauce_tail (encode (AnsiBuilder.to_text bd) ++ blk)
        = encode (AnsiBuilder.to_text bd))
  /\ (fits 1 (or_default 1%Z (kw_datatype kw)) ->
      fits 1 (or_default 1%Z (kw_filetype kw)) ->
      ~ (fits 2 (AnsiBuilder.width bd) /\ fits 2 (AnsiBuilder.height bd)) ->
      AnsiBuilder.to_bytes encode cp437_encode today true kw bd
      = inr OverflowError)
  /\ (~ (fits 1 (or_default 1%Z (kw_datatype kw))
         /\ fits 1 (or_default 1%Z (kw_filetype kw))) ->
      AnsiBuilder.to_bytes encode cp437_encode today true kw bd
      = inr ValueError).
Proof.
  intros K1 K2 Hsize. unfold AnsiBuilder.to_bytes.
  rewrite K1. cbn [kw_tinfo2 kw_tinfo1 kw_title kw_author kw_group kw_yyyymmdd
                     kw_datatype kw_filetype].
  rewrite K2.
  set (f := fields_of_kwargs _).
  assert (datatype f = or_default 1%Z (kw_datatype kw)) as Ed by reflexivity.
  assert (filetype f = or_default 1%Z (kw_filetype kw)) as Ef by reflexivity.
  assert (tinfo1 f = Some (AnsiBuilder.width bd)) as E1 by reflexivity.
  assert (tinfo2 f = Some (AnsiBuilder.height bd)) as E2 by reflexivity.
  split; [|split].
  - intros Hdt Hft Hw Hh.
    assert (field_fits 2 (tinfo1 f)) as H1 by (rewrite E1; exact Hw).
    assert (field_fits 2 (tinfo2 f)) as H2 by (rewrite E2; exact Hh).
    rewrite <- Ed in Hdt. rewrite <- Ef in Hft.
    eexists. split; [apply append_minimal_sauce_layout; assumption|].
    destruct (sauce_record_fields cp437_encode
                (or_default today (yyyymmdd f))
                (N.of_nat (length (encode (AnsiBuilder.to_text bd)))) f
                (size_fits_N _ Hsize) Hdt Hft H1 H2)
      as (_ & _ & _ & _ & T1 & T2).
    rewrite E1 in T1. rewrite E2 in T2. cbn [or_default] in T1, T2.
    split; [apply sauce_record_is_block|].
    split; [exact T1|]. split; [exact T2|].
    apply strip_sauce_tail_app_block, sauce_record_is_block.
  - intros Hdt Hft Hno.
    apply (proj2 (proj2 (append_minimal_sauce_outcomes cp437_encode today
                           (encode (AnsiBuilder.to_text bd)) f))).
    right. rewrite Ed, Ef, E1, E2. cbn [field_fits]. tauto.
  - intros Hno.
    apply (proj1 (proj2 (append_minimal_sauce_outcomes cp437_encode today
                           (encode (AnsiBuilder.to_text bd)) f))).
    rewrite Ed, Ef. tauto.
Qed.

Lemma builder_export_stores_its_size_witness :
  exists blk,
    AnsiBuilder.to_bytes (map ascii_encode) ascii_encode (str "20240101")
      true no_kwargs (AnsiBuilder.text (str "Hi") (AnsiBuilder.init 80 25))
    = inl (map ascii_encode
             (AnsiBuilder.to_text
                (AnsiBuilder.text (str "Hi") (AnsiBuilder.init 80 25)))
             ++ blk)
    /\ length blk = 128
    /\ le_value (slice blk 96 98)
       = Z.to_N (AnsiBuilder.width
                   (AnsiBuilder.text (str "Hi") (AnsiBuilder.init 80 25)))
    /\ le_value (slice blk 98 100)
       = Z.to_N (AnsiBuilder.height
                   (AnsiBuilder.text (str "Hi") (AnsiBuilder.init 80 25)))
    /\ strip_sauce_tail
         (map ascii_encode
            (AnsiBuilder.to_text
               (AnsiBuilder.text (str "Hi") (AnsiBuilder.init 80 25)))
            ++ blk)
       = map ascii_encode
           (AnsiBuilder.to_text
              (AnsiBuilder.text (str "Hi") (AnsiBuilder.init 80 25))).
Proof.
  refine (proj1 (builder_export_stores_its_size (map ascii_encode)
                   ascii_encode (str "20240101") no_kwargs
                   (AnsiBuilder.text (str "Hi") (AnsiBuilder.init 80 25))
                   _ _ _) _ _ _ _);
    first [reflexivity|solve_fits].
Defined.

(** ** render_bytes: what reaches the terminal *)

Lemma setup_text_safe (s : text) :
  filter_safe 16 s = Some s -> safe_text s.
Proof. apply filter_safe_output_safe. Qed.

Ltac setup_safe :=
  first [apply Forall_nil
        |apply Forall_cons;
         [apply setup_text_safe; reflexivity|apply Forall_nil]].

(** X24.  In safe mode everything [render_bytes] writes, terminal setup and
    restore included, is safe text in the order written: ordinary
    characters and complete CSI sequences of the kept classes, whatever the
    bytes rendered and whatever the other options. *)
Theorem render_bytes_writes_safe_text
  (decode : bytes -> text) (fuel : nat) (data : bytes) (o : render_options)
  (ws : list text) :
  safe_mode o = true ->
  render_bytes decode fuel data o = Some ws ->
  safe_text (concat ws).
Proof.
  intros Hsafe. unfold render_bytes. rewrite Hsafe.
  destruct (filter_safe fuel _) as [u|] eqn:F; [|discriminate].
  intros H. injection H as <-.
  apply filter_safe_output_safe in F.
  apply concat_safe. apply Forall_app. split.
  - destruct (use_alt_screen o); [setup_safe|].
    apply Forall_app. split; [|apply Forall_app; split].
    + destruct (disable_wrap o); setup_safe.
    + destruct (hide_cursor o); setup_safe.
    + destruct (clear_first o); setup_safe.
  - apply Forall_cons; [exact F|].
    destruct (use_alt_screen o); [setup_safe|].
    apply Forall_cons; [apply setup_text_safe; reflexivity|].
    apply Forall_app. split.
    + destruct (hide_cursor o); setup_safe.
    + destruct (disable_wrap o); setup_safe.
Qed.

Lemma render_bytes_writes_safe_text_witness :
  safe_text
    (concat [_enter_alt_screen; ESC :: str "[31mRed"; _exit_alt_screen]).
Proof.
  apply (render_bytes_writes_safe_text (map Byte.to_N) 8
           (x1b :: b "[31mRed" ++ x1b :: b "]0;T" ++ [x07])
           {| ice_mode := "off"; use_alt_screen := true;
              disable_wrap := true; hide_cursor := true;
              clear_first := true; safe_mode := true |}
           [_enter_alt_screen; ESC :: str "[31mRed"; _exit_alt_screen]);
    reflexivity.
Defined.

(** X25.  Rendering what [append_minimal_sauce] returned writes exactly
    what rendering the data alone writes, for data that carries no record
    of its own: the metadata never reaches the terminal. *)
Theorem render_bytes_ignores_the_record
  (cp437_encode : char -> byte) (today : text) (decode : bytes -> text)
  (d : bytes) (f : sauce_fields) :
  fits 4 (Z.of_nat (length d)) ->
  fits 1 (datatype f) -> fits 1 (filetype f) ->
  field_fits 2 (tinfo1 f) -> field_fits 2 (tinfo2 f) ->
  strip_sauce_tail d = d ->
  exists r,
    append_minimal_sauce cp437_encode today d f = inl r
    /\ forall fuel o,
         render_bytes decode fuel r o = render_bytes decode fuel d o.
Proof.
  intros Hsize Hdt Hft Ht1 Ht2 Hd.
  eexists. split; [apply append_minimal_sauce_layout; assumption|].
  intros fuel o. unfold render_bytes.
  rewrite strip_sauce_tail_app_block by apply sauce_record_is_block.
  rewrite Hd. reflexivity.
Qed.

Lemma render_bytes_ignores_the_record_witness :
  exists r,
    append_minimal_sauce ascii_encode (str "20240101") (b "ab")
      (sample_fields None) = inl r
    /\ forall fuel o,
         render_bytes (map Byte.to_N) fuel r o
         = render_bytes (map Byte.to_N) fuel (b "ab") o.
Proof.
  apply (render_bytes_ignores_the_record ascii_encode (str "20240101")
           (map Byte.to_N) (b "ab") (sample_fields None));
    first [reflexivity|solve_fits].
Defined.
